(** * cxio/suite: the script execution core, embedded in Rocq

    A shallow embedding of the Go packages [instor] (instruction decoding),
    [ibase] (executor state, stacks, counters), [expr] (the arithmetic
    expression evaluator), [inst] (instruction handlers and the run
    envelopes), [model] (the pattern-match driver) and [xpool] (the script
    pool), followed by the properties established about them.

    Conventions of the embedding.
    - A Go panic is a value of type [panic]; the control sentinels ([Leave],
      [cease]) and the genuine faults are kept apart, as the envelopes
      ([execScope], [execPart], [runEmbed], [ScriptRun]) tell them apart by
      a type switch on the recovered value.
    - Pointers to shared objects ([*spaces], the [*int] counters, the
      [*bool] cells, the [map[int]any] of globals) are indices into a
      [heap]; two executors that hold the same index alias the same object.
    - The executor itself ([*Actuator]) is threaded as a value: every child
      executor is a fresh object and the parent is never reachable from it.
    - Loops that Go writes with [for] take a fuel argument; running out of
      fuel is the outcome [OutOfFuel], which is no behaviour of the program.
    - Slices are lists; a nil slice and an empty slice are both [[]]. The
      source tests a slice against nil in [ReturnPut] (nothing to put either
      way) and in [Calculor.next]. *)

From Stdlib Require Import ZArith List Bool Uint63 PrimFloat Lia.
From stdpp Require Import base option list gmap.
Import ListNotations.
Open Scope Z_scope.

(** ** Opcodes ([icode]) *)

Module icode.
Definition NIL : Z := 0.
Definition TRUE : Z := 1.
Definition FALSE : Z := 2.
Definition Uint8n : Z := 3.
Definition Uint8 : Z := 4.
Definition Uint63n : Z := 5.
Definition Uint63 : Z := 6.
Definition Byte : Z := 7.
Definition Rune : Z := 8.
Definition Float32 : Z := 9.
Definition Float64 : Z := 10.
Definition DATE : Z := 11.
Definition BigInt : Z := 12.
Definition DATA8 : Z := 13.
Definition DATA16 : Z := 14.
Definition TEXT8 : Z := 15.
Definition TEXT16 : Z := 16.
Definition RegExp : Z := 17.
Definition CODE : Z := 18.
Definition Capture : Z := 20.
Definition Bring : Z := 21.
Definition ScopeAdd : Z := 22.
Definition ScopeVal : Z := 23.
Definition LoopVal : Z := 24.
Definition NOP : Z := 25.
Definition PUSH : Z := 26.
Definition SHIFT : Z := 27.
Definition CLONE : Z := 28.
Definition POP : Z := 29.
Definition POPS : Z := 30.
Definition TOP : Z := 31.
Definition TOPS : Z := 32.
Definition PEEK : Z := 33.
Definition PEEKS : Z := 34.
Definition SLICE : Z := 35.
Definition REVERSE : Z := 36.
Definition MERGE : Z := 37.
Definition EXPAND : Z := 38.
Definition GLUE : Z := 39.
Definition SPREAD : Z := 40.
Definition ITEM : Z := 41.
Definition SET : Z := 42.
Definition SIZE : Z := 43.
Definition MAP : Z := 44.
Definition FILTER : Z := 45.
Definition INPUT : Z := 46.
Definition OUTPUT : Z := 47.
Definition BUFDUMP : Z := 48.
Definition PRINT : Z := 50.
Definition PASS : Z := 51.
Definition FAIL : Z := 52.
Definition GOTO : Z := 53.
Definition JUMP : Z := 54.
Definition EXIT : Z := 55.
Definition RETURN : Z := 56.
Definition IF : Z := 57.
Definition ELSE : Z := 58.
Definition SWITCH : Z := 59.
Definition CASE : Z := 60.
Definition DEFAULT : Z := 61.
Definition EACH : Z := 62.
Definition CONTINUE : Z := 63.
Definition BREAK : Z := 64.
Definition FALLTHROUGH : Z := 65.
Definition BLOCK : Z := 66.
Definition STRING : Z := 73.
Definition ANYS : Z := 78.
Definition Expr : Z := 80.
Definition Mul : Z := 81.
Definition Div : Z := 82.
Definition Add : Z := 83.
Definition Sub : Z := 84.
Definition MUL : Z := 85.
Definition DIV : Z := 86.
Definition ADD : Z := 87.
Definition SUB : Z := 88.
Definition DUP : Z := 100.
Definition WITHIN : Z := 111.
Definition SOME : Z := 115.
Definition MODEL : Z := 116.
Definition ValPick : Z := 117.
Definition Wildcard : Z := 118.
Definition Wildnum : Z := 119.
Definition Wildpart : Z := 120.
Definition Wildlist : Z := 121.
Definition TypeIs : Z := 122.
Definition WithinInt : Z := 123.
Definition WithinFloat : Z := 124.
Definition RE : Z := 125.
Definition RePick : Z := 126.
Definition WildLump : Z := 127.
Definition ENV : Z := 128.
Definition OUT : Z := 129.
Definition IN : Z := 130.
Definition INOUT : Z := 131.
Definition XFROM : Z := 132.
Definition VAR : Z := 133.
Definition SETVAR : Z := 134.
Definition SOURCE : Z := 135.
Definition MULSIG : Z := 136.
Definition KEYVAL : Z := 141.
Definition MATCH : Z := 142.
Definition SUBSTR : Z := 143.
Definition REPLACE : Z := 144.
Definition CMPFLO : Z := 148.
Definition RANGE : Z := 155.
Definition SYS_TIME : Z := 164.
Definition SYS_NULL : Z := 169.
Definition FN_CHECKSIG : Z := 176.
Definition FN_MCHECKSIG : Z := 177.
Definition FN_HASH224 : Z := 178.
Definition FN_HASH256 : Z := 179.
Definition FN_HASH384 : Z := 180.
Definition FN_HASH512 : Z := 181.
Definition FN_X : Z := 209.
Definition MO_RE : Z := 210.
Definition MO_TIME : Z := 211.
Definition MO_MATH : Z := 212.
Definition MO_CRYPT : Z := 213.
Definition MO_X : Z := 249.
Definition EX_FN : Z := 250.
Definition EX_INST : Z := 251.
Definition EX_PRIV : Z := 253.
End icode.

(** ** Runtime values, scripts and instruction decoding ([instor]) *)

Module instor.

(** The dynamic types that the embedded instructions produce or inspect.
    [Int] is Go's [int64]; the decoder's auxiliary arguments and the
    counters are Go's [int], a different dynamic type. Strings and byte
    slices are sequences of bytes (integers in [0, 256)). *)
#[warnings="-register-all"]
Inductive value : Type :=
| VNil
| VBool (b : bool)
| VByte (z : Z)
| VRune (z : Z)
| VInt (z : Z)
| VGoInt (z : Z)
| VFloat (f : float)
| VString (s : list Z)
| VBytes (bs : list Z)
| VAnys (vs : list value).

(** Length, indexing and slicing with Go's [int] indices. [slice_ l lo hi]
    is [l[lo:hi]]; it is defined when [0 <= lo <= hi <= len(l)]. (Go bounds
    [hi] by the capacity; the embedding has no capacities, and a decoder
    that would read past the length is reported as not covered.) *)
Definition zlen {A} (l : list A) : Z := Z.of_nat (length l).
Definition zlookup {A} (l : list A) (i : Z) : option A :=
  if i <? 0 then None else l !! Z.to_nat i.
Definition slice_ {A} (l : list A) (lo hi : Z) : option (list A) :=
  if (0 <=? lo) && (lo <=? hi) && (hi <=? zlen l)
  then Some (take (Z.to_nat (hi - lo)) (drop (Z.to_nat lo) l))
  else None.
Definition slice_from {A} (l : list A) (lo : Z) : option (list A) :=
  slice_ l lo (zlen l).

(** The script object: source bytes, current offset, NULL position. *)
Record Script : Type := {
  source : list Z;
  offset : Z;
  nullpos : Z }.

Definition NewScript (b : list Z) : Script :=
  {| source := b; offset := 0; nullpos := 0 |}.

Definition End (s : Script) : bool := zlen (source s) <=? offset s.

(** [Code] and [Bytes] index the source: [None] is Go's index fault. *)
Definition Code (s : Script) : option Z := zlookup (source s) (offset s).
Definition Bytes (s : Script) : option (list Z) :=
  slice_from (source s) (offset s).
Definition Past (s : Script) : option (list Z) :=
  slice_ (source s) 0 (offset s).
Definition Offset (s : Script) : Z := offset s.
Definition Next (s : Script) (n : Z) : Script :=
  {| source := source s; offset := offset s + n; nullpos := nullpos s |}.
Definition PostNull (s : Script) : Script :=
  {| source := source s; offset := offset s; nullpos := offset s |}.

(** [Instor]: the raw view. A nil [Data] is [None]. *)
Record Instor : Type := {
  rCode : Z;
  rArgs : list (list Z);
  rData : option (list Z);
  rSize : Z }.

(** [Insted]: the parsed view. *)
Record Insted : Type := {
  Code_ : Z;
  Args : list value;
  Data : value;
  Size : Z }.

(** Modelled from Go's [encoding/binary]: [Uvarint buf] returns the decoded
    value and the number of bytes read; [(0, 0)] when the buffer is too
    small, [(0, -(i+1))] on overflow. *)
Fixpoint uvarint_from (buf : list Z) (i x s : Z) : Z * Z :=
  match buf with
  | [] => (0, 0)
  | b :: rest =>
      if i =? 10 then (0, - (i + 1))
      else if b <? 128 then
        if (i =? 9) && (1 <? b) then (0, - (i + 1))
        else (Z.lor x (Z.shiftl b s) mod 2 ^ 64, i + 1)
      else uvarint_from rest (i + 1) (Z.lor x (Z.shiftl (Z.land b 127) s)) (s + 7)
  end.
Definition Uvarint (buf : list Z) : Z * Z := uvarint_from buf 0 0 0.

(** [int(x)] for a [uint64] [x], on a 64-bit platform. *)
Definition int_of_uint64 (x : Z) : Z :=
  if x <? 2 ^ 63 then x else x - 2 ^ 64.

(** Big-endian unsigned integer of a byte sequence. *)
Definition BigEndian (bs : list Z) : Z :=
  fold_left (fun acc b => acc * 256 + b) bs 0.

(** *** Raw pickers

    A picker answers [None] where the Go code would slice or index past
    the bytes it is given. *)
Definition picker : Type := list Z -> option Instor.

Definition mkInstor (c : Z) (a : list (list Z)) (d : option (list Z)) (n : Z)
  : Instor := {| rCode := c; rArgs := a; rData := d; rSize := n |}.

Definition instData1 : picker := fun code =>
  c ← zlookup code 0; d ← slice_ code 1 2;
  Some (mkInstor c [] (Some d) 2).

Definition instData4 : picker := fun code =>
  c ← zlookup code 0; d ← slice_ code 1 5;
  Some (mkInstor c [] (Some d) 5).

Definition instData8 : picker := fun code =>
  c ← zlookup code 0; d ← slice_ code 1 9;
  Some (mkInstor c [] (Some d) 9).

Definition instDataX : picker := fun code =>
  c ← zlookup code 0; rest ← slice_from code 1;
  let len := snd (Uvarint rest) + 1 in
  d ← slice_ code 1 len;
  Some (mkInstor c [] (Some d) len).

Definition instArg1 : picker := fun code =>
  c ← zlookup code 0; a ← slice_ code 1 2;
  Some (mkInstor c [a] None 2).

Definition instArg2 : picker := fun code =>
  c ← zlookup code 0; a ← slice_ code 1 3;
  Some (mkInstor c [a] None 3).

Definition instArg1Bytes : picker := fun code =>
  c ← zlookup code 0; n ← zlookup code 1;
  a ← slice_ code 1 2; d ← slice_ code 2 (2 + n);
  Some (mkInstor c [a] (Some d) (2 + n)).

Definition instArg2Bytes : picker := fun code =>
  c ← zlookup code 0; a ← slice_ code 1 3;
  let n := BigEndian a in
  d ← slice_ code 3 (3 + n);
  Some (mkInstor c [a] (Some d) (3 + n)).

Definition instArgXBytes : picker := fun code =>
  c ← zlookup code 0; rest ← slice_from code 1;
  let '(_n, len0) := Uvarint rest in
  let n := int_of_uint64 _n in
  let len := len0 + 1 in
  a ← slice_ code 1 len; d ← slice_ code len (len + n);
  Some (mkInstor c [a] (Some d) (len + n)).

Definition instArg4_4_2 : picker := fun code =>
  c ← zlookup code 0;
  h ← slice_ code 1 5; n ← slice_ code 5 9; i ← slice_ code 9 11;
  Some (mkInstor c [h; n; i] None 11).

(** A picker of the source that is outside the embedding. *)
Definition picker_not_covered : picker := fun _ => None.

(** The table [__Pickes] as its [init] fills it; an opcode that is absent
    has a nil entry. *)
Definition __Pickes : list (Z * picker) :=
  [ (icode.Uint8n, instData1); (icode.Uint8, instData1);
    (icode.Uint63n, instDataX); (icode.Uint63, instDataX);
    (icode.Byte, instData1); (icode.Rune, instData4);
    (icode.Float32, instData4); (icode.Float64, instData8);
    (icode.DATE, instDataX); (icode.BigInt, instArg1Bytes);
    (icode.DATA8, instArg1Bytes); (icode.DATA16, instArg2Bytes);
    (icode.TEXT8, instArg1Bytes); (icode.TEXT16, instArg2Bytes);
    (icode.RegExp, instArg1Bytes); (icode.CODE, instArg1Bytes);
    (icode.ScopeVal, instArg1); (icode.LoopVal, instArg1);
    (icode.SHIFT, instArg1); (icode.CLONE, instArg1);
    (icode.POPS, instArg1); (icode.TOPS, instArg1);
    (icode.PEEKS, instArg1);
    (icode.MAP, instArg1Bytes); (icode.FILTER, instArg1Bytes);
    (icode.INPUT, instArg1); (icode.BUFDUMP, instArg1);
    (icode.GOTO, instArg4_4_2); (icode.JUMP, instArg4_4_2);
    (icode.IF, instArg1Bytes); (icode.ELSE, instArg1Bytes);
    (icode.SWITCH, instArgXBytes); (icode.CASE, instArg1Bytes);
    (icode.DEFAULT, instArg1Bytes); (icode.EACH, instArg1Bytes);
    (icode.BLOCK, instArgXBytes);
    (icode.STRING, instArg1); (icode.ANYS, instArg1);
    (icode.Expr, instArg1Bytes); (icode.DUP, instArg1);
    (icode.SOME, instArg1);
    (icode.MODEL, picker_not_covered); (icode.ValPick, instArg1);
    (icode.Wildnum, instArg1); (icode.Wildpart, instArg1);
    (icode.Wildlist, instArg1); (icode.TypeIs, instArg1);
    (icode.WithinInt, picker_not_covered);
    (icode.WithinFloat, picker_not_covered);
    (icode.RE, picker_not_covered); (icode.RePick, instArg1);
    (icode.ENV, instArg1); (icode.OUT, picker_not_covered);
    (icode.IN, instArg1); (icode.INOUT, instArg1);
    (icode.XFROM, instArg1); (icode.VAR, instArg1);
    (icode.SETVAR, instArg1); (icode.SOURCE, instArg1);
    (icode.MULSIG, instArg1);
    (icode.KEYVAL, instArg1); (icode.MATCH, instArg1);
    (icode.SUBSTR, instArg2); (icode.REPLACE, instArg1);
    (icode.CMPFLO, instArg1); (icode.RANGE, instArg2);
    (icode.SYS_TIME, instArg1);
    (icode.FN_CHECKSIG, instArg1); (icode.FN_MCHECKSIG, instArg1);
    (icode.FN_HASH224, instArg1); (icode.FN_HASH256, instArg1);
    (icode.FN_HASH384, instArg1); (icode.FN_HASH512, instArg1);
    (icode.FN_X, instArg1);
    (icode.MO_RE, instArg1); (icode.MO_TIME, instArg1);
    (icode.MO_MATH, instArg1); (icode.MO_CRYPT, instArg1);
    (icode.MO_X, picker_not_covered);
    (icode.EX_FN, instArg2); (icode.EX_INST, picker_not_covered);
    (icode.EX_PRIV, picker_not_covered) ].

(** Entry [c] of a table filled by assignments. *)
Fixpoint entry {A} (t : list (Z * A)) (c : Z) : option A :=
  match t with
  | [] => None
  | (k, x) :: t' => if k =? c then Some x else entry t' c
  end.

Definition Raw (code : list Z) : option Instor :=
  c ← zlookup code 0;
  match entry __Pickes c with
  | Some f => f code
  | None => Some (mkInstor c [] None 1)
  end.

(** *** Parsers *)
Definition parser : Type := list Z -> option Insted.

Definition mkInsted (c : Z) (a : list value) (d : value) (n : Z) : Insted :=
  {| Code_ := c; Args := a; Data := d; Size := n |}.

(** [-x] on [int64]. *)
Definition neg64 (x : Z) : Z := if x =? - 2 ^ 63 then x else - x.

Definition data_of (ins : Instor) : list Z := default [] (rData ins).

Definition _Uint8n : parser := fun code =>
  ins ← Raw code; d ← zlookup (data_of ins) 0;
  Some (mkInsted (rCode ins) [] (VInt (- d)) (rSize ins)).

Definition _Uint8 : parser := fun code =>
  ins ← Raw code; d ← zlookup (data_of ins) 0;
  Some (mkInsted (rCode ins) [] (VInt d) (rSize ins)).

Definition _Uint63n : parser := fun code =>
  ins ← Raw code;
  let v := fst (Uvarint (data_of ins)) in
  Some (mkInsted (rCode ins) [] (VInt (neg64 (int_of_uint64 v))) (rSize ins)).

Definition _Uint63 : parser := fun code =>
  ins ← Raw code;
  let v := fst (Uvarint (data_of ins)) in
  Some (mkInsted (rCode ins) [] (VInt (int_of_uint64 v)) (rSize ins)).

Definition _Byte : parser := fun code =>
  ins ← Raw code; d ← zlookup (data_of ins) 0;
  Some (mkInsted (rCode ins) [] (VByte d) (rSize ins)).

Definition _DATA8 : parser := fun code =>
  ins ← Raw code; a ← rArgs ins !! 0%nat; a0 ← zlookup a 0;
  Some (mkInsted (rCode ins) [VGoInt a0] (VBytes (data_of ins)) (rSize ins)).

Definition _GOTO : parser := fun code =>
  c ← zlookup code 0;
  h ← slice_ code 1 5; n ← slice_ code 5 9; i ← slice_ code 9 11;
  Some (mkInsted c [VGoInt (BigEndian h); VGoInt (BigEndian n);
                    VGoInt (BigEndian i)] VNil 11).

Definition _JUMP : parser := _GOTO.

Definition parseArg1 : parser := fun code =>
  ins ← Raw code; a ← rArgs ins !! 0%nat; a0 ← zlookup a 0;
  Some (mkInsted (rCode ins) [VGoInt a0] VNil (rSize ins)).

(** The argument byte read as [int8]. *)
Definition parseArg1x : parser := fun code =>
  ins ← Raw code; a ← rArgs ins !! 0%nat; a0 ← zlookup a 0;
  let n := if a0 <? 128 then a0 else a0 - 256 in
  Some (mkInsted (rCode ins) [VGoInt n] VNil (rSize ins)).

Definition parseArg2 : parser := fun code =>
  ins ← Raw code; a ← rArgs ins !! 0%nat;
  if zlen a <? 2 then None
  else Some (mkInsted (rCode ins) [VGoInt (BigEndian a)] VNil (rSize ins)).

Definition parseArg1Code : parser := fun code =>
  ins ← Raw code; a ← rArgs ins !! 0%nat; a0 ← zlookup a 0;
  Some (mkInsted (rCode ins) [VGoInt a0] (VBytes (data_of ins)) (rSize ins)).

Definition parseArgXCode : parser := fun code =>
  ins ← Raw code; a ← rArgs ins !! 0%nat;
  let n := fst (Uvarint a) in
  Some (mkInsted (rCode ins) [VGoInt (int_of_uint64 n)]
                 (VBytes (data_of ins)) (rSize ins)).

(** A parser of the source that is outside the embedding. *)
Definition parser_not_covered : parser := fun _ => None.

(** The table [__Parses] as its [init] fills it. *)
Definition __Parses : list (Z * parser) :=
  [ (icode.Uint8n, _Uint8n); (icode.Uint8, _Uint8);
    (icode.Uint63n, _Uint63n); (icode.Uint63, _Uint63);
    (icode.Byte, _Byte); (icode.Rune, parser_not_covered);
    (icode.Float32, parser_not_covered);
    (icode.Float64, parser_not_covered);
    (icode.DATE, parser_not_covered); (icode.BigInt, parser_not_covered);
    (icode.DATA8, _DATA8); (icode.DATA16, parser_not_covered);
    (icode.TEXT8, parser_not_covered); (icode.TEXT16, parser_not_covered);
    (icode.RegExp, parser_not_covered); (icode.CODE, parser_not_covered);
    (icode.ScopeVal, parseArg1x); (icode.LoopVal, parseArg1);
    (icode.SHIFT, parseArg1); (icode.CLONE, parseArg1);
    (icode.POPS, parseArg1); (icode.TOPS, parseArg1);
    (icode.PEEKS, parseArg1);
    (icode.MAP, parseArg1Code); (icode.FILTER, parseArg1Code);
    (icode.INPUT, parseArg1); (icode.BUFDUMP, parseArg1);
    (icode.GOTO, _GOTO); (icode.JUMP, _JUMP);
    (icode.IF, parseArg1Code); (icode.ELSE, parseArg1Code);
    (icode.SWITCH, parseArgXCode); (icode.CASE, parseArg1Code);
    (icode.DEFAULT, parseArg1Code); (icode.EACH, parseArg1Code);
    (icode.BLOCK, parseArgXCode);
    (icode.STRING, parseArg1); (icode.ANYS, parseArg1);
    (icode.Expr, parseArg1Code); (icode.DUP, parseArg1);
    (icode.SOME, parseArg1);
    (icode.MODEL, parser_not_covered); (icode.ValPick, parseArg1);
    (icode.Wildnum, parseArg1); (icode.Wildpart, parseArg1);
    (icode.Wildlist, parseArg1Code); (icode.TypeIs, parseArg1);
    (icode.WithinInt, parser_not_covered);
    (icode.WithinFloat, parser_not_covered);
    (icode.RE, parser_not_covered); (icode.RePick, parseArg1);
    (icode.ENV, parseArg1); (icode.OUT, parser_not_covered);
    (icode.IN, parseArg1); (icode.INOUT, parseArg1);
    (icode.XFROM, parseArg1); (icode.VAR, parseArg1);
    (icode.SETVAR, parseArg1); (icode.SOURCE, parseArg1);
    (icode.MULSIG, parseArg1);
    (icode.KEYVAL, parseArg1); (icode.MATCH, parseArg1);
    (icode.SUBSTR, parseArg2); (icode.REPLACE, parseArg1);
    (icode.CMPFLO, parseArg1x); (icode.RANGE, parseArg2);
    (icode.SYS_TIME, parseArg1);
    (icode.FN_CHECKSIG, parseArg1); (icode.FN_MCHECKSIG, parseArg1);
    (icode.FN_HASH224, parseArg1); (icode.FN_HASH256, parseArg1);
    (icode.FN_HASH384, parseArg1); (icode.FN_HASH512, parseArg1);
    (icode.FN_X, parseArg1);
    (icode.MO_RE, parseArg1); (icode.MO_TIME, parseArg1);
    (icode.MO_MATH, parseArg1); (icode.MO_CRYPT, parseArg1);
    (icode.MO_X, parser_not_covered); (icode.EX_FN, parser_not_covered);
    (icode.EX_INST, parser_not_covered);
    (icode.EX_PRIV, parser_not_covered) ].

Definition Get (code : list Z) : option Insted :=
  c ← zlookup code 0;
  match entry __Parses c with
  | Some f => f code
  | None => Some (mkInsted c [] VNil 1)
  end.

(** *** More of [Script]: [PastNull], [Source], [SourceNull], [Reset],
    [New] *)
Definition PastNull (s : Script) : option (list Z) :=
  slice_ (source s) (nullpos s) (offset s).
Definition Source (s : Script) : list Z := source s.
Definition SourceNull (s : Script) : option (list Z) :=
  slice_from (source s) (nullpos s).
Definition Reset (s : Script) : Script :=
  {| source := source s; offset := 0; nullpos := 0 |}.

(** [New]: a copy of the source under the same offset; the NULL position
    of the copy is zero. *)
Definition New (s : Script) : Script :=
  {| source := source s; offset := offset s; nullpos := 0 |}.

End instor.
Export instor.

(** ** Panics and the execution monad *)

(** Genuine faults: the error values and strings that the source passes to
    [panic], and the run-time errors of Go itself. *)
Inductive fault : Type :=
| StackOverflow (n : Z)     (* stack.push: n exceeds StackMax *)
| StackEmpty                (* stack.pop / stack.top on an empty stack *)
| StackShort (n : Z)        (* stack.pops / stack.tops: n exceeds the height *)
| ScopeOverflow (n : Z)     (* scope.add: n exceeds ScopeMax *)
| ArgsAmount                (* argsAmount *)
| GotosOver                 (* gotosOver *)
| JumpsOver                 (* jumpsOver *)
| ErrToHere                 (* ibase.ErrToHere, neverToHere *)
| NotPass                   (* inst.NotPass *)
| AccessError               (* accessError *)
| ExprSyntax                (* expr: unknown syntax error *)
| ExprTooMany               (* expr: too many return values *)
| ExprBadType               (* expr: invalid return value type *)
| ExprBinaryOperand         (* expr: binary operator lacks its operand *)
| ExprUnaryOperand          (* expr: unary operator lacks its operand *)
| ExprEnded                 (* expr: expression already ended *)
| ExprBadOperator           (* expr: unsupported operator in Eval *)
| NilDeref                  (* runtime: nil pointer dereference *)
| IndexRange                (* runtime: index or slice bounds out of range *)
| TypeAssert                (* runtime: failed type assertion *)
| Uncomparable              (* runtime: comparing uncomparable type *)
| Unhashable.               (* runtime: hash of unhashable type *)

(** [cease]: CONTINUE and BREAK. *)
Inductive cease : Type := _CONTINUE_ | _BREAK_.

(** The [Kind] of a [Leave]. *)
Inductive leave_kind : Type := RETURN | EXIT.

Inductive panic : Type :=
| Fault (f : fault)
| Cease (c : cease)
| Leave (Kind : leave_kind) (Data : value).

(** The outcome of running a piece of the program from a state of type
    [S]. A panic keeps the state reached when it was raised: the shared
    objects stay as the panicking code left them, and a recovering envelope
    goes on from there. [Unmodelled c] reports that the run reached opcode
    [c], which this embedding does not cover. *)
Inductive outcome (S A : Type) : Type :=
| Ok (x : A) (s : S)
| Panic (p : panic) (s : S)
| OutOfFuel
| Unmodelled (c : Z).
Arguments Ok {S A} x s.
Arguments Panic {S A} p s.
Arguments OutOfFuel {S A}.
Arguments Unmodelled {S A} c.

Definition M (S A : Type) : Type := S -> outcome S A.

Definition ret {S A} (x : A) : M S A := fun s => Ok x s.
Definition bind {S A B} (m : M S A) (k : A -> M S B) : M S B :=
  fun s => match m s with
           | Ok x s' => k x s'
           | Panic p s' => Panic p s'
           | OutOfFuel => OutOfFuel
           | Unmodelled c => Unmodelled c
           end.
Definition throw {S A} (p : panic) : M S A := fun s => Panic p s.
Definition fail {S A} (f : fault) : M S A := throw (Fault f).
Definition get {S} : M S S := fun s => Ok s s.
Definition put {S} (s : S) : M S unit := fun _ => Ok tt s.
Definition modify {S} (f : S -> S) : M S unit := fun s => Ok tt (f s).
Definition unmodelled {S A} (c : Z) : M S A := fun _ => Unmodelled c.
Definition out_of_fuel {S A} : M S A := fun _ => OutOfFuel.

Declare Scope exec_scope.
Delimit Scope exec_scope with exec.
Notation "x <- m ;; k" := (bind m (fun x => k))
  (at level 100, m at next level, right associativity) : exec_scope.
Notation "m ;;; k" := (bind m (fun _ => k))
  (at level 100, right associativity) : exec_scope.
Open Scope exec_scope.

(** [defer]/[recover]: run [m]; a panic is handed, with the state it left,
    to [h]. *)
Definition recover {S A} (m : M S A) (h : panic -> M S A) : M S A :=
  fun s => match m s with
           | Panic p s' => h p s'
           | r => r
           end.


(** Computations that can only fault (no state): the stack, args and scope
    primitives. *)
Inductive try (A : Type) : Type :=
| Done (x : A)
| Raise (f : fault).
Arguments Done {A} x.
Arguments Raise {A} f.

Definition lift {S A} (t : try A) : M S A :=
  match t with
  | Done x => ret x
  | Raise f => fail f
  end.

(** An index or lookup that faults when it is out of range. *)
Definition index {S A} (o : option A) : M S A :=
  match o with
  | Some x => ret x
  | None => fail IndexRange
  end.

(** ** Executor state ([ibase]) *)

Module ibase.

Definition ScopeMax : Z := 128.
Definition StackMax : Z := 256.
Definition GotoMax : Z := 3.
Definition JumpMax : Z := 9.
Definition ExprEnd : Z := -1.

Definition StackFlag : Z := 0.
Definition ArgsFlag : Z := 1.
Definition ScopeFlag : Z := 2.

(** *** The data stack *)
Definition stack : Type := list value.

Definition push (s : stack) (vs : list value) : try stack :=
  let n := zlen s + zlen vs in
  if StackMax <? n then Raise (StackOverflow n)
  else Done (s ++ vs).

Definition pop (s : stack) : try (value * stack) :=
  let i := zlen s - 1 in
  if i <? 0 then Raise StackEmpty
  else match zlookup s i with
       | Some v => Done (v, take (Z.to_nat i) s)
       | None => Raise IndexRange
       end.

(** [make([]any, n)] faults on a negative [n], a run-time error that is an
    index fault in this embedding. *)
Definition pops (s : stack) (n : Z) : try (list value * stack) :=
  let i := zlen s - n in
  if i <? 0 then Raise (StackShort n)
  else if n <? 0 then Raise IndexRange
  else Done (drop (Z.to_nat i) s, take (Z.to_nat i) s).

Definition top (s : stack) : try value :=
  let i := zlen s - 1 in
  if i <? 0 then Raise StackEmpty
  else match zlookup s i with
       | Some v => Done v
       | None => Raise IndexRange
       end.

Definition tops (s : stack) (n : Z) : try (list value) :=
  let h := zlen s in
  if h <? n then Raise (StackShort n)
  else if n <? 0 then Raise IndexRange
  else Done (drop (Z.to_nat (h - n)) s).

(** *** The args region *)
Definition args : Type := list value.
Definition args_put (a : args) (vs : list value) : args := a ++ vs.
Definition args_take (a : args) : list value * args := (a, []).
Definition args_size (a : args) : Z := zlen a.

(** *** The local scope *)
Definition scope : Type := list value.

Definition ScopeItem (s : scope) (i : Z) : try value :=
  let i := if i <? 0 then i + zlen s else i in
  match zlookup s i with
  | Some v => Done v
  | None => Raise IndexRange
  end.

Definition scope_add (s : scope) (vs : list value) : try scope :=
  let n := zlen s + zlen vs in
  if ScopeMax <? n then Raise (ScopeOverflow n)
  else Done (s ++ vs).

(** *** Shared objects

    [spaces] bundles the data stack, the args region and the two buffers
    (the channel [Ch] has no role in what is embedded). *)
Record spaces : Type := {
  stack_ : stack;
  args_ : args;
  bufin : list value;
  bufout : list value }.

Definition ref : Type := nat.

(** The heap: one arena per kind of shared object. [hgotos] and [hjumps]
    hold the [*int] cells of [countx], [hexpr] the [inExpr] cells,
    [hbools] the [*bool] cells ([through], [Ifs]), [hglobals] the
    [map[int]any] objects, [hpool] the process-wide [xpool.pool]
    ([sync.Map]: keys and values are of type [any]). *)
Record heap : Type := {
  hspaces : list spaces;
  hgotos : list Z;
  hjumps : list Z;
  hexpr : list Z;
  hbools : list bool;
  hglobals : list (gmap Z value);
  hpool : list (value * value) }.

Definition empty_heap : heap :=
  {| hspaces := []; hgotos := []; hjumps := []; hexpr := [];
     hbools := []; hglobals := []; hpool := [] |}.

Definition set_hspaces (f : list spaces -> list spaces) (h : heap) : heap :=
  {| hspaces := f (hspaces h); hgotos := hgotos h; hjumps := hjumps h;
     hexpr := hexpr h; hbools := hbools h; hglobals := hglobals h;
     hpool := hpool h |}.
Definition set_hgotos (f : list Z -> list Z) (h : heap) : heap :=
  {| hspaces := hspaces h; hgotos := f (hgotos h); hjumps := hjumps h;
     hexpr := hexpr h; hbools := hbools h; hglobals := hglobals h;
     hpool := hpool h |}.
Definition set_hjumps (f : list Z -> list Z) (h : heap) : heap :=
  {| hspaces := hspaces h; hgotos := hgotos h; hjumps := f (hjumps h);
     hexpr := hexpr h; hbools := hbools h; hglobals := hglobals h;
     hpool := hpool h |}.
Definition set_hexpr (f : list Z -> list Z) (h : heap) : heap :=
  {| hspaces := hspaces h; hgotos := hgotos h; hjumps := hjumps h;
     hexpr := f (hexpr h); hbools := hbools h; hglobals := hglobals h;
     hpool := hpool h |}.
Definition set_hbools (f : list bool -> list bool) (h : heap) : heap :=
  {| hspaces := hspaces h; hgotos := hgotos h; hjumps := hjumps h;
     hexpr := hexpr h; hbools := f (hbools h); hglobals := hglobals h;
     hpool := hpool h |}.
Definition set_hglobals
  (f : list (gmap Z value) -> list (gmap Z value)) (h : heap) : heap :=
  {| hspaces := hspaces h; hgotos := hgotos h; hjumps := hjumps h;
     hexpr := hexpr h; hbools := hbools h; hglobals := f (hglobals h);
     hpool := hpool h |}.

(** *** The executor *)

(** [state]: where the next return value goes and where the next
    arguments come from. *)
Record state : Type := {
  BackTo : Z;
  FromStack : bool;
  changed : bool }.

(** [countx]: a nil counter pointer is [None]. *)
Record countx : Type := {
  gotos : option ref;
  jumps : option ref }.

(** [switchX]: the object is referenced by one executor only ([caseIn]
    builds a new one), so it is stored in that executor; the [through]
    cell is shared between a switch block and its case blocks. *)
Record switchX : Type := {
  target : value;
  cases : list value;
  through : option ref }.

(** [Actuator]. The fields [Ver], [ID], [Envs], [loopVar] and [xfrom] are
    left out: no embedded instruction reads them. A nil pointer is
    [None]. *)
Record Actuator : Type := {
  Ifs : option ref;
  Script_ : Script;
  state_ : state;
  scope_ : scope;
  spaces_ : ref;
  countx_ : option countx;
  switchX_ : option switchX;
  inExpr : ref;
  global : ref }.

Definition set_Ifs (x : option ref) (a : Actuator) : Actuator :=
  {| Ifs := x; Script_ := Script_ a; state_ := state_ a;
     scope_ := scope_ a; spaces_ := spaces_ a; countx_ := countx_ a;
     switchX_ := switchX_ a; inExpr := inExpr a; global := global a |}.
Definition set_Script (x : Script) (a : Actuator) : Actuator :=
  {| Ifs := Ifs a; Script_ := x; state_ := state_ a;
     scope_ := scope_ a; spaces_ := spaces_ a; countx_ := countx_ a;
     switchX_ := switchX_ a; inExpr := inExpr a; global := global a |}.
Definition set_state (x : state) (a : Actuator) : Actuator :=
  {| Ifs := Ifs a; Script_ := Script_ a; state_ := x;
     scope_ := scope_ a; spaces_ := spaces_ a; countx_ := countx_ a;
     switchX_ := switchX_ a; inExpr := inExpr a; global := global a |}.
Definition set_scope (x : scope) (a : Actuator) : Actuator :=
  {| Ifs := Ifs a; Script_ := Script_ a; state_ := state_ a;
     scope_ := x; spaces_ := spaces_ a; countx_ := countx_ a;
     switchX_ := switchX_ a; inExpr := inExpr a; global := global a |}.
Definition set_switchX (x : option switchX) (a : Actuator) : Actuator :=
  {| Ifs := Ifs a; Script_ := Script_ a; state_ := state_ a;
     scope_ := scope_ a; spaces_ := spaces_ a; countx_ := countx_ a;
     switchX_ := x; inExpr := inExpr a; global := global a |}.

(** The machine: the running executor and the heap. *)
Definition machine : Type := Actuator * heap.
Definition X (A : Type) : Type := M machine A.

Definition actuator : X Actuator := fun s => Ok (fst s) s.
Definition the_heap : X heap := fun s => Ok (snd s) s.
Definition update_actuator (f : Actuator -> Actuator) : X unit :=
  fun s => Ok tt (f (fst s), snd s).
Definition update_heap (f : heap -> heap) : X unit :=
  fun s => Ok tt (fst s, f (snd s)).

(** Reading through a reference. A reference that the heap does not hold
    is no state of the program. *)
Definition deref {A} (sel : heap -> list A) (r : ref) : X A :=
  h <- the_heap ;;
  match sel h !! r with
  | Some x => ret x
  | None => unmodelled (-1)
  end.

(** Reading through a pointer that may be nil. *)
Definition deref_ptr {A} (sel : heap -> list A) (p : option ref) : X A :=
  match p with
  | Some r => deref sel r
  | None => fail NilDeref
  end.

(** Run [m] as the executor [a2]; the caller's executor is back in place
    afterwards, and the heap is the one [m] left. *)
Definition as_actuator {A} (a2 : Actuator) (m : X A) : X A :=
  fun s => match m (a2, snd s) with
           | Ok x s' => Ok x (fst s, snd s')
           | Panic p s' => Panic p (fst s, snd s')
           | OutOfFuel => OutOfFuel
           | Unmodelled c => Unmodelled c
           end.

(** *** Methods of [*spaces], through the executor's pointer *)
Definition the_spaces : X spaces :=
  a <- actuator ;; deref hspaces (spaces_ a).

Definition set_spaces (sp : spaces) : X unit :=
  a <- actuator ;;
  update_heap (set_hspaces (fun l => <[spaces_ a := sp]> l)).

Definition with_stack (s : stack) (sp : spaces) : spaces :=
  {| stack_ := s; args_ := args_ sp; bufin := bufin sp; bufout := bufout sp |}.
Definition with_args (x : args) (sp : spaces) : spaces :=
  {| stack_ := stack_ sp; args_ := x; bufin := bufin sp; bufout := bufout sp |}.

Definition StackPush (vs : list value) : X unit :=
  sp <- the_spaces ;;
  s <- lift (push (stack_ sp) vs) ;;
  set_spaces (with_stack s sp).

Definition StackPop : X value :=
  sp <- the_spaces ;;
  r <- lift (pop (stack_ sp)) ;;
  set_spaces (with_stack (snd r) sp) ;;;
  ret (fst r).

Definition StackPops (n : Z) : X (list value) :=
  sp <- the_spaces ;;
  r <- lift (pops (stack_ sp) n) ;;
  set_spaces (with_stack (snd r) sp) ;;;
  ret (fst r).

Definition StackTop : X value :=
  sp <- the_spaces ;; lift (top (stack_ sp)).

Definition StackTops (n : Z) : X (list value) :=
  sp <- the_spaces ;; lift (tops (stack_ sp) n).

Definition StackSize : X Z :=
  sp <- the_spaces ;; ret (zlen (stack_ sp)).

Definition PutArgs (vs : list value) : X unit :=
  sp <- the_spaces ;;
  set_spaces (with_args (args_put (args_ sp) vs) sp).

Definition TakeArgs : X (list value) :=
  sp <- the_spaces ;;
  let r := args_take (args_ sp) in
  set_spaces (with_args (snd r) sp) ;;;
  ret (fst r).

Definition ArgsSize : X Z :=
  sp <- the_spaces ;; ret (args_size (args_ sp)).

(** [scopeNew]: a new [spaces] object with its own stack and args. *)
Definition scopeNew : X ref :=
  sp <- the_spaces ;;
  h <- the_heap ;;
  let r := length (hspaces h) in
  update_heap (set_hspaces (fun l =>
    l ++ [ {| stack_ := []; args_ := [];
              bufin := bufin sp; bufout := bufout sp |} ])) ;;;
  ret r.

(** *** Allocation: [new(int)], [new(bool)], [make(map[int]any)] *)
Definition new_expr : X ref :=
  h <- the_heap ;;
  update_heap (set_hexpr (fun l => l ++ [0])) ;;;
  ret (length (hexpr h)).

Definition new_bool : X ref :=
  h <- the_heap ;;
  update_heap (set_hbools (fun l => l ++ [false])) ;;;
  ret (length (hbools h)).

Definition new_global : X ref :=
  h <- the_heap ;;
  update_heap (set_hglobals (fun l => l ++ [∅])) ;;;
  ret (length (hglobals h)).

(** *** [state] *)
Definition Revert : X unit :=
  a <- actuator ;;
  if negb (changed (state_ a)) then ret tt
  else update_actuator (set_state
         {| BackTo := StackFlag; FromStack := false; changed := false |}).

Definition Change : X unit :=
  update_actuator (fun a => set_state
    {| BackTo := BackTo (state_ a); FromStack := FromStack (state_ a);
       changed := true |} a).

Definition set_BackTo (to : Z) : X unit :=
  update_actuator (fun a => set_state
    {| BackTo := to; FromStack := FromStack (state_ a);
       changed := changed (state_ a) |} a).

Definition set_FromStack (b : bool) : X unit :=
  update_actuator (fun a => set_state
    {| BackTo := BackTo (state_ a); FromStack := b;
       changed := changed (state_ a) |} a).

(** *** [countx] *)
Definition the_gotos : X ref :=
  a <- actuator ;;
  match countx_ a with
  | Some c => match gotos c with Some r => ret r | None => fail NilDeref end
  | None => fail NilDeref
  end.

Definition the_jumps : X ref :=
  a <- actuator ;;
  match countx_ a with
  | Some c => match jumps c with Some r => ret r | None => fail NilDeref end
  | None => fail NilDeref
  end.

Definition IncrGoto : X unit :=
  r <- the_gotos ;;
  n <- deref hgotos r ;;
  if GotoMax <=? n then fail GotosOver
  else update_heap (set_hgotos (fun l => <[r := n + 1]> l)).

Definition IncrJump : X unit :=
  r <- the_jumps ;;
  n <- deref hjumps r ;;
  if JumpMax <=? n then fail JumpsOver
  else update_heap (set_hjumps (fun l => <[r := n + 1]> l)).

Definition Gotos : X Z := r <- the_gotos ;; deref hgotos r.
Definition Jumps : X Z := r <- the_jumps ;; deref hjumps r.

Definition SetJumps (n : Z) : X unit :=
  r <- the_jumps ;;
  _n <- deref hjumps r ;;
  update_heap (set_hjumps (fun l => <[r := n]> l)).

Definition newCountx : X countx :=
  h <- the_heap ;;
  update_heap (set_hgotos (fun l => l ++ [0])) ;;;
  update_heap (set_hjumps (fun l => l ++ [0])) ;;;
  ret {| gotos := Some (length (hgotos h));
         jumps := Some (length (hjumps h)) |}.

(** [jumpNew] reads [c.jumps]: a nil [c] faults. *)
Definition jumpNew (c : option countx) : X countx :=
  match c with
  | Some c => ret {| gotos := None; jumps := jumps c |}
  | None => fail NilDeref
  end.

(** *** [switchX] *)
Definition newSwitch (target : value) (cases : list value) : X switchX :=
  r <- new_bool ;;
  ret {| target := target; cases := cases; through := Some r |}.

Definition caseIn (sc : option switchX) : X switchX :=
  match sc with
  | Some sc => ret {| target := VNil; cases := []; through := through sc |}
  | None => fail NilDeref
  end.

Definition the_switch : X switchX :=
  a <- actuator ;;
  match switchX_ a with
  | Some sc => ret sc
  | None => fail NilDeref
  end.

(** Go's [==] on two values of type [any]: values of different dynamic
    types are unequal; comparing two slices is a run-time fault; floats
    compare as IEEE-754 numbers. *)
Definition any_eq (v w : value) : try bool :=
  match v, w with
  | VNil, VNil => Done true
  | VBool a, VBool b => Done (Bool.eqb a b)
  | VByte a, VByte b => Done (a =? b)
  | VRune a, VRune b => Done (a =? b)
  | VInt a, VInt b => Done (a =? b)
  | VGoInt a, VGoInt b => Done (a =? b)
  | VFloat a, VFloat b => Done (PrimFloat.eqb a b)
  | VString a, VString b => Done (bool_decide (a = b))
  | VBytes _, VBytes _ => Raise Uncomparable
  | VAnys _, VAnys _ => Raise Uncomparable
  | _, _ => Done false
  end.

(** [CasePass]: the first remaining case value is removed, then compared
    with the target. *)
Definition CasePass : X bool :=
  sc <- the_switch ;;
  v <- index (cases sc !! 0%nat) ;;
  update_actuator (set_switchX (Some
    {| target := target sc; cases := drop 1 (cases sc);
       through := through sc |})) ;;;
  lift (any_eq v (target sc)).

Definition CaseThrough (v : bool) : X unit :=
  sc <- the_switch ;;
  match through sc with
  | Some r =>
      _b <- deref hbools r ;;
      update_heap (set_hbools (fun l => <[r := v]> l))
  | None => fail NilDeref
  end.

Definition Fallthrough : X bool :=
  sc <- the_switch ;; deref_ptr hbools (through sc).

Definition SwitchReset : X unit :=
  _sc <- the_switch ;;
  update_actuator (set_switchX (Some
    {| target := VNil; cases := []; through := None |})).

(** *** Globals *)
Definition GlobalSet (i : Z) (v : value) : X unit :=
  a <- actuator ;;
  g <- deref hglobals (global a) ;;
  update_heap (set_hglobals (fun l => <[global a := <[i := v]> g]> l)).

Definition GlobalValue (i : Z) : X value :=
  a <- actuator ;;
  g <- deref hglobals (global a) ;;
  ret (default VNil (g !! i)).

(** *** Expression depth *)
Definition InExpr : X bool :=
  a <- actuator ;; n <- deref hexpr (inExpr a) ;; ret (0 <? n).

Definition ExprIn : X unit :=
  a <- actuator ;; n <- deref hexpr (inExpr a) ;;
  update_heap (set_hexpr (fun l => <[inExpr a := n + 1]> l)).

Definition ExprOut : X unit :=
  a <- actuator ;; n <- deref hexpr (inExpr a) ;;
  update_heap (set_hexpr (fun l => <[inExpr a := n - 1]> l)).

(** *** Creating executors *)
Definition state0 : state :=
  {| BackTo := StackFlag; FromStack := false; changed := false |}.

(** [NewActuator]: the top-level executor over [code], its objects
    allocated in [h]. [Ifs] is among the members left at their zero value:
    a nil pointer. *)
Definition NewActuator (code : list Z) (h : heap) : machine :=
  ( {| Ifs := None;
       Script_ := NewScript code;
       state_ := state0;
       scope_ := [];
       spaces_ := length (hspaces h);
       countx_ := Some {| gotos := Some (length (hgotos h));
                          jumps := Some (length (hjumps h)) |};
       switchX_ := None;
       inExpr := length (hexpr h);
       global := length (hglobals h) |},
    {| hspaces := hspaces h ++
         [ {| stack_ := []; args_ := []; bufin := []; bufout := [] |} ];
       hgotos := hgotos h ++ [0];
       hjumps := hjumps h ++ [0];
       hexpr := hexpr h ++ [0];
       hbools := hbools h;
       hglobals := hglobals h ++ [∅];
       hpool := hpool h |} ).

Definition child (code : list Z) (sp : ref) (cx : option countx)
  (sw : option switchX) (ie gl : ref) : Actuator :=
  {| Ifs := None; Script_ := NewScript code; state_ := state0;
     scope_ := []; spaces_ := sp; countx_ := cx; switchX_ := sw;
     inExpr := ie; global := gl |}.

Definition BlockNew (code : list Z) : X Actuator :=
  a <- actuator ;;
  ie <- new_expr ;;
  ret (child code (spaces_ a) (countx_ a) None ie (global a)).

Definition SwitchNew (code : list Z) (target : value) (cases : list value)
  : X Actuator :=
  a <- actuator ;;
  sw <- newSwitch target cases ;;
  ie <- new_expr ;;
  ret (child code (spaces_ a) (countx_ a) (Some sw) ie (global a)).

Definition CaseNew (code : list Z) : X Actuator :=
  a <- actuator ;;
  sw <- caseIn (switchX_ a) ;;
  ie <- new_expr ;;
  ret (child code (spaces_ a) (countx_ a) (Some sw) ie (global a)).

Definition ScopeNew (code : list Z) : X Actuator :=
  a <- actuator ;;
  sp <- scopeNew ;;
  ie <- new_expr ;;
  ret (child code sp None None ie (global a)).

Definition LoopNew (code : list Z) : X Actuator :=
  a <- actuator ;;
  cx <- jumpNew (countx_ a) ;;
  ie <- new_expr ;;
  ret (child code (spaces_ a) (Some cx) None ie (global a)).

(** [fromScript] takes [src.New().Past()], a slice of the source up to
    the offset, which faults when the offset is out of range. *)
Definition fromScript : X unit :=
  a <- actuator ;;
  _past <- index (Past (Script_ a)) ;;
  ret tt.

Definition ScriptNew (code : list Z) : X Actuator :=
  a <- actuator ;;
  sp <- scopeNew ;;
  ie <- new_expr ;;
  gl <- new_global ;;
  fromScript ;;;
  ret (child code sp (countx_ a) None ie gl).

Definition EmbedNew (code : list Z) : X Actuator :=
  a <- actuator ;;
  ie <- new_expr ;;
  fromScript ;;;
  ret (child code (spaces_ a) (countx_ a) None ie (global a)).

Definition EvalNew (code : list Z) : X Actuator :=
  a <- actuator ;;
  sp <- scopeNew ;;
  ie <- new_expr ;;
  gl <- new_global ;;
  fromScript ;;;
  ret (child code sp None None ie gl).

Definition ExprNew (code : list Z) : X Actuator :=
  a <- actuator ;;
  ret (child code (spaces_ a) None None (inExpr a) (global a)).

(** *** Arguments in, return values out *)
Definition Arguments (n : Z) : X (list value) :=
  if n =? 0 then ret []
  else if n <? 0 then TakeArgs
  else
    a <- actuator ;;
    size <- ArgsSize ;;
    if FromStack (state_ a) || (size =? 0) then StackPops n
    else if negb (size =? n) then fail ArgsAmount
    else TakeArgs.

Definition scope_put (vs : list value) : X unit :=
  a <- actuator ;;
  s <- lift (scope_add (scope_ a) vs) ;;
  update_actuator (set_scope s).

(** [ReturnPut]: a nil [vs] puts nothing, and neither does an empty one. *)
Definition ReturnPut (to : Z) (vs : list value) : X unit :=
  match vs with
  | [] => ret tt
  | _ =>
      if to =? StackFlag then StackPush vs
      else if to =? ArgsFlag then PutArgs vs
      else if to =? ScopeFlag then scope_put vs
      else fail ErrToHere
  end.

(** *** More of the data stack: [item] *)

(** [item]: counted from the bottom; a negative index counts from the
    top. *)
Definition item (s : stack) (i : Z) : try value :=
  let i := if i <? 0 then i + zlen s else i in
  match zlookup s i with
  | Some v => Done v
  | None => Raise IndexRange
  end.

Definition StackItem (i : Z) : X value :=
  sp <- the_spaces ;; lift (item (stack_ sp) i).

(** [StackData]: a copy of the stack. *)
Definition StackData : X (list value) :=
  sp <- the_spaces ;; ret (stack_ sp).

(** *** Buffers: [pick], [take], [push]

    A queue. [pick] panics with a message of its own when the buffer
    holds fewer than [n] values: [BufferShort]. *)
Definition buffer : Type := list value.

Inductive picked : Type :=
| Picked (vs : list value) (rest : buffer)
| BufferShort (size n : Z)
| PickFault (f : fault).

Definition buffer_take (b : buffer) : list value * buffer := (b, []).

Definition buffer_push (b : buffer) (vs : list value) : buffer := b ++ vs.

Definition pick (b : buffer) (n : Z) : picked :=
  if n =? 0 then
    let r := buffer_take b in Picked (fst r) (snd r)
  else if zlen b <? n then BufferShort (zlen b) n
  else
    match slice_ b 0 n, slice_from b n with
    | Some v, Some rest => Picked v rest
    | _, _ => PickFault IndexRange
    end.

Definition with_bufin (b : buffer) (sp : spaces) : spaces :=
  {| stack_ := stack_ sp; args_ := args_ sp; bufin := b;
     bufout := bufout sp |}.
Definition with_bufout (b : buffer) (sp : spaces) : spaces :=
  {| stack_ := stack_ sp; args_ := args_ sp; bufin := bufin sp;
     bufout := b |}.

Definition Input (vs : list value) : X unit :=
  sp <- the_spaces ;;
  set_spaces (with_bufin (buffer_push (bufin sp) vs) sp).

Definition InputNil : X bool :=
  sp <- the_spaces ;; ret (zlen (bufin sp) =? 0).

Definition OutputNil : X bool :=
  sp <- the_spaces ;; ret (zlen (bufout sp) =? 0).

Definition BufoutTake : X (list value) :=
  sp <- the_spaces ;;
  let r := buffer_take (bufout sp) in
  set_spaces (with_bufout (snd r) sp) ;;;
  ret (fst r).

Definition BufoutPush (vs : list value) : X unit :=
  sp <- the_spaces ;;
  set_spaces (with_bufout (buffer_push (bufout sp) vs) sp).

End ibase.
Export ibase.

(** ** The expression evaluator ([expr]) *)

Module expr.

Definition _Mul : Z := icode.Mul.
Definition _Div : Z := icode.Div.
Definition _Add : Z := icode.Add.
Definition _Sub : Z := icode.Sub.
Definition exprEnd : Z := ibase.ExprEnd.

(** The expression tree: [value], [unary], [binary]. *)
Inductive _Expr : Type :=
| value_ (v : float)
| unary (op : Z) (x : _Expr)
| binary (op : Z) (x y : _Expr).

(** [Eval], in [float64] arithmetic. The operator is inspected before the
    operands are evaluated. *)
Fixpoint Eval (e : _Expr) : try float :=
  match e with
  | value_ v => Done v
  | unary op x =>
      if op =? _Add then Eval x
      else if op =? _Sub then
        match Eval x with Done a => Done (PrimFloat.opp a) | r => r end
      else Raise ExprBadOperator
  | binary op x y =>
      let apply f :=
        match Eval x with
        | Done a => match Eval y with Done b => Done (f a b) | r => r end
        | r => r
        end in
      if op =? _Mul then apply PrimFloat.mul
      else if op =? _Div then apply PrimFloat.div
      else if op =? _Add then apply PrimFloat.add
      else if op =? _Sub then apply PrimFloat.sub
      else Raise ExprBadOperator
  end.

(** [float64(x)] for an integer [x] of magnitude at most [2^63]. *)
Definition float_of_Z (z : Z) : float :=
  let mag (m : Z) : float :=
    if m <? 2 ^ 63 then PrimFloat.of_uint63 (Uint63.of_Z m)
    else PrimFloat.mul (PrimFloat.of_uint63 (Uint63.of_Z (2 ^ 62)))
                       (PrimFloat.of_uint63 (Uint63.of_Z 2)) in
  if z <? 0 then PrimFloat.opp (mag (- z)) else mag z.

(** The evaluator's registers: the current opcode and value. *)
Record Calculor : Type := {
  n : Z;
  v : float }.

Section Calculor.

(** [call]: the step function handed to [Calculator], acting on a state
    of type [S]. *)
Context {S : Type} (call : M S (Z * list value)).

Definition C (A : Type) : Type := M (Calculor * S) A.

Definition do_call : C (Z * list value) :=
  fun cs => match call (snd cs) with
            | Ok x s' => Ok x (fst cs, s')
            | Panic p s' => Panic p (fst cs, s')
            | OutOfFuel => OutOfFuel
            | Unmodelled c => Unmodelled c
            end.

Definition set_calc (n0 : Z) (v0 : float) : C unit :=
  fun cs => Ok tt ({| n := n0; v := v0 |}, snd cs).

Definition code : C Z := fun cs => Ok (n (fst cs)) cs.
Definition value : C float := fun cs => Ok (v (fst cs)) cs.

(** [next]: one step. The end of the expression is an opcode below zero
    with a nil return. *)
Definition next : C bool :=
  r <- do_call ;;
  let '(n0, vs) := r in
  match vs with
  | [] =>
      if n0 <? 0 then
        cur <- value ;; set_calc exprEnd cur ;;; ret false
      else set_calc n0 0%float ;;; ret true
  | [x] =>
      set_calc n0 0%float ;;;
      match x with
      | VFloat f => set_calc n0 f ;;; ret true
      | VByte b => set_calc n0 (float_of_Z b) ;;; ret true
      | VRune r => set_calc n0 (float_of_Z r) ;;; ret true
      | VInt i => set_calc n0 (float_of_Z i) ;;; ret true
      | _ => fail ExprBadType
      end
  | _ => set_calc n0 0%float ;;; fail ExprTooMany
  end.

Definition precedence (op : Z) : Z :=
  if (op =? _Mul) || (op =? _Div) then 2
  else if (op =? _Add) || (op =? _Sub) then 1
  else 0.

Definition parsePrimary : C _Expr :=
  c <- code ;;
  if negb (c =? exprEnd) then
    x <- value ;; _ok <- next ;; ret (value_ x)
  else fail ExprEnded.

Fixpoint parseUnary (fuel : nat) : C _Expr :=
  match fuel with
  | O => out_of_fuel
  | Datatypes.S fuel =>
      c <- code ;;
      if (c =? _Add) || (c =? _Sub) then
        ok <- next ;;
        if negb ok then fail ExprUnaryOperand
        else x <- parseUnary fuel ;; ret (unary c x)
      else parsePrimary
  end.

(** The inner loop of [parseBinary]: operators of precedence [prec]. *)
Fixpoint sameLevel (parse : Z -> C _Expr) (fuel : nat) (prec : Z)
  (lhs : _Expr) : C _Expr :=
  match fuel with
  | O => out_of_fuel
  | Datatypes.S fuel =>
      c <- code ;;
      if precedence c =? prec then
        ok <- next ;;
        if negb ok then fail ExprBinaryOperand
        else
          rhs <- parse (prec + 1) ;;
          sameLevel parse fuel prec (binary c lhs rhs)
      else ret lhs
  end.

(** The outer loop of [parseBinary]: [prec] runs down to [prec1], [k]
    counts the levels left. *)
Fixpoint levels (parse : Z -> C _Expr) (fuel : nat) (k : nat) (prec : Z)
  (lhs : _Expr) : C _Expr :=
  match k with
  | O => ret lhs
  | Datatypes.S k =>
      lhs' <- sameLevel parse fuel prec lhs ;;
      levels parse fuel k (prec - 1) lhs'
  end.

Fixpoint parseBinary (fuel : nat) (prec1 : Z) : C _Expr :=
  match fuel with
  | O => out_of_fuel
  | Datatypes.S fuel =>
      lhs <- parseUnary fuel ;;
      c <- code ;;
      let prec := precedence c in
      levels (parseBinary fuel) fuel (Z.to_nat (prec - prec1 + 1)) prec lhs
  end.

Definition parseExpr (fuel : nat) : C _Expr := parseBinary fuel 1.

(** [Calculator(call).Calc()]. *)
Definition Calc (fuel : nat) : M S float :=
  fun s =>
    match (_ok <- next ;;
           e <- parseExpr fuel ;;
           c <- code ;;
           if negb (c =? exprEnd) then fail ExprSyntax
           else lift (Eval e)) ({| n := 0; v := 0%float |}, s) with
    | Ok x cs => Ok x (snd cs)
    | Panic p cs => Panic p (snd cs)
    | OutOfFuel => OutOfFuel
    | Unmodelled c => Unmodelled c
    end.

End Calculor.

End expr.

(** ** Script identifiers ([cbase]) and the script pool ([xpool]) *)

Module cbase.

(** The [w] bytes of [x mod 2^(8w)], most significant first. *)
Fixpoint be_bytes (w : nat) (x : Z) : list Z :=
  match w with
  | O => []
  | Datatypes.S w' => (x / 2 ^ (8 * Z.of_nat w')) mod 256 :: be_bytes w' x
  end.

(** [KeyID]: [uint32(h)], [uint32(n)], [uint16(i)] written big-endian into
    a buffer; the result is a byte slice. *)
Definition KeyID (h n i : Z) : list Z :=
  be_bytes 4 h ++ be_bytes 4 n ++ be_bytes 2 i.

(** [int64] arithmetic wraps around. *)
Definition int64 (z : Z) : Z := (z + 2 ^ 63) mod 2 ^ 64 - 2 ^ 63.

Definition SY6BLOCKS : Z := 87661.
Definition MINTENDLINE : Z := 300000000.

(** A row that [AwardTotal] prints: year, running total, total of the
    year, coins per block. The two header lines are left out. *)
Definition row : Type := (Z * Z * Z * Z)%type.

(** The loop of [AwardTotal], with the rows printed so far. *)
Fixpoint AwardTotal_loop (fuel : nat) (base rate sum y : Z) (out : list row)
  : option (Z * list row) :=
  match fuel with
  | O => None
  | Datatypes.S fuel =>
      if base <? MINTENDLINE then Some (sum, out)
      else
        let ysum := int64 (base * SY6BLOCKS) in
        let sum := int64 (sum + ysum) in
        let y := int64 (y + 1) in
        AwardTotal_loop fuel (Z.quot (int64 (base * rate)) 1000) rate sum y
                        (out ++ [(y, sum, ysum, base)])
  end.

(** [AwardTotal]: the total, or the panic on a rate of 1000 or more. *)
Inductive award : Type :=
| Total (sum : Z) (out : list row)
| BadRate
| Unfinished.

Definition AwardTotal (fuel : nat) (base rate : Z) : award :=
  if 1000 <=? rate then BadRate
  else
    match AwardTotal_loop fuel (int64 (base * 100000000)) rate 0 0 [] with
    | Some r => Total (fst r) (snd r)
    | None => Unfinished
    end.

End cbase.

Module xpool.

(** Modelled from Go's [sync.Map] and map semantics: keys are values of
    type [any]; hashing a key whose dynamic type is a slice is a run-time
    fault, on [Load] as well as on [Store], and also when the map is
    empty. *)
Definition hashable (k : value) : bool :=
  match k with
  | VBytes _ | VAnys _ => false
  | _ => true
  end.

Definition same_key (k k' : value) : bool :=
  match any_eq k k' with
  | Done b => b
  | Raise _ => false
  end.

Fixpoint find (m : list (value * value)) (k : value) : option value :=
  match m with
  | [] => None
  | (k', x) :: m' => if same_key k' k then Some x else find m' k
  end.

Definition Load (k : value) : X (option value) :=
  if hashable k then h <- the_heap ;; ret (find (hpool h) k)
  else fail Unhashable.

Definition Store (k x : value) : X unit :=
  if hashable k then
    update_heap (fun h =>
      {| hspaces := hspaces h; hgotos := hgotos h; hjumps := hjumps h;
         hexpr := hexpr h; hbools := hbools h; hglobals := hglobals h;
         hpool := (k, x) :: hpool h |})
  else fail Unhashable.

(** [Get]. The external fetch is not written in the source: on a miss the
    code stored and returned is the nil slice. *)
Definition Get (h n i : Z) : X (list Z) :=
  let k := VBytes (cbase.KeyID h n i) in
  r <- Load k ;;
  match r with
  | Some (VBytes code) => ret code
  | Some _ => fail TypeAssert
  | None =>
      let code : list Z := [] in
      Store k (VBytes code) ;;;
      ret code
  end.

End xpool.

(** ** Instruction handlers and run envelopes ([inst]) *)

Module inst.

(** [bytes.Compare]: lexicographic, with results -1, 0, +1. Go compares
    strings the same way. *)
Fixpoint Compare (a b : list Z) : Z :=
  match a, b with
  | [], [] => 0
  | [], _ :: _ => -1
  | _ :: _, [] => 1
  | x :: a', y :: b' =>
      if x <? y then -1 else if y <? x then 1 else Compare a' b'
  end.

(** [within], at each of the types it is instantiated with. *)
Definition within_Z (x a b : Z) : bool := (a <=? x) && (x <? b).
Definition within_float (x a b : float) : bool :=
  PrimFloat.leb a x && PrimFloat.ltb x b.
Definition within_string (x a b : list Z) : bool :=
  (Compare a x <=? 0) && (Compare x b <? 0).

(** Type assertions [v.(T)] and the indexing of argument lists. *)
Definition asBool (x : value) : X bool :=
  match x with VBool b => ret b | _ => fail TypeAssert end.
Definition asInt (x : value) : X Z :=
  match x with VInt z => ret z | _ => fail TypeAssert end.
Definition asGoInt (x : value) : X Z :=
  match x with VGoInt z => ret z | _ => fail TypeAssert end.
Definition asByte (x : value) : X Z :=
  match x with VByte z => ret z | _ => fail TypeAssert end.
Definition asRune (x : value) : X Z :=
  match x with VRune z => ret z | _ => fail TypeAssert end.
Definition asFloat (x : value) : X float :=
  match x with VFloat f => ret f | _ => fail TypeAssert end.
Definition asString (x : value) : X (list Z) :=
  match x with VString s => ret s | _ => fail TypeAssert end.
Definition asBytes (x : value) : X (list Z) :=
  match x with VBytes b => ret b | _ => fail TypeAssert end.
Definition asAnys (x : value) : X (list value) :=
  match x with VAnys l => ret l | _ => fail TypeAssert end.
Definition at_ (vs : list value) (i : nat) : X value := index (vs !! i).

(** [Wrapper]: auxiliary arguments, associated data, actual arguments. *)
Definition Wrapper : Type := list value -> value -> list value -> X (list value).

(** *** Envelopes

    Each takes the run it protects; the run acts on the executor in
    place. *)
Definition execScope (run : X unit) : X value :=
  recover (run ;;; ret VNil) (fun p =>
    match p with
    | Leave RETURN d => ret d
    | Leave EXIT _ => fail ErrToHere
    | _ => throw p
    end).

Definition execPart (run : X unit) : X cease :=
  recover (run ;;; ret _CONTINUE_) (fun p =>
    match p with
    | Cease c => ret c
    | Leave EXIT _ => throw p
    | Leave RETURN _ => fail ErrToHere
    | _ => throw p
    end).

Definition runEmbed (run : X unit) : X unit :=
  recover run (fun p =>
    match p with
    | Leave EXIT _ => throw p
    | Leave RETURN _ => fail ErrToHere
    | _ => throw p
    end).

Section Handlers.

(** The two entry points of the dispatcher that handlers call back into:
    [codeRun] and [instCall], both on the executor in place; [fuel] bounds
    the loops of the expression parser. *)
Variable fuel : nat.
Variable codeRun : X unit.
Variable instCall : X (list value).

(** Value instructions. *)
Definition _NIL : Wrapper := fun _ _ _ => Revert ;;; ret [VNil].
Definition _TRUE : Wrapper := fun _ _ _ => Revert ;;; ret [VBool true].
Definition _FALSE : Wrapper := fun _ _ _ => Revert ;;; ret [VBool false].
Definition _Int : Wrapper := fun _ data _ =>
  Revert ;;; x <- asInt data ;; ret [VInt x].
Definition _Byte : Wrapper := fun _ data _ =>
  Revert ;;; x <- asByte data ;; ret [VByte x].
Definition _DATA : Wrapper := fun _ data _ =>
  Revert ;;; x <- asBytes data ;; ret [VBytes x].

(** Capture instructions. *)
Definition _Capture : Wrapper := fun _ _ _ =>
  set_BackTo ArgsFlag ;;; set_FromStack false ;;; Change ;;; ret [].
Definition _Bring : Wrapper := fun _ _ _ =>
  set_FromStack true ;;; Change ;;; ret [].
Definition _ScopeAdd : Wrapper := fun _ _ _ =>
  set_BackTo ScopeFlag ;;; set_FromStack false ;;; Change ;;; ret [].
Definition _ScopeVal : Wrapper := fun aux _ _ =>
  Revert ;;;
  a0 <- at_ aux 0 ;; i <- asGoInt a0 ;;
  a <- actuator ;;
  x <- lift (ScopeItem (scope_ a) i) ;;
  inx <- InExpr ;;
  if inx then ret [x] else PutArgs [x] ;;; ret [].

(** Stack instructions. *)
Definition _NOP : Wrapper := fun _ _ _ => Revert ;;; ret [].
Definition _PUSH : Wrapper := fun _ _ vs =>
  Revert ;;;
  if 0 <? zlen vs then StackPush vs ;;; ret [] else ret [].
Definition _SHIFT : Wrapper := fun aux _ _ =>
  Revert ;;; a0 <- at_ aux 0 ;; n <- asGoInt a0 ;; StackPops n.
Definition _CLONE : Wrapper := fun aux _ _ =>
  Revert ;;; a0 <- at_ aux 0 ;; n <- asGoInt a0 ;; StackTops n.
Definition _POP : Wrapper := fun _ _ _ =>
  Revert ;;; x <- StackPop ;; ret [x].
Definition _POPS : Wrapper := fun aux _ _ =>
  Revert ;;;
  a0 <- at_ aux 0 ;; n <- asGoInt a0 ;;
  size <- StackSize ;;
  l <- StackPops (if n =? 0 then size else n) ;;
  ret [VAnys l].
Definition _TOP : Wrapper := fun _ _ _ =>
  Revert ;;; x <- StackTop ;; ret [x].
Definition _TOPS : Wrapper := fun aux _ _ =>
  Revert ;;;
  a0 <- at_ aux 0 ;; n <- asGoInt a0 ;;
  if n =? 0 then ret []
  else l <- StackTops n ;; ret [VAnys l].

(** Result instructions. *)
Definition _PASS : Wrapper := fun _ _ vs =>
  Revert ;;;
  x <- at_ vs 0 ;; b <- asBool x ;;
  if negb b then fail NotPass else ret [].
Definition _FAIL : Wrapper := fun _ _ vs =>
  Revert ;;;
  x <- at_ vs 0 ;; b <- asBool x ;;
  if b then fail NotPass else ret [].

(** [GotoIn] and [JumpIn] set a flag in [Envs], which is not embedded. *)
Definition _GOTO : Wrapper := fun aux _ vs =>
  Revert ;;;
  IncrGoto ;;;
  a0 <- at_ aux 0 ;; h <- asGoInt a0 ;;
  a1 <- at_ aux 1 ;; n <- asGoInt a1 ;;
  a2 <- at_ aux 2 ;; i <- asGoInt a2 ;;
  code <- xpool.Get h n i ;;
  a2 <- ScriptNew code ;;
  as_actuator a2
    ((if 0 <? zlen vs then StackPush vs else ret tt) ;;;
     runEmbed codeRun) ;;;
  ret [].

Definition _JUMP : Wrapper := fun aux _ _ =>
  Revert ;;;
  IncrJump ;;;
  a0 <- at_ aux 0 ;; h <- asGoInt a0 ;;
  a1 <- at_ aux 1 ;; n <- asGoInt a1 ;;
  a2 <- at_ aux 2 ;; i <- asGoInt a2 ;;
  code <- xpool.Get h n i ;;
  a2 <- EmbedNew code ;;
  as_actuator a2 (runEmbed codeRun) ;;;
  ret [].

Definition _EXIT : Wrapper := fun _ _ vs =>
  Revert ;;;
  match vs with
  | [] => ret []
  | [x] => throw (Leave EXIT x)
  | _ => throw (Leave EXIT (VAnys vs))
  end.

Definition _RETURN : Wrapper := fun _ _ vs =>
  Revert ;;;
  x <- at_ vs 0 ;;
  throw (Leave RETURN x).

(** Flow instructions. *)

(** [*a.Ifs = b]: a write through the executor's [Ifs] pointer. *)
Definition Ifs_store (b : bool) : X unit :=
  a <- actuator ;;
  match Ifs a with
  | Some r =>
      _old <- deref hbools r ;;
      update_heap (set_hbools (fun l => <[r := b]> l))
  | None => fail NilDeref
  end.

(** [*a.Ifs]. *)
Definition Ifs_load : X bool :=
  a <- actuator ;; deref_ptr hbools (Ifs a).

Definition _IF : Wrapper := fun _ code vs =>
  Revert ;;;
  x <- at_ vs 0 ;; b <- asBool x ;;
  Ifs_store b ;;;
  t <- Ifs_load ;;
  if t then
    body <- asBytes code ;;
    a2 <- BlockNew body ;;
    as_actuator a2 codeRun ;;;
    ret []
  else ret [].

Definition _ELSE : Wrapper := fun _ code _ =>
  Revert ;;;
  t <- Ifs_load ;;
  (if negb t then
     body <- asBytes code ;;
     a2 <- BlockNew body ;;
     as_actuator a2 codeRun
   else ret tt) ;;;
  update_actuator (set_Ifs None) ;;;
  ret [].

Definition _SWITCH : Wrapper := fun _ code vs =>
  Revert ;;;
  body <- asBytes code ;;
  tg <- at_ vs 0 ;;
  x1 <- at_ vs 1 ;; cs <- asAnys x1 ;;
  a2 <- SwitchNew body tg cs ;;
  _x <- as_actuator a2 (execPart codeRun) ;;
  ret [].

Definition _CASE : Wrapper := fun _ code _ =>
  Revert ;;;
  pass <- CasePass ;;
  enter <- (if pass then ret true else Fallthrough) ;;
  (if (enter : bool) then
     CaseThrough false ;;;
     body <- asBytes code ;;
     a2 <- CaseNew body ;;
     as_actuator a2 codeRun
   else ret tt) ;;;
  t <- Fallthrough ;;
  if t then ret [] else throw (Cease _BREAK_).

Definition _DEFAULT : Wrapper := fun _ code _ =>
  Revert ;;;
  body <- asBytes code ;;
  a2 <- CaseNew body ;;
  as_actuator a2 codeRun ;;;
  SwitchReset ;;;
  throw (Cease _BREAK_).

Definition cease_if (c : cease) (vs : list value) : X (list value) :=
  match vs with
  | [] => throw (Cease c)
  | [x] => b <- asBool x ;; if negb b then ret [] else throw (Cease c)
  | _ => fail ErrToHere
  end.

Definition _CONTINUE : Wrapper := fun _ _ vs =>
  Revert ;;; cease_if _CONTINUE_ vs.
Definition _BREAK : Wrapper := fun _ _ vs =>
  Revert ;;; cease_if _BREAK_ vs.

Definition _FALLTHROUGH : Wrapper := fun _ _ _ =>
  Revert ;;; CaseThrough true ;;; ret [].

Definition _BLOCK : Wrapper := fun _ code _ =>
  Revert ;;;
  body <- asBytes code ;;
  a2 <- BlockNew body ;;
  as_actuator a2 codeRun ;;;
  ret [].

(** Expressions. *)

(** [exprNext]: the opcode at the cursor and what calling it returns, or
    [(ExprEnd, nil)] at the end of the script. *)
Definition exprNext : X (Z * list value) :=
  a <- actuator ;;
  if End (Script_ a) then ret (ExprEnd, [])
  else
    c <- index (Code (Script_ a)) ;;
    vs <- instCall ;;
    ret (c, vs).

Definition _Expr : Wrapper := fun _ data _ =>
  Revert ;;;
  body <- asBytes data ;;
  a2 <- ExprNew body ;;
  r <- as_actuator a2
         (ExprIn ;;;
          r <- expr.Calc exprNext fuel ;;
          ExprOut ;;;
          ret r) ;;
  ret [VFloat r].

Definition accessPanic : Wrapper := fun _ _ _ => fail AccessError.

(** Comparison: [WITHIN]. *)
Definition _WITHIN : Wrapper := fun _ _ vs =>
  Revert ;;;
  x <- at_ vs 0 ;;
  match x with
  | VInt x =>
      v1 <- at_ vs 1 ;; a <- asInt v1 ;;
      v2 <- at_ vs 2 ;; b <- asInt v2 ;;
      ret [VBool (within_Z x a b)]
  | VFloat x =>
      v1 <- at_ vs 1 ;; a <- asFloat v1 ;;
      v2 <- at_ vs 2 ;; b <- asFloat v2 ;;
      ret [VBool (within_float x a b)]
  | VByte x =>
      v1 <- at_ vs 1 ;; a <- asByte v1 ;;
      v2 <- at_ vs 2 ;; b <- asByte v2 ;;
      ret [VBool (within_Z x a b)]
  | VRune x =>
      v1 <- at_ vs 1 ;; a <- asRune v1 ;;
      v2 <- at_ vs 2 ;; b <- asRune v2 ;;
      ret [VBool (within_Z x a b)]
  | VString x =>
      v1 <- at_ vs 1 ;; a <- asString v1 ;;
      v2 <- at_ vs 2 ;; b <- asString v2 ;;
      ret [VBool (within_string x a b)]
  | VBytes x =>
      v1 <- at_ vs 1 ;; lo <- asBytes v1 ;;
      if Compare lo x <=? 0 then
        v1' <- at_ vs 1 ;; lo' <- asBytes v1' ;;
        ret [VBool (Compare x lo' <? 0)]
      else ret [VBool false]
  | _ => fail ErrToHere
  end.

(** Environment: global variables. *)
Definition _VAR : Wrapper := fun aux _ _ =>
  Revert ;;;
  a0 <- at_ aux 0 ;; i <- asGoInt a0 ;;
  x <- GlobalValue i ;;
  ret [x].

Definition _SETVAR : Wrapper := fun aux data _ =>
  Revert ;;;
  a0 <- at_ aux 0 ;; i <- asGoInt a0 ;;
  GlobalSet i data ;;;
  ret [].

(** A handler of the source that is outside the embedding. *)
Definition not_covered (c : Z) : Wrapper := fun _ _ _ => unmodelled c.

(** [Instx]: the handler and its declared number of arguments. *)
Record Instx : Type := {
  Call : Wrapper;
  Argn : Z }.

Definition mk (f : Wrapper) (n : Z) : Instx := {| Call := f; Argn := n |}.

(** The table [__InstSet] as [init] fills it. An opcode that is absent has
    the zero [Instx]: a nil [Call]. *)
Definition __InstSet : list (Z * Instx) :=
  [ (icode.NIL, mk _NIL 0); (icode.TRUE, mk _TRUE 0);
    (icode.FALSE, mk _FALSE 0);
    (icode.Uint8n, mk _Int 0); (icode.Uint8, mk _Int 0);
    (icode.Uint63n, mk _Int 0); (icode.Uint63, mk _Int 0);
    (icode.Byte, mk _Byte 0);
    (icode.Rune, mk (not_covered icode.Rune) 0);
    (icode.Float32, mk (not_covered icode.Float32) 0);
    (icode.Float64, mk (not_covered icode.Float64) 0);
    (icode.DATE, mk (not_covered icode.DATE) 0);
    (icode.BigInt, mk (not_covered icode.BigInt) 0);
    (icode.DATA8, mk _DATA 0); (icode.DATA16, mk _DATA 0);
    (icode.TEXT8, mk (not_covered icode.TEXT8) 0);
    (icode.TEXT16, mk (not_covered icode.TEXT16) 0);
    (icode.RegExp, mk (not_covered icode.RegExp) 0);
    (icode.CODE, mk (not_covered icode.CODE) 0);
    (icode.Capture, mk _Capture 0); (icode.Bring, mk _Bring 0);
    (icode.ScopeAdd, mk _ScopeAdd 0); (icode.ScopeVal, mk _ScopeVal 0);
    (icode.LoopVal, mk (not_covered icode.LoopVal) 0);
    (icode.NOP, mk _NOP (-1)); (icode.PUSH, mk _PUSH (-1));
    (icode.SHIFT, mk _SHIFT 0); (icode.CLONE, mk _CLONE 0);
    (icode.POP, mk _POP 0); (icode.POPS, mk _POPS 0);
    (icode.TOP, mk _TOP 0); (icode.TOPS, mk _TOPS 0);
    (icode.PEEK, mk (not_covered icode.PEEK) 0);
    (icode.PEEKS, mk (not_covered icode.PEEKS) 0);
    (icode.SLICE, mk (not_covered icode.SLICE) 3);
    (icode.REVERSE, mk (not_covered icode.REVERSE) 1);
    (icode.MERGE, mk (not_covered icode.MERGE) (-1));
    (icode.EXPAND, mk (not_covered icode.EXPAND) (-1));
    (icode.GLUE, mk (not_covered icode.GLUE) 1);
    (icode.SPREAD, mk (not_covered icode.SPREAD) 1);
    (icode.ITEM, mk (not_covered icode.ITEM) 2);
    (icode.SET, mk (not_covered icode.SET) 3);
    (icode.SIZE, mk (not_covered icode.SIZE) 1);
    (icode.MAP, mk (not_covered icode.MAP) (-1));
    (icode.FILTER, mk (not_covered icode.FILTER) (-1));
    (icode.INPUT, mk (not_covered icode.INPUT) 0);
    (icode.OUTPUT, mk (not_covered icode.OUTPUT) (-1));
    (icode.BUFDUMP, mk (not_covered icode.BUFDUMP) 0);
    (icode.PRINT, mk (not_covered icode.PRINT) (-1));
    (icode.PASS, mk _PASS 1); (icode.FAIL, mk _FAIL 1);
    (icode.GOTO, mk _GOTO (-1)); (icode.JUMP, mk _JUMP 0);
    (icode.EXIT, mk _EXIT (-1)); (icode.RETURN, mk _RETURN 1);
    (icode.IF, mk _IF 1); (icode.ELSE, mk _ELSE 0);
    (icode.SWITCH, mk _SWITCH 2); (icode.CASE, mk _CASE 0);
    (icode.DEFAULT, mk _DEFAULT 0);
    (icode.EACH, mk (not_covered icode.EACH) 1);
    (icode.CONTINUE, mk _CONTINUE (-1)); (icode.BREAK, mk _BREAK (-1));
    (icode.FALLTHROUGH, mk _FALLTHROUGH 0); (icode.BLOCK, mk _BLOCK 0);
    (icode.Expr, mk _Expr 0);
    (icode.Mul, mk accessPanic 0); (icode.Div, mk accessPanic 0);
    (icode.Add, mk accessPanic 0); (icode.Sub, mk accessPanic 0);
    (icode.WITHIN, mk _WITHIN 3);
    (icode.VAR, mk _VAR 0); (icode.SETVAR, mk _SETVAR 1) ].

(** Opcodes that [init] assigns and the list above leaves out: the
    conversion, arithmetic, comparison, logic, pattern, environment, tool,
    system and function handlers, none of them embedded. *)
Definition assigned_elsewhere (c : Z) : bool :=
  ((67 <=? c) && (c <=? 79)) || ((85 <=? c) && (c <=? 102))
  || ((104 <=? c) && (c <=? 110)) || ((112 <=? c) && (c <=? 132))
  || (c =? 135) || (c =? 136) || ((138 <=? c) && (c <=? 148))
  || (c =? 155) || (c =? 164) || (c =? 165) || (c =? 169)
  || ((170 <=? c) && (c <=? 181)) || (c =? 208).

(** [instGet]. [FN_X] and above go through [instExtens], which is not
    embedded. *)
Definition instGet (code : list Z) (c : Z) : X (Instx * Insted) :=
  if icode.FN_X <=? c then unmodelled c
  else
    x <- match entry __InstSet c with
         | Some x => ret x
         | None =>
             if assigned_elsewhere c then unmodelled c
             else ret (mk (fun _ _ _ => fail NilDeref) 0)
         end ;;
    match instor.Get code with
    | Some ins => ret (x, ins)
    | None => unmodelled c
    end.

(** [instCall]. The source copies the script object ([s := a.Script], a
    struct value) and advances the copy: [s.Next(ins.Size)] does not move
    the cursor of the executor, and no other statement of the package
    does. *)
Definition instCall_body : X (list value) :=
  a <- actuator ;;
  let s := Script_ a in
  code <- index (Bytes s) ;;
  c <- index (Code s) ;;
  r <- instGet code c ;;
  let '(x, ins) := r in
  let _s := Next s (Size ins) in
  vs <- Arguments (Argn x) ;;
  Call x (Args ins) (Data ins) vs.

End Handlers.

(** The body of the loop of [codeRun]: [x := a.BackTo] is read before the
    call, then [a.ReturnPut(x, instCall(a))]. *)
Definition putCall (instCall : X (list value)) : X unit :=
  a <- actuator ;;
  let x := BackTo (state_ a) in
  vs <- instCall ;;
  ReturnPut x vs.

(** [codeRun] and [instCall], by recursion on the fuel. *)
Fixpoint codeRun (fuel : nat) : X unit :=
  match fuel with
  | O => out_of_fuel
  | S fuel =>
      a <- actuator ;;
      if End (Script_ a) then ret tt
      else putCall (instCall fuel) ;;; codeRun fuel
  end
with instCall (fuel : nat) : X (list value) :=
  match fuel with
  | O => out_of_fuel
  | S fuel => instCall_body fuel (codeRun fuel) (instCall fuel)
  end.

(** [ScriptRun]: the value of an EXIT, nil when the script runs to its
    end. *)
Definition ScriptRun (fuel : nat) : X value :=
  recover (codeRun fuel ;;; ret VNil) (fun p =>
    match p with
    | Leave EXIT d => ret d
    | Leave RETURN _ => fail ErrToHere
    | _ => throw p
    end).

End inst.

(** ** The pattern-match driver ([model]) *)

Module model.

(** The match state. *)
Record State : Type := {
  last : list Z;
  matched : list value;
  buffer : list value;
  ver : Z }.

Definition SetLast (b : list Z) (t : State) : State :=
  {| last := b; matched := matched t; buffer := buffer t; ver := ver t |}.
Definition PushData (data : list value) (t : State) : State :=
  {| last := last t; matched := matched t; buffer := buffer t ++ data;
     ver := ver t |}.
Definition Data_ (t : State) : list value := buffer t.

(** [Modeler]: from the source bytes and the model bytes at the two
    cursors to (source length, model length, ok); it acts on the match
    state and may panic. *)
Definition Modeler : Type := list Z -> list Z -> M State (Z * Z * bool).

(** [_Wildcard]: one source instruction, whatever it is. *)
Definition _Wildcard : Modeler := fun s m =>
  match instor.Raw s, instor.Raw m with
  | Some ins0, Some ins1 => ret (rSize ins0, rSize ins1, true)
  | _, _ => unmodelled icode.Wildcard
  end.

Section Check.

(** [modeler]: the function that looks a pattern opcode up in
    [__Process]. The table and the processors in it stay a parameter. *)
Variable modeler : Z -> Modeler.

(** The loop of [Check], from the two cursors [_s] and [_m]. *)
Fixpoint Check_loop (fuel : nat) (_s _m : Script)
  : M State (list value * bool) :=
  match fuel with
  | O => out_of_fuel
  | S fuel =>
      if End _m then
        t <- get ;; ret (Data_ t, End _s)
      else
        c <- index (Code _m) ;;
        s <- index (Bytes _s) ;;
        m <- index (Bytes _m) ;;
        r <- modeler c s m ;;
        let '(n1, n2, ok) := r in
        let _s' := Next _s n1 in
        let _m' := Next _m n2 in
        if negb ok || End _s' then
          t <- get ;; ret (Data_ t, ok && End _m')
        else
          modify (SetLast s) ;;;
          Check_loop fuel _s' _m'
  end.

Definition State0 (ver : Z) : State :=
  {| last := []; matched := []; buffer := []; ver := ver |}.

Definition Check (fuel : nat) (s m : list Z) (ver : Z)
  : outcome State (list value * bool) :=
  Check_loop fuel (NewScript s) (NewScript m) (State0 ver).

(** One application of a processor, at cursors [_s] and [_m] with the
    model not yet consumed. *)
Definition step (_s _m : Script) (t : State)
  (n1 n2 : Z) (ok : bool) (s : list Z) (t' : State) : Prop :=
  End _m = false /\
  exists c m, Code _m = Some c /\ Bytes _s = Some s /\ Bytes _m = Some m /\
              modeler c s m t = Ok (n1, n2, ok) t'.

(** The walk of the driver over the two streams: the processors it
    applies, the [ok] each reported, and the cursors and state where it
    stops. It stops when the model is consumed, when a processor reports
    failure, or when the source is exhausted. *)
Inductive drive : Script -> Script -> State -> list bool ->
                  Script -> Script -> State -> Prop :=
| drive_end _s _m t :
    End _m = true ->
    drive _s _m t [] _s _m t
| drive_stop _s _m t n1 n2 ok s t' :
    step _s _m t n1 n2 ok s t' ->
    ok = false \/ End (Next _s n1) = true ->
    drive _s _m t [ok] (Next _s n1) (Next _m n2) t'
| drive_go _s _m t n1 n2 s t' oks _s' _m' t'' :
    step _s _m t n1 n2 true s t' ->
    End (Next _s n1) = false ->
    drive (Next _s n1) (Next _m n2) (SetLast s t') oks _s' _m' t'' ->
    drive _s _m t (true :: oks) _s' _m' t''.

End Check.

(** [instpick] and [wildpart]: flag words of the pattern instructions,
    tested with [&] on [int]. *)
Definition forCode (i : Z) : bool := negb (Z.land i 1 =? 0).
Definition forData (i : Z) : bool := negb (Z.land i 64 =? 1).
Definition withAll (i : Z) : bool := negb (Z.land i 128 =? 0).
Definition isOption (w : Z) : bool := negb (Z.land w 1 =? 0).
Definition wildData (w : Z) : bool := negb (Z.land w 64 =? 1).
Definition inHash (w : Z) : bool := negb (Z.land w 128 =? 0).

(** [1<<n] on [int]: a negative count is a run-time fault, here [None];
    the result wraps to 64 bits. *)
Definition shl1 (n : Z) : option Z :=
  if n <? 0 then None
  else Some ((Z.shiftl 1 n + 2 ^ 63) mod 2 ^ 64 - 2 ^ 63).
Definition forArg (i n : Z) : option bool :=
  b ← shl1 n; Some (negb (Z.land i b =? 0)).
Definition wildArg (w n : Z) : option bool :=
  b ← shl1 n; Some (negb (Z.land w b =? 0)).

(** The loop of [_Wildnum]: [n] raw instructions from the cursor [_s],
    their sizes added to [size]. *)
Fixpoint Wildnum_loop (n : nat) (_s : Script) (size : Z) : option Z :=
  match n with
  | O => Some size
  | S n =>
      b ← Bytes _s; ins ← instor.Raw b;
      Wildnum_loop n (Next _s (rSize ins)) (size + rSize ins)
  end.

(** [_Wildnum]: as many source instructions as the parameter says. *)
Definition _Wildnum : Modeler := fun s m =>
  match instor.Get m with
  | Some ins1 =>
      match Args ins1 !! 0%nat with
      | Some (VGoInt n) =>
          match Wildnum_loop (Z.to_nat n) (NewScript s) 0 with
          | Some size => ret (size, Size ins1, true)
          | None => unmodelled icode.Wildnum
          end
      | Some _ => fail TypeAssert
      | None => fail IndexRange
      end
  | None => unmodelled icode.Wildnum
  end.

(** [_Wildlist]: [b0 := s[size:]] is compared with the data of the
    pattern instruction. *)
Definition _Wildlist : Modeler := fun s m =>
  match instor.Get m with
  | Some ins1 =>
      match Args ins1 !! 0%nat with
      | Some (VGoInt size) =>
          match slice_from s size with
          | Some b0 =>
              match Data ins1 with
              | VBytes d =>
                  if bool_decide (b0 = d) then ret (size, Size ins1, true)
                  else ret (0, Size ins1, true)
              | _ => fail TypeAssert
              end
          | None => fail IndexRange
          end
      | Some _ => fail TypeAssert
      | None => fail IndexRange
      end
  | None => unmodelled icode.Wildlist
  end.

End model.

(** * Properties: definitions *)

(** ** Fuel

    [approx m m']: wherever [m] does not run out of fuel, [m'] does the
    same as [m]. *)
Definition approx {S A} (m m' : M S A) : Prop :=
  forall s, m s = OutOfFuel \/ m s = m' s.

(** ** Resource bounds

    [bounded I m Q]: from a state in [I], the state that [m] ends in,
    normally or by a panic, is in [I], and a normal result is in [Q]. *)
Definition bounded {S A} (I : S -> Prop) (m : M S A) (Q : A -> Prop) : Prop :=
  forall s, I s ->
    match m s with
    | Ok x s' => I s' /\ Q x
    | Panic _ s' => I s'
    | OutOfFuel => True
    | Unmodelled _ => True
    end.

Definition any {A} : A -> Prop := fun _ => True.

(** The limits on the shared objects: every data stack holds at most
    [StackMax] values, every GOTO counter is at most [GotoMax], every JUMP
    counter at most [JumpMax]. *)
Definition heap_ok (h : heap) : Prop :=
  Forall (fun sp => zlen (stack_ sp) <= StackMax) (hspaces h) /\
  Forall (fun n => n <= GotoMax) (hgotos h) /\
  Forall (fun n => n <= JumpMax) (hjumps h).

(** The limit on the executor's own scope. *)
Definition scope_ok (a : Actuator) : Prop := zlen (scope_ a) <= ScopeMax.

Definition within_limits (s : machine) : Prop :=
  scope_ok (fst s) /\ heap_ok (snd s).

(** ** Scripts and states used in the statements *)

(** A fresh top-level executor over [code]. *)
Definition boot (code : list Z) : machine := NewActuator code empty_heap.

(** What the caller's [a.StackPush(vs...)] and [a.PutArgs(vs...)] leave,
    before the run. *)
Definition with_stack_of (vs : list value) (s : machine) : machine :=
  match StackPush vs s with Ok _ s' => s' | _ => s end.
Definition with_args_of (vs : list value) (s : machine) : machine :=
  match PutArgs vs s with Ok _ s' => s' | _ => s end.

(** The data stack and the args region of the running executor. *)
Definition stack_of (s : machine) : list value :=
  match hspaces (snd s) !! spaces_ (fst s) with
  | Some sp => stack_ sp
  | None => []
  end.
Definition args_of (s : machine) : list value :=
  match hspaces (snd s) !! spaces_ (fst s) with
  | Some sp => args_ sp
  | None => []
  end.

(** [TRUE IF{ Uint8(7) PUSH } ELSE{ Uint8(9) PUSH }] *)
Definition src_conditional : list Z :=
  [icode.TRUE;
   icode.IF; 3; icode.Uint8; 7; icode.PUSH;
   icode.ELSE; 3; icode.Uint8; 9; icode.PUSH].

(** [IF{ Uint8(7) PUSH } ELSE{ Uint8(9) PUSH }] *)
Definition src_if_else : list Z :=
  [icode.IF; 3; icode.Uint8; 7; icode.PUSH;
   icode.ELSE; 3; icode.Uint8; 9; icode.PUSH].

(** [BLOCK{ Uint8(1) EXIT }] and [BLOCK{ Uint8(1) RETURN }] *)
Definition src_block_exit : list Z :=
  [icode.BLOCK; 3; icode.Uint8; 1; icode.EXIT].
Definition src_block_return : list Z :=
  [icode.BLOCK; 3; icode.Uint8; 1; icode.RETURN].

(** [BLOCK{ EXIT }] and [BLOCK{ RETURN }] *)
Definition src_exit_only : list Z := [icode.BLOCK; 1; icode.EXIT].
Definition src_return_only : list Z := [icode.BLOCK; 1; icode.RETURN].

(** [( Uint8(5) Uint8(3) + Uint8(2) * )] *)
Definition src_expr : list Z :=
  [icode.Expr; 8; icode.Uint8; 5; icode.Uint8; 3; icode.Add;
   icode.Uint8; 2; icode.Mul].

(** [( + Uint8(2) )]: an expression that starts on an operator. *)
Definition src_expr_plus : list Z :=
  [icode.Expr; 3; icode.Add; icode.Uint8; 2].

(** [SWITCH{ CASE{ Uint8(7) } CASE{ Uint8(9) } }] and its body *)
Definition switch_body : list Z :=
  [icode.CASE; 2; icode.Uint8; 7;
   icode.CASE; 2; icode.Uint8; 9].
Definition src_switch : list Z := [icode.SWITCH; 8] ++ switch_body.

(** [SETVAR(3)] *)
Definition src_setvar : list Z := [icode.SETVAR; 3].

(** ** A step function for the evaluator, read off a list

    [feed] hands out, one call at a time, the opcodes and return values of
    a given instruction sequence, as [exprNext] does over a script whose
    cursor moves; at the end it answers [(ExprEnd, nil)]. *)
Definition feed : M (list (Z * list value)) (Z * list value) :=
  fun s => match s with
           | [] => Ok (ExprEnd, []) []
           | t :: s' => Ok t s'
           end.

Definition operand (z : Z) : Z * list value := (icode.Uint8, [VInt z]).
Definition operator (c : Z) : Z * list value := (c, []).

(** What a run returned, when it ended normally. *)
Definition result_of {S A} (r : outcome S A) : option A :=
  match r with Ok x _ => Some x | _ => None end.

(** The sentinel or fault that ended a run. *)
Definition panic_of {S A} (r : outcome S A) : option panic :=
  match r with Panic p _ => Some p | _ => None end.

(** The fault, if any, that ended a run. *)
Definition fault_of {S A} (r : outcome S A) : option fault :=
  match r with Panic (Fault f) _ => Some f | _ => None end.

(** [m], [k] times in a row. *)
Fixpoint times (k : nat) (m : X unit) : X unit :=
  match k with
  | O => ret tt
  | S k => m ;;; times k m
  end.

(** The state a run is left in, normally or by a panic. *)
Definition state_of {S A} (r : outcome S A) : option S :=
  match r with
  | Ok _ s => Some s
  | Panic _ s => Some s
  | _ => None
  end.

(** A top-level executor over [PASS] that holds one value in its args
    region. *)
Definition sample_args : machine := with_args_of [VBool true] (boot [icode.PASS]).

(** [SETVAR(3)] reached with [Int(42)] on the data stack, and the state it
    leaves. *)
Definition before_setvar : machine :=
  with_stack_of [VInt 42] (boot src_setvar).
Definition after_setvar : machine :=
  match inst.instCall 2 before_setvar with
  | Ok _ s => s
  | _ => before_setvar
  end.

(** A switch on [Int(2)] over the case values [Int(1)], [Int(2)], and the
    same on [Int(1)]: target and case list on the data stack. *)
Definition switch_on (x : Z) : machine :=
  with_stack_of [VInt x; VAnys [VInt 1; VInt 2]] (boot src_switch).

(** The switch block of [switch_on x], entered: the executor that
    [SwitchNew] builds, run by [m]. *)
Definition in_switch {A} (x : Z) (m : X A) : X A :=
  a2 <- SwitchNew switch_body (VInt x) [VInt 1; VInt 2] ;;
  as_actuator a2 m.

(** The instruction sequences fed to the evaluator: [5 + 3 * 2],
    [8 * 2], [- 5 - 3 / 2], and [5 3 + 2 *]. *)
Definition infix_5_3_2 : list (Z * list value) :=
  [operand 5; operator icode.Add; operand 3; operator icode.Mul; operand 2].
Definition infix_8_2 : list (Z * list value) :=
  [operand 8; operator icode.Mul; operand 2].
Definition infix_unary : list (Z * list value) :=
  [operator icode.Sub; operand 5; operator icode.Sub; operand 3;
   operator icode.Div; operand 2].
Definition postfix_5_3_2 : list (Z * list value) :=
  [operand 5; operand 3; operator icode.Add; operand 2; operator icode.Mul].

(** [a op b] and [a op1 b op2 c], as instruction sequences. *)
Definition infix (a op b : Z) : list (Z * list value) :=
  [operand a; operator op; operand b].
Definition infix3 (a op1 b op2 c : Z) : list (Z * list value) :=
  [operand a; operator op1; operand b; operator op2; operand c].

(** The evaluator over [feed]. *)
Definition Calc_feed (fuel : nat)
  : M (list (Z * list value)) float :=
  expr.Calc feed fuel.

(** A processor table that holds [_Wildcard] at its opcode and nothing
    else. *)
Definition wildcard_only (c : Z) : model.Modeler :=
  if c =? icode.Wildcard then model._Wildcard
  else fun _ _ => unmodelled c.

(** ** Further definitions used in the statements *)

(** The executor's cursor is the script [sc]. *)
Definition cursor_at (sc : Script) (s : machine) : Prop :=
  Script_ (fst s) = sc.

(** [m], run as the executor that [new] builds from the running one. *)
Definition in_child {A} (new : X Actuator) (m : X A) : X A :=
  a2 <- new ;; as_actuator a2 m.

(** The constructors of child executors, grouped by what the child has in
    common with its parent: the [spaces] object (data stack, args region),
    the global variables, the GOTO and JUMP counters. *)
Definition on_parent_spaces (code : list Z) (tg : value) (cs : list value)
  : list (X Actuator) :=
  [ BlockNew code; SwitchNew code tg cs; CaseNew code; LoopNew code;
    EmbedNew code; ExprNew code ].
Definition on_own_spaces (code : list Z) : list (X Actuator) :=
  [ ScopeNew code; ScriptNew code; EvalNew code ].

Definition on_parent_globals (code : list Z) (tg : value) (cs : list value)
  : list (X Actuator) :=
  [ BlockNew code; SwitchNew code tg cs; CaseNew code; ScopeNew code;
    LoopNew code; EmbedNew code; ExprNew code ].
Definition on_own_globals (code : list Z) : list (X Actuator) :=
  [ ScriptNew code; EvalNew code ].

Definition on_parent_counters (code : list Z) (tg : value) (cs : list value)
  : list (X Actuator) :=
  [ BlockNew code; SwitchNew code tg cs; CaseNew code; ScriptNew code;
    EmbedNew code ].
Definition without_counters (code : list Z) : list (X Actuator) :=
  [ ScopeNew code; EvalNew code; ExprNew code ].

(** The executor that runs the body of a switch under a fresh top-level
    executor over [code]: a state in which every constructor of a child
    succeeds. *)
Definition switch_state (code : list Z) : machine :=
  match SwitchNew code VNil [] (boot code) with
  | Ok a2 s => (a2, snd s)
  | _ => boot code
  end.

(** The objects of [switch_state code]. *)
Definition no_spaces : spaces :=
  {| stack_ := []; args_ := []; bufin := []; bufout := [] |}.
Definition first_switch : switchX :=
  {| target := VNil; cases := []; through := Some 0%nat |}.
Definition first_countx : countx :=
  {| gotos := Some 0%nat; jumps := Some 0%nat |}.

(** A script of three bytes with the cursor after the first. *)
Definition sample_script : Script := Next (NewScript [1; 2; 3]) 1.

(** [x0 op1 x1 op2 x2 ...], as an instruction sequence: the operators
    and operands that follow the first operand. *)
Definition chain (l : list (Z * Z)) : list (Z * list value) :=
  concat (map (fun ox => [operator (fst ox); operand (snd ox)]) l).

(** The arithmetic of an operator. *)
Definition arith (op : Z) (a b : float) : float :=
  if op =? icode.Mul then (a * b)%float
  else if op =? icode.Div then (a / b)%float
  else if op =? icode.Add then (a + b)%float
  else (a - b)%float.

(** Left to right. *)
Definition left_to_right (x0 : Z) (l : list (Z * Z)) : float :=
  fold_left (fun acc ox => arith (fst ox) acc (expr.float_of_Z (snd ox)))
            l (expr.float_of_Z x0).

(** The registers of the evaluator, and its state over [feed]. *)
Definition reg (n0 : Z) (v0 : float) : expr.Calculor :=
  {| expr.n := n0; expr.v := v0 |}.

Definition feed_state : Type := expr.Calculor * list (Z * list value).

(** The registers and the feed before the operator at the head of [l]
    is read as the current code. *)
Definition at_chain (l : list (Z * Z)) (v0 : float) : feed_state :=
  match l with
  | [] => (reg expr.exprEnd v0, [])
  | ox :: l' => (reg (fst ox) 0%float, operand (snd ox) :: chain l')
  end.

(** The tree that the parser builds from a chain: nested to the left. *)
Definition tree (l : list (Z * Z)) (lhs : expr._Expr) : expr._Expr :=
  fold_left (fun t ox => expr.binary (fst ox) t
                           (expr.value_ (expr.float_of_Z (snd ox)))) l lhs.

(** The executor after a handler has called [Revert], and after a
    capture instruction has set where the next return value goes. *)
Definition reverted (a : Actuator) : Actuator :=
  if changed (state_ a) then set_state state0 a else a.
Definition flagged (to : Z) (a : Actuator) : Actuator :=
  set_state {| BackTo := to; FromStack := false; changed := true |} a.

(** One pass of the loop of [codeRun] over the instruction TRUE, and
    over the capture instructions [@] and [$]. *)
Definition step_TRUE : X unit := inst.putCall (inst._TRUE [] VNil []).
Definition step_Capture : X unit := inst.putCall (inst._Capture [] VNil []).
Definition step_ScopeAdd : X unit := inst.putCall (inst._ScopeAdd [] VNil []).

(** One pass of the loop of [codeRun] over a handler with its attached
    parameters, and the data stack it leaves when it does not fault. *)
Definition run_with (w : inst.Wrapper) (aux : list value) : X unit :=
  inst.putCall (w aux VNil []).
Definition stack_after (m : X unit) (s : machine) : option (list value) :=
  match m s with Ok _ s' => Some (stack_of s') | _ => None end.

(** A picker that answers reports a size of at least one byte, within
    the bytes it was given. *)
Definition sized (p : picker) : Prop :=
  forall code ins, p code = Some ins -> 1 <= rSize ins <= zlen code.

(** * Properties: proofs *)

(** ** More fuel changes nothing *)

Lemma approx_refl {S A} (m : M S A) : approx m m.
Proof. intros s. now right. Qed.

Lemma approx_out_of_fuel {S A} (m : M S A) : approx out_of_fuel m.
Proof. intros s. now left. Qed.

Lemma approx_bind {S A B} (m m' : M S A) (k k' : A -> M S B) :
  approx m m' -> (forall x, approx (k x) (k' x)) ->
  approx (bind m k) (bind m' k').
Proof.
  intros Hm Hk s. unfold bind.
  destruct (Hm s) as [E | E].
  - left. now rewrite E.
  - rewrite <- E. destruct (m s) as [x s' | p s' | | c]; auto.
    apply Hk.
Qed.

Lemma approx_recover {S A} (m m' : M S A) (h : panic -> M S A) :
  approx m m' -> approx (recover m h) (recover m' h).
Proof.
  intros Hm s. unfold recover.
  destruct (Hm s) as [E | E].
  - left. now rewrite E.
  - right. now rewrite E.
Qed.

Lemma approx_as_actuator {A} (a2 : Actuator) (m m' : X A) :
  approx m m' -> approx (as_actuator a2 m) (as_actuator a2 m').
Proof.
  intros Hm s. unfold as_actuator.
  destruct (Hm (a2, snd s)) as [E | E].
  - left. now rewrite E.
  - right. now rewrite E.
Qed.

(** What [approx] gives for a run that is known at one fuel. *)
Lemma approx_result {S A} (m m' : M S A) (s : S) (r : outcome S A) :
  approx m m' -> m s = r -> r <> OutOfFuel -> m' s = r.
Proof.
  intros H E N. destruct (H s) as [E' | E']; congruence.
Qed.

(** Structural steps of a proof of [approx]. *)
Ltac approx_step :=
  match goal with
  | H : approx ?m ?m' |- approx ?m ?m' => exact H
  | |- approx ?m ?m => apply approx_refl
  | |- approx (bind _ _) (bind _ _) => apply approx_bind; [ | intros ? ]
  | |- approx (recover _ _) (recover _ _) => apply approx_recover
  | |- approx (as_actuator _ _) (as_actuator _ _) => apply approx_as_actuator
  | |- approx (match ?x with _ => _ end) (match ?x with _ => _ end) =>
      destruct x
  | |- approx (if ?x then _ else _) (if ?x then _ else _) => destruct x
  end.
Ltac approx_auto := repeat approx_step.

Section CalcFuel.

Context {S : Type} (call call' : M S (Z * list value)).
Hypothesis Hcall : approx call call'.

Lemma do_call_approx : approx (expr.do_call call) (expr.do_call call').
Proof.
  intros cs. unfold expr.do_call.
  destruct (Hcall (snd cs)) as [E | E].
  - left. now rewrite E.
  - right. now rewrite E.
Qed.

Lemma next_approx : approx (expr.next call) (expr.next call').
Proof.
  unfold expr.next. apply approx_bind; [ apply do_call_approx | intros r ].
  apply approx_refl.
Qed.

Lemma parsePrimary_approx :
  approx (expr.parsePrimary call) (expr.parsePrimary call').
Proof.
  pose proof next_approx.
  unfold expr.parsePrimary. approx_auto.
Qed.

Lemma parseUnary_approx (f f' : nat) :
  (f <= f')%nat ->
  approx (expr.parseUnary call f) (expr.parseUnary call' f').
Proof.
  pose proof next_approx. pose proof parsePrimary_approx.
  revert f'. induction f as [| f IH]; intros f' Hle.
  - apply approx_out_of_fuel.
  - destruct f' as [| f']; [ lia | ].
    assert (approx (expr.parseUnary call f) (expr.parseUnary call' f'))
      by (apply IH; lia).
    simpl. approx_auto.
Qed.

Lemma sameLevel_approx (parse parse' : Z -> expr.C _) (f f' : nat) :
  (forall p, approx (parse p) (parse' p)) ->
  (f <= f')%nat ->
  forall prec lhs,
    approx (expr.sameLevel call parse f prec lhs)
           (expr.sameLevel call' parse' f' prec lhs).
Proof.
  intros Hp. pose proof next_approx.
  revert f'. induction f as [| f IH]; intros f' Hle prec lhs.
  - apply approx_out_of_fuel.
  - destruct f' as [| f']; [ lia | ].
    simpl. approx_auto.
    + apply Hp.
    + apply IH. lia.
Qed.

Lemma levels_approx (parse parse' : Z -> expr.C _) (f f' : nat) :
  (forall p, approx (parse p) (parse' p)) ->
  (f <= f')%nat ->
  forall k prec lhs,
    approx (expr.levels call parse f k prec lhs)
           (expr.levels call' parse' f' k prec lhs).
Proof.
  intros Hp Hle k.
  induction k as [| k IH]; intros prec lhs; simpl.
  - apply approx_refl.
  - apply approx_bind; [ now apply sameLevel_approx | intros x; apply IH ].
Qed.

Lemma parseBinary_approx (f f' : nat) :
  (f <= f')%nat ->
  forall prec1,
    approx (expr.parseBinary call f prec1) (expr.parseBinary call' f' prec1).
Proof.
  revert f'. induction f as [| f IH]; intros f' Hle prec1.
  - apply approx_out_of_fuel.
  - destruct f' as [| f']; [ lia | ].
    simpl.
    apply approx_bind; [ apply parseUnary_approx; lia | intros lhs ].
    apply approx_bind; [ apply approx_refl | intros c ].
    apply levels_approx; [ | lia ].
    intros p. apply IH. lia.
Qed.

Lemma Calc_approx (f f' : nat) :
  (f <= f')%nat -> approx (expr.Calc call f) (expr.Calc call' f').
Proof.
  intros Hle s. unfold expr.Calc.
  match goal with
  | |- match ?m ?x with _ => _ end = _ \/
       match ?m ?x with _ => _ end = match ?m' ?x with _ => _ end =>
      assert (Hm : approx m m')
  end.
  { pose proof next_approx.
    assert (approx (expr.parseExpr call f) (expr.parseExpr call' f'))
      by (now apply parseBinary_approx).
    approx_auto. }
  destruct (Hm ({| expr.n := 0; expr.v := 0%float |}, s)) as [E | E].
  - left. now rewrite E.
  - right. now rewrite E.
Qed.

End CalcFuel.

(** Unfolds the handler at the head of the goal. *)
Ltac unfold_handlers :=
  unfold inst._NIL, inst._TRUE, inst._FALSE, inst._Int, inst._Byte,
    inst._DATA, inst._Capture, inst._Bring, inst._ScopeAdd, inst._ScopeVal,
    inst._NOP, inst._PUSH, inst._SHIFT, inst._CLONE, inst._POP, inst._POPS,
    inst._TOP, inst._TOPS, inst._PASS, inst._FAIL, inst._GOTO, inst._JUMP,
    inst._EXIT, inst._RETURN, inst._IF, inst._ELSE, inst._SWITCH,
    inst._CASE, inst._DEFAULT, inst._CONTINUE, inst._BREAK,
    inst._FALLTHROUGH, inst._BLOCK, inst._Expr, inst.accessPanic,
    inst._WITHIN, inst._VAR, inst._SETVAR, inst.not_covered,
    inst.cease_if, inst.at_, inst.asBool, inst.asInt, inst.asGoInt,
    inst.asByte, inst.asRune, inst.asFloat, inst.asString, inst.asBytes,
    inst.asAnys.

Section HandlersFuel.

Variables (f f' : nat) (cr cr' : X unit) (ic ic' : X (list value)).
Hypothesis Hf : (f <= f')%nat.
Hypothesis Hcr : approx cr cr'.
Hypothesis Hic : approx ic ic'.

Lemma execPart_approx : approx (inst.execPart cr) (inst.execPart cr').
Proof. unfold inst.execPart. approx_auto. Qed.

Lemma runEmbed_approx : approx (inst.runEmbed cr) (inst.runEmbed cr').
Proof. unfold inst.runEmbed. approx_auto. Qed.

Lemma exprNext_approx : approx (inst.exprNext ic) (inst.exprNext ic').
Proof. unfold inst.exprNext. approx_auto. Qed.

Lemma _Expr_approx aux data vs :
  approx (inst._Expr f ic aux data vs) (inst._Expr f' ic' aux data vs).
Proof.
  pose proof (Calc_approx _ _ exprNext_approx f f' Hf).
  unfold inst._Expr. approx_auto.
Qed.

(** Entry by entry, the handlers of the two tables agree where the first
    does not run out of fuel. *)
Lemma __InstSet_approx (c : Z) :
  match entry (inst.__InstSet f cr ic) c,
        entry (inst.__InstSet f' cr' ic') c with
  | Some x, Some x' =>
      inst.Argn x = inst.Argn x' /\
      forall aux data vs,
        approx (inst.Call x aux data vs) (inst.Call x' aux data vs)
  | None, None => True
  | _, _ => False
  end.
Proof.
  pose proof execPart_approx. pose proof runEmbed_approx.
  pose proof (Calc_approx _ _ exprNext_approx f f' Hf).
  unfold inst.__InstSet. cbn [entry].
  repeat match goal with
  | |- context [if ?k =? c then _ else _] =>
      destruct (k =? c);
      [ split; [ reflexivity | intros aux data vs; cbn [inst.Call inst.mk] ]
      | ]
  end;
  try exact I;
  try apply approx_refl;
  unfold_handlers;
  approx_auto; auto.
Qed.

Lemma instCall_body_approx :
  approx (inst.instCall_body f cr ic) (inst.instCall_body f' cr' ic').
Proof.
  unfold inst.instCall_body.
  apply approx_bind; [ apply approx_refl | intros a ].
  apply approx_bind; [ apply approx_refl | intros code ].
  apply approx_bind; [ apply approx_refl | intros c ].
  unfold inst.instGet.
  destruct (icode.FN_X <=? c); [ intros s; now right | ].
  pose proof (__InstSet_approx c) as He.
  destruct (entry (inst.__InstSet f cr ic) c) as [x |],
           (entry (inst.__InstSet f' cr' ic') c) as [x' |];
    try contradiction.
  - destruct He as [Hn Hc].
    destruct (instor.Get code) as [ins |]; [ | intros s; now right ].
    intros s. cbv beta iota delta [bind ret]. rewrite Hn.
    destruct (Arguments (inst.Argn x') s) as [vs s' | | |]; auto.
    apply Hc.
  - destruct (inst.assigned_elsewhere c); [ intros s; now right | ].
    apply approx_refl.
Qed.

End HandlersFuel.

Lemma putCall_approx (ic ic' : X (list value)) :
  approx ic ic' -> approx (inst.putCall ic) (inst.putCall ic').
Proof. intros H. unfold inst.putCall. approx_auto. Qed.

(** [codeRun] and [instCall] are monotone in the fuel. *)
Lemma run_approx (f f' : nat) :
  (f <= f')%nat ->
  approx (inst.codeRun f) (inst.codeRun f') /\
  approx (inst.instCall f) (inst.instCall f').
Proof.
  revert f'. induction f as [| f IH]; intros f' Hle.
  - split; apply approx_out_of_fuel.
  - destruct f' as [| f']; [ lia | ].
    destruct (IH f' ltac:(lia)) as [Hcr Hic].
    split; simpl.
    + pose proof (putCall_approx _ _ Hic). approx_auto.
    + apply instCall_body_approx; auto. lia.
Qed.

Lemma ScriptRun_approx (f f' : nat) :
  (f <= f')%nat -> approx (inst.ScriptRun f) (inst.ScriptRun f').
Proof.
  intros Hle. destruct (run_approx f f' Hle) as [Hcr _].
  unfold inst.ScriptRun. approx_auto.
Qed.

(** A run that ends at some fuel ends the same way at every fuel that is
    enough, and is the only way the run can end. *)
Lemma ScriptRun_fuel (f : nat) (s : machine) (r : outcome machine value) :
  inst.ScriptRun f s = r -> r <> OutOfFuel ->
  forall f', (f <= f')%nat -> inst.ScriptRun f' s = r.
Proof.
  intros E N f' Hle.
  exact (approx_result _ _ s r (ScriptRun_approx f f' Hle) E N).
Qed.

Lemma ScriptRun_unique (f : nat) (s : machine) (r : outcome machine value) :
  inst.ScriptRun f s = r -> r <> OutOfFuel ->
  forall f', inst.ScriptRun f' s = OutOfFuel \/ inst.ScriptRun f' s = r.
Proof.
  intros E N f'.
  destruct (Nat.le_gt_cases f f') as [Hle | Hgt].
  - right. now apply (ScriptRun_fuel f).
  - destruct (ScriptRun_approx f' f ltac:(lia) s) as [E' | E']; auto.
    right. congruence.
Qed.

(** ** The limits are kept *)

Section Bounded.

Context {S : Type} (I : S -> Prop).

Lemma bounded_ret {A} (x : A) (Q : A -> Prop) :
  Q x -> bounded I (ret x) Q.
Proof. intros H s Hs. simpl. auto. Qed.

Lemma bounded_throw {A} (p : panic) (Q : A -> Prop) :
  bounded I (throw p) Q.
Proof. intros s Hs. simpl. auto. Qed.

Lemma bounded_fail {A} (f : fault) (Q : A -> Prop) :
  bounded I (fail f) Q.
Proof. apply bounded_throw. Qed.

Lemma bounded_unmodelled {A} (c : Z) (Q : A -> Prop) :
  bounded I (unmodelled c) Q.
Proof. intros s Hs. exact Logic.I. Qed.

Lemma bounded_out_of_fuel {A} (Q : A -> Prop) :
  bounded I out_of_fuel Q.
Proof. intros s Hs. exact Logic.I. Qed.

Lemma bounded_bind {A B} (m : M S A) (k : A -> M S B)
  (Q : A -> Prop) (Q' : B -> Prop) :
  bounded I m Q -> (forall x, Q x -> bounded I (k x) Q') ->
  bounded I (bind m k) Q'.
Proof.
  intros Hm Hk s Hs. unfold bind. specialize (Hm s Hs).
  destruct (m s) as [x s' | p s' | | c]; auto.
  destruct Hm as [Hs' Hx]. now apply Hk.
Qed.

Lemma bounded_weaken {A} (m : M S A) (Q Q' : A -> Prop) :
  bounded I m Q -> (forall x, Q x -> Q' x) -> bounded I m Q'.
Proof.
  intros Hm HQ s Hs. specialize (Hm s Hs).
  destruct (m s); intuition.
Qed.

Lemma bounded_any {A} (m : M S A) (Q : A -> Prop) :
  bounded I m Q -> bounded I m any.
Proof. intros H. apply (bounded_weaken m Q); [ exact H | now unfold any ]. Qed.

Lemma bounded_recover {A} (m : M S A) (h : panic -> M S A) (Q : A -> Prop) :
  bounded I m Q -> (forall p, bounded I (h p) Q) ->
  bounded I (recover m h) Q.
Proof.
  intros Hm Hh s Hs. unfold recover. specialize (Hm s Hs).
  destruct (m s) as [x s' | p s' | | c]; auto.
  now apply Hh.
Qed.

Lemma bounded_lift {A} (t : try A) :
  bounded I (lift t) (fun x => t = Done x).
Proof. destruct t; [ now apply bounded_ret | apply bounded_fail ]. Qed.

Lemma bounded_index {A} (o : option A) :
  bounded I (index o) (fun x => o = Some x).
Proof. destruct o; [ now apply bounded_ret | apply bounded_fail ]. Qed.

Lemma bounded_get : bounded I get I.
Proof. intros s Hs. simpl. auto. Qed.

End Bounded.

(** Reading and writing the machine. *)
Lemma bounded_actuator : bounded within_limits actuator scope_ok.
Proof.
  intros [a h] [Ha Hh]. unfold within_limits, any. simpl in *. auto.
Qed.

Lemma bounded_the_heap : bounded within_limits the_heap heap_ok.
Proof.
  intros [a h] [Ha Hh]. unfold within_limits, any. simpl in *. auto.
Qed.

Lemma bounded_update_actuator (f : Actuator -> Actuator) :
  (forall a, scope_ok a -> scope_ok (f a)) ->
  bounded within_limits (update_actuator f) any.
Proof.
  intros Hf [a h] [Ha Hh]. unfold within_limits, any. simpl in *. auto.
Qed.

Lemma bounded_update_heap (f : heap -> heap) :
  (forall h, heap_ok h -> heap_ok (f h)) ->
  bounded within_limits (update_heap f) any.
Proof.
  intros Hf [a h] [Ha Hh]. unfold within_limits, any. simpl in *. auto.
Qed.

Lemma bounded_deref {A} (sel : heap -> list A) (P : A -> Prop) (r : ref) :
  (forall h, heap_ok h -> Forall P (sel h)) ->
  bounded within_limits (deref sel r) P.
Proof.
  intros HP. unfold deref.
  eapply bounded_bind; [ apply bounded_the_heap | intros h Hh ].
  destruct (sel h !! r) as [x |] eqn:E.
  - apply bounded_ret.
    exact (proj1 (Forall_lookup P (sel h)) (HP h Hh) r x E).
  - apply bounded_unmodelled.
Qed.

Lemma bounded_deref_any {A} (sel : heap -> list A) (r : ref) :
  bounded within_limits (deref sel r) any.
Proof. apply bounded_deref. intros h _. apply Forall_forall. now intros. Qed.

Lemma bounded_deref_ptr_any {A} (sel : heap -> list A) (p : option ref) :
  bounded within_limits (deref_ptr sel p) any.
Proof.
  destruct p; [ apply bounded_deref_any | apply bounded_fail ].
Qed.

Lemma bounded_as_actuator {A} (a2 : Actuator) (m : X A) (Q : A -> Prop) :
  scope_ok a2 -> bounded within_limits m Q ->
  bounded within_limits (as_actuator a2 m) Q.
Proof.
  intros Ha2 Hm [a h] [Ha Hh]. unfold as_actuator. simpl.
  specialize (Hm (a2, h) (conj Ha2 Hh)).
  destruct (m (a2, h)) as [x [a' h'] | p [a' h'] | | c]; auto.
  - destruct Hm as [[_ Hh'] Hx]. unfold within_limits. simpl in *. auto.
  - destruct Hm as [_ Hh']. unfold within_limits. simpl in *. auto.
Qed.

(** How the heap updates keep [heap_ok]. *)
Lemma heap_ok_spaces (h : heap) (r : ref) (sp : spaces) :
  heap_ok h -> zlen (stack_ sp) <= StackMax ->
  heap_ok (set_hspaces (fun l => <[r := sp]> l) h).
Proof.
  intros (H1 & H2 & H3) Hsp. repeat split; auto. simpl.
  now apply Forall_insert.
Qed.

Lemma heap_ok_new_spaces (h : heap) (sp : spaces) :
  heap_ok h -> zlen (stack_ sp) <= StackMax ->
  heap_ok (set_hspaces (fun l => l ++ [sp]) h).
Proof.
  intros (H1 & H2 & H3) Hsp. repeat split; auto. simpl.
  apply Forall_app. split; auto.
Qed.

Lemma heap_ok_gotos (h : heap) (r : ref) (n : Z) :
  heap_ok h -> n <= GotoMax ->
  heap_ok (set_hgotos (fun l => <[r := n]> l) h).
Proof.
  intros (H1 & H2 & H3) Hn. repeat split; auto. simpl.
  now apply Forall_insert.
Qed.

Lemma heap_ok_jumps (h : heap) (r : ref) (n : Z) :
  heap_ok h -> n <= JumpMax ->
  heap_ok (set_hjumps (fun l => <[r := n]> l) h).
Proof.
  intros (H1 & H2 & H3) Hn. repeat split; auto. simpl.
  now apply Forall_insert.
Qed.

Lemma heap_ok_expr (h : heap) (f : list Z -> list Z) :
  heap_ok h -> heap_ok (set_hexpr f h).
Proof. intros (H1 & H2 & H3). repeat split; auto. Qed.

Lemma heap_ok_bools (h : heap) (f : list bool -> list bool) :
  heap_ok h -> heap_ok (set_hbools f h).
Proof. intros (H1 & H2 & H3). repeat split; auto. Qed.

Lemma heap_ok_globals (h : heap) f :
  heap_ok h -> heap_ok (set_hglobals f h).
Proof. intros (H1 & H2 & H3). repeat split; auto. Qed.

Lemma heap_ok_stacks (h : heap) :
  heap_ok h -> Forall (fun sp => zlen (stack_ sp) <= StackMax) (hspaces h).
Proof. now intros (H1 & _). Qed.

Lemma heap_ok_goto_cells (h : heap) :
  heap_ok h -> Forall (fun n => n <= GotoMax) (hgotos h).
Proof. now intros (_ & H2 & _). Qed.

Lemma heap_ok_jump_cells (h : heap) :
  heap_ok h -> Forall (fun n => n <= JumpMax) (hjumps h).
Proof. now intros (_ & _ & H3). Qed.

(** The stack and scope primitives keep to their bounds. *)
Lemma push_bound (s : stack) (vs : list value) (s' : stack) :
  push s vs = Done s' -> zlen s' <= StackMax.
Proof.
  unfold push. destruct (StackMax <? zlen s + zlen vs) eqn:E; [ discriminate | ].
  intros [= <-]. apply Z.ltb_ge in E.
  unfold zlen in *. rewrite length_app. lia.
Qed.

Lemma take_bound {A} (s : list A) (k : nat) (b : Z) :
  zlen s <= b -> zlen (take k s) <= b.
Proof. unfold zlen. rewrite length_take. lia. Qed.

Lemma pop_bound (s : stack) (r : value * stack) :
  zlen s <= StackMax -> pop s = Done r -> zlen (snd r) <= StackMax.
Proof.
  unfold pop. intros Hs.
  destruct (zlen s - 1 <? 0); [ discriminate | ].
  destruct (zlookup s (zlen s - 1)); [ | discriminate ].
  intros [= <-]. simpl. now apply take_bound.
Qed.

Lemma pops_bound (s : stack) (n : Z) (r : list value * stack) :
  zlen s <= StackMax -> pops s n = Done r -> zlen (snd r) <= StackMax.
Proof.
  unfold pops. intros Hs.
  destruct (zlen s - n <? 0); [ discriminate | ].
  destruct (n <? 0); [ discriminate | ].
  intros [= <-]. simpl. now apply take_bound.
Qed.

Lemma scope_add_bound (s : scope) (vs : list value) (s' : scope) :
  scope_add s vs = Done s' -> zlen s' <= ScopeMax.
Proof.
  unfold scope_add.
  destruct (ScopeMax <? zlen s + zlen vs) eqn:E; [ discriminate | ].
  intros [= <-]. apply Z.ltb_ge in E.
  unfold zlen in *. rewrite length_app. lia.
Qed.

Create HintDb bounded discriminated.

#[local] Hint Resolve bounded_actuator bounded_the_heap bounded_deref_any
  bounded_deref_ptr_any bounded_lift bounded_index : bounded.

(** Structural steps of a proof of [bounded within_limits]. A bind takes
    the postcondition of its first part from the hint database. *)
Ltac settle Q :=
  first [ is_evar Q;
          match type of Q with ?A -> Prop => unify Q (@any A) end
        | idtac ].
Ltac bounded_step :=
  match goal with
  | H : bounded _ ?m _ |- bounded _ ?m any => apply (bounded_any _ _ _ H)
  | H : bounded _ ?m ?Q |- bounded _ ?m ?Q => exact H
  | |- bounded _ (bind _ _) _ =>
      eapply bounded_bind; [ | intros ? ? ]
  | |- bounded _ (ret _) any => apply bounded_ret; exact Logic.I
  | |- bounded _ (throw _) _ => apply bounded_throw
  | |- bounded _ (fail _) _ => apply bounded_fail
  | |- bounded _ (unmodelled _) _ => apply bounded_unmodelled
  | |- bounded _ out_of_fuel _ => apply bounded_out_of_fuel
  | |- bounded _ (recover _ _) _ => apply bounded_recover; [ | intros ? ]
  | |- bounded _ (as_actuator _ _) _ =>
      apply bounded_as_actuator; [ assumption | ]
  | |- bounded _ (match ?x with _ => _ end) ?Q => settle Q; destruct x
  | |- bounded _ (if ?x then _ else _) ?Q => settle Q; destruct x
  | |- bounded _ (ret _) ?Q => is_evar Q; settle Q
  | |- bounded _ _ ?Q =>
      is_evar Q; solve [ eauto 3 with bounded ]
  | |- bounded _ _ any =>
      solve [ eapply bounded_any; eauto 3 with bounded ]
  end.
Ltac bounded_auto := repeat bounded_step.

Lemma bounded_the_spaces :
  bounded within_limits the_spaces
          (fun sp => zlen (stack_ sp) <= StackMax).
Proof.
  unfold the_spaces.
  eapply bounded_bind; [ apply bounded_actuator | intros a Ha ].
  apply bounded_deref. apply heap_ok_stacks.
Qed.

Lemma bounded_set_spaces (sp : spaces) :
  zlen (stack_ sp) <= StackMax ->
  bounded within_limits (set_spaces sp) any.
Proof.
  intros Hsp. unfold set_spaces.
  eapply bounded_bind; [ apply bounded_actuator | intros a Ha ].
  apply bounded_update_heap. intros h Hh. now apply heap_ok_spaces.
Qed.

Lemma bounded_StackPush (vs : list value) :
  bounded within_limits (StackPush vs) any.
Proof.
  unfold StackPush.
  eapply bounded_bind; [ apply bounded_the_spaces | intros sp Hsp ].
  eapply bounded_bind; [ apply bounded_lift | intros s Hs ].
  apply bounded_set_spaces. simpl. now apply push_bound in Hs.
Qed.

Lemma bounded_StackPop : bounded within_limits StackPop any.
Proof.
  unfold StackPop.
  eapply bounded_bind; [ apply bounded_the_spaces | intros sp Hsp ].
  eapply bounded_bind; [ apply bounded_lift | intros r Hr ].
  eapply bounded_bind; [ | intros; now apply bounded_ret ].
  apply bounded_set_spaces. simpl. now apply (pop_bound (stack_ sp)).
Qed.

Lemma bounded_StackPops (n : Z) : bounded within_limits (StackPops n) any.
Proof.
  unfold StackPops.
  eapply bounded_bind; [ apply bounded_the_spaces | intros sp Hsp ].
  eapply bounded_bind; [ apply bounded_lift | intros r Hr ].
  eapply bounded_bind; [ | intros; now apply bounded_ret ].
  apply bounded_set_spaces. simpl. now apply (pops_bound (stack_ sp) n).
Qed.

Lemma bounded_PutArgs (vs : list value) :
  bounded within_limits (PutArgs vs) any.
Proof.
  unfold PutArgs.
  eapply bounded_bind; [ apply bounded_the_spaces | intros sp Hsp ].
  now apply bounded_set_spaces.
Qed.

Lemma bounded_TakeArgs : bounded within_limits TakeArgs any.
Proof.
  unfold TakeArgs.
  eapply bounded_bind; [ apply bounded_the_spaces | intros sp Hsp ].
  eapply bounded_bind; [ | intros; now apply bounded_ret ].
  now apply bounded_set_spaces.
Qed.

#[local] Hint Resolve bounded_the_spaces bounded_StackPush bounded_StackPop
  bounded_StackPops bounded_PutArgs bounded_TakeArgs : bounded.

Lemma bounded_StackTop : bounded within_limits StackTop any.
Proof. unfold StackTop. bounded_auto. Qed.

Lemma bounded_StackTops (n : Z) : bounded within_limits (StackTops n) any.
Proof. unfold StackTops. bounded_auto. Qed.

Lemma bounded_StackSize : bounded within_limits StackSize any.
Proof. unfold StackSize. bounded_auto. Qed.

Lemma bounded_ArgsSize : bounded within_limits ArgsSize any.
Proof. unfold ArgsSize. bounded_auto. Qed.

Lemma bounded_set_state (x : state) :
  bounded within_limits (update_actuator (set_state x)) any.
Proof. now apply bounded_update_actuator. Qed.

Lemma bounded_set_state_of (f : Actuator -> state) :
  bounded within_limits (update_actuator (fun a => set_state (f a) a)) any.
Proof. now apply bounded_update_actuator. Qed.

Lemma bounded_set_switchX (x : option switchX) :
  bounded within_limits (update_actuator (set_switchX x)) any.
Proof. now apply bounded_update_actuator. Qed.

Lemma bounded_set_Ifs (x : option ref) :
  bounded within_limits (update_actuator (set_Ifs x)) any.
Proof. now apply bounded_update_actuator. Qed.

Lemma bounded_set_hexpr f :
  bounded within_limits (update_heap (set_hexpr f)) any.
Proof. apply bounded_update_heap. intros. now apply heap_ok_expr. Qed.

Lemma bounded_set_hbools f :
  bounded within_limits (update_heap (set_hbools f)) any.
Proof. apply bounded_update_heap. intros. now apply heap_ok_bools. Qed.

Lemma bounded_set_hglobals f :
  bounded within_limits (update_heap (set_hglobals f)) any.
Proof. apply bounded_update_heap. intros. now apply heap_ok_globals. Qed.

#[local] Hint Resolve bounded_StackTop bounded_StackTops bounded_StackSize
  bounded_ArgsSize bounded_set_state bounded_set_state_of
  bounded_set_switchX bounded_set_Ifs bounded_set_hexpr bounded_set_hbools
  bounded_set_hglobals : bounded.

Lemma bounded_Revert : bounded within_limits Revert any.
Proof. unfold Revert. bounded_auto. Qed.

Lemma bounded_Change : bounded within_limits Change any.
Proof. unfold Change. bounded_auto. Qed.

Lemma bounded_set_BackTo (to : Z) : bounded within_limits (set_BackTo to) any.
Proof. unfold set_BackTo. bounded_auto. Qed.

Lemma bounded_set_FromStack (b : bool) :
  bounded within_limits (set_FromStack b) any.
Proof. unfold set_FromStack. bounded_auto. Qed.

#[local] Hint Resolve bounded_Revert bounded_Change bounded_set_BackTo
  bounded_set_FromStack : bounded.

Lemma bounded_the_gotos : bounded within_limits the_gotos any.
Proof. unfold the_gotos. bounded_auto. Qed.

Lemma bounded_the_jumps : bounded within_limits the_jumps any.
Proof. unfold the_jumps. bounded_auto. Qed.

Lemma bounded_IncrGoto : bounded within_limits IncrGoto any.
Proof.
  unfold IncrGoto.
  eapply bounded_bind; [ apply bounded_the_gotos | intros r _ ].
  eapply bounded_bind;
    [ apply (bounded_deref hgotos (fun n => n <= GotoMax)), heap_ok_goto_cells
    | intros n Hn ].
  destruct (GotoMax <=? n) eqn:E; [ apply bounded_fail | ].
  apply bounded_update_heap. intros h Hh. apply heap_ok_gotos; auto.
  apply Z.leb_gt in E. lia.
Qed.

Lemma bounded_IncrJump : bounded within_limits IncrJump any.
Proof.
  unfold IncrJump.
  eapply bounded_bind; [ apply bounded_the_jumps | intros r _ ].
  eapply bounded_bind;
    [ apply (bounded_deref hjumps (fun n => n <= JumpMax)), heap_ok_jump_cells
    | intros n Hn ].
  destruct (JumpMax <=? n) eqn:E; [ apply bounded_fail | ].
  apply bounded_update_heap. intros h Hh. apply heap_ok_jumps; auto.
  apply Z.leb_gt in E. lia.
Qed.

Lemma bounded_new_expr : bounded within_limits new_expr any.
Proof. unfold new_expr. bounded_auto. Qed.

Lemma bounded_new_bool : bounded within_limits new_bool any.
Proof. unfold new_bool. bounded_auto. Qed.

Lemma bounded_new_global : bounded within_limits new_global any.
Proof. unfold new_global. bounded_auto. Qed.

Lemma bounded_scopeNew : bounded within_limits scopeNew any.
Proof.
  unfold scopeNew.
  eapply bounded_bind; [ apply bounded_the_spaces | intros sp _ ].
  eapply bounded_bind; [ apply bounded_the_heap | intros h _ ].
  eapply bounded_bind; [ | intros; now apply bounded_ret ].
  apply bounded_update_heap. intros h' Hh'.
  apply heap_ok_new_spaces; auto. simpl. unfold zlen, StackMax. simpl. lia.
Qed.

#[local] Hint Resolve bounded_the_gotos bounded_the_jumps bounded_IncrGoto
  bounded_IncrJump bounded_new_expr bounded_new_bool bounded_new_global
  bounded_scopeNew : bounded.

Lemma bounded_newSwitch tg cs : bounded within_limits (newSwitch tg cs) any.
Proof. unfold newSwitch. bounded_auto. Qed.

Lemma bounded_caseIn sc : bounded within_limits (caseIn sc) any.
Proof. unfold caseIn. bounded_auto. Qed.

Lemma bounded_jumpNew c : bounded within_limits (jumpNew c) any.
Proof. unfold jumpNew. bounded_auto. Qed.

Lemma bounded_the_switch : bounded within_limits the_switch any.
Proof. unfold the_switch. bounded_auto. Qed.

Lemma bounded_fromScript : bounded within_limits fromScript any.
Proof. unfold fromScript. bounded_auto. Qed.

#[local] Hint Resolve bounded_newSwitch bounded_caseIn bounded_jumpNew
  bounded_the_switch bounded_fromScript : bounded.

Lemma bounded_CasePass : bounded within_limits CasePass any.
Proof. unfold CasePass. bounded_auto. Qed.

Lemma bounded_CaseThrough b : bounded within_limits (CaseThrough b) any.
Proof. unfold CaseThrough. bounded_auto. Qed.

Lemma bounded_Fallthrough : bounded within_limits Fallthrough any.
Proof. unfold Fallthrough. bounded_auto. Qed.

Lemma bounded_SwitchReset : bounded within_limits SwitchReset any.
Proof. unfold SwitchReset. bounded_auto. Qed.

Lemma bounded_GlobalSet i x : bounded within_limits (GlobalSet i x) any.
Proof. unfold GlobalSet. bounded_auto. Qed.

Lemma bounded_GlobalValue i : bounded within_limits (GlobalValue i) any.
Proof. unfold GlobalValue. bounded_auto. Qed.

Lemma bounded_InExpr : bounded within_limits InExpr any.
Proof. unfold InExpr. bounded_auto. Qed.

Lemma bounded_ExprIn : bounded within_limits ExprIn any.
Proof. unfold ExprIn. bounded_auto. Qed.

Lemma bounded_ExprOut : bounded within_limits ExprOut any.
Proof. unfold ExprOut. bounded_auto. Qed.

(** A new executor starts with an empty scope. *)
Lemma scope_ok_child code sp cx sw ie gl :
  scope_ok (child code sp cx sw ie gl).
Proof. unfold scope_ok, zlen, ScopeMax. simpl. lia. Qed.

Ltac bounded_child :=
  repeat (eapply bounded_bind; [ solve [ eauto 3 with bounded ] | intros ? ? ]);
  apply bounded_ret, scope_ok_child.

Lemma bounded_BlockNew code : bounded within_limits (BlockNew code) scope_ok.
Proof. unfold BlockNew. bounded_child. Qed.

Lemma bounded_SwitchNew code tg cs :
  bounded within_limits (SwitchNew code tg cs) scope_ok.
Proof. unfold SwitchNew. bounded_child. Qed.

Lemma bounded_CaseNew code : bounded within_limits (CaseNew code) scope_ok.
Proof. unfold CaseNew. bounded_child. Qed.

Lemma bounded_ScriptNew code : bounded within_limits (ScriptNew code) scope_ok.
Proof. unfold ScriptNew. bounded_child. Qed.

Lemma bounded_EmbedNew code : bounded within_limits (EmbedNew code) scope_ok.
Proof. unfold EmbedNew. bounded_child. Qed.

Lemma bounded_ExprNew code : bounded within_limits (ExprNew code) scope_ok.
Proof. unfold ExprNew. bounded_child. Qed.

Lemma bounded_scope_put vs : bounded within_limits (scope_put vs) any.
Proof.
  unfold scope_put.
  eapply bounded_bind; [ apply bounded_actuator | intros a Ha ].
  eapply bounded_bind; [ apply bounded_lift | intros s Hs ].
  apply bounded_update_actuator. intros a' _.
  unfold scope_ok. simpl. now apply scope_add_bound in Hs.
Qed.

#[local] Hint Resolve bounded_CasePass bounded_CaseThrough
  bounded_Fallthrough bounded_SwitchReset bounded_GlobalSet
  bounded_GlobalValue bounded_InExpr bounded_ExprIn bounded_ExprOut
  bounded_BlockNew bounded_SwitchNew bounded_CaseNew bounded_ScriptNew
  bounded_EmbedNew bounded_ExprNew bounded_scope_put : bounded.

Lemma bounded_Arguments n : bounded within_limits (Arguments n) any.
Proof. unfold Arguments. bounded_auto. Qed.

Lemma bounded_ReturnPut to vs : bounded within_limits (ReturnPut to vs) any.
Proof. unfold ReturnPut. bounded_auto. Qed.

Lemma bounded_Load k : bounded within_limits (xpool.Load k) any.
Proof. unfold xpool.Load. bounded_auto. Qed.

Lemma bounded_Store k x : bounded within_limits (xpool.Store k x) any.
Proof.
  unfold xpool.Store. destruct (xpool.hashable k); [ | apply bounded_fail ].
  apply bounded_update_heap. now intros h (H1 & H2 & H3).
Qed.

#[local] Hint Resolve bounded_Arguments bounded_ReturnPut bounded_Load
  bounded_Store : bounded.

Lemma bounded_Get h n i : bounded within_limits (xpool.Get h n i) any.
Proof. unfold xpool.Get. bounded_auto. Qed.

Lemma bounded_Ifs_store b : bounded within_limits (inst.Ifs_store b) any.
Proof. unfold inst.Ifs_store. bounded_auto. Qed.

Lemma bounded_Ifs_load : bounded within_limits inst.Ifs_load any.
Proof. unfold inst.Ifs_load. bounded_auto. Qed.

#[local] Hint Resolve bounded_Get bounded_Ifs_store bounded_Ifs_load
  : bounded.

Section CalcBounded.

Context {S : Type} (I : S -> Prop) (call : M S (Z * list value)).
Hypothesis Hcall : bounded I call any.

Let I' : expr.Calculor * S -> Prop := fun cs => I (snd cs).

Lemma bounded_do_call : bounded I' (expr.do_call call) any.
Proof.
  intros [c s] Hs. unfold expr.do_call. simpl.
  specialize (Hcall s Hs). destruct (call s); auto.
Qed.

Lemma bounded_set_calc n0 v0 : bounded I' (expr.set_calc n0 v0) any.
Proof. intros [c s] Hs. unfold any. simpl. auto. Qed.

Lemma bounded_code : bounded I' expr.code any.
Proof. intros [c s] Hs. unfold any. simpl. auto. Qed.

Lemma bounded_value : bounded I' expr.value any.
Proof. intros [c s] Hs. unfold any. simpl. auto. Qed.

#[local] Hint Resolve bounded_do_call bounded_set_calc bounded_code
  bounded_value : bounded.

Lemma bounded_next : bounded I' (expr.next call) any.
Proof. unfold expr.next. bounded_auto. Qed.

#[local] Hint Resolve bounded_next : bounded.

Lemma bounded_parsePrimary : bounded I' (expr.parsePrimary call) any.
Proof. unfold expr.parsePrimary. bounded_auto. Qed.

#[local] Hint Resolve bounded_parsePrimary : bounded.

Lemma bounded_parseUnary f : bounded I' (expr.parseUnary call f) any.
Proof.
  induction f as [| f IH]; simpl.
  - apply bounded_out_of_fuel.
  - bounded_auto.
Qed.

Lemma bounded_sameLevel parse f :
  (forall p, bounded I' (parse p) any) ->
  forall prec lhs, bounded I' (expr.sameLevel call parse f prec lhs) any.
Proof.
  intros Hp. induction f as [| f IH]; intros prec lhs; simpl.
  - apply bounded_out_of_fuel.
  - bounded_auto.
Qed.

Lemma bounded_levels parse f :
  (forall p, bounded I' (parse p) any) ->
  forall k prec lhs, bounded I' (expr.levels call parse f k prec lhs) any.
Proof.
  intros Hp k. induction k as [| k IH]; intros prec lhs; simpl.
  - now apply bounded_ret.
  - eapply bounded_bind; [ now apply bounded_sameLevel | intros x _ ].
    apply IH.
Qed.

Lemma bounded_parseBinary f :
  forall prec1, bounded I' (expr.parseBinary call f prec1) any.
Proof.
  induction f as [| f IH]; intros prec1; simpl.
  - apply bounded_out_of_fuel.
  - eapply bounded_bind; [ apply bounded_parseUnary | intros lhs _ ].
    eapply bounded_bind; [ apply bounded_code | intros c _ ].
    now apply bounded_levels.
Qed.

Lemma bounded_Calc f : bounded I (expr.Calc call f) any.
Proof.
  intros s Hs. unfold expr.Calc.
  match goal with
  | |- match match ?m ?x with _ => _ end with _ => _ end =>
      assert (Hm : bounded I' m any)
  end.
  { pose proof (bounded_parseBinary f 1).
    unfold expr.parseExpr. bounded_auto. }
  specialize (Hm ({| expr.n := 0; expr.v := 0%float |}, s) Hs).
  match goal with
  | |- match match ?r with _ => _ end with _ => _ end => destruct r
  end; auto.
Qed.

End CalcBounded.

Section HandlersBounded.

Variables (f : nat) (cr : X unit) (ic : X (list value)).
Hypothesis Hcr : bounded within_limits cr any.
Hypothesis Hic : bounded within_limits ic any.

Lemma bounded_execPart : bounded within_limits (inst.execPart cr) any.
Proof. unfold inst.execPart. bounded_auto. Qed.

Lemma bounded_runEmbed : bounded within_limits (inst.runEmbed cr) any.
Proof. unfold inst.runEmbed. bounded_auto. Qed.

Lemma bounded_exprNext : bounded within_limits (inst.exprNext ic) any.
Proof. unfold inst.exprNext. bounded_auto. Qed.

Lemma bounded_Calc_exprNext :
  bounded within_limits (expr.Calc (inst.exprNext ic) f) any.
Proof. apply bounded_Calc, bounded_exprNext. Qed.

(** Every handler of the table keeps the limits. *)
Lemma bounded___InstSet (c : Z) (x : inst.Instx) :
  entry (inst.__InstSet f cr ic) c = Some x ->
  forall aux data vs, bounded within_limits (inst.Call x aux data vs) any.
Proof.
  pose proof bounded_execPart. pose proof bounded_runEmbed.
  pose proof bounded_Calc_exprNext.
  unfold inst.__InstSet. cbn [entry].
  repeat match goal with
  | |- context [if ?k =? c then _ else _] =>
      destruct (k =? c);
      [ intros [= <-] aux data vs; cbn [inst.Call inst.mk] | ]
  end;
  try discriminate;
  unfold_handlers;
  bounded_auto.
Qed.

Lemma bounded_instCall_body :
  bounded within_limits (inst.instCall_body f cr ic) any.
Proof.
  unfold inst.instCall_body.
  eapply bounded_bind; [ apply bounded_actuator | intros a _ ].
  eapply bounded_bind; [ apply bounded_index | intros code _ ].
  eapply bounded_bind; [ apply bounded_index | intros c _ ].
  eapply (bounded_bind _ _ _
            (fun r => forall aux data vs,
                 bounded within_limits (inst.Call (fst r) aux data vs) any)).
  - unfold inst.instGet.
    destruct (icode.FN_X <=? c); [ apply bounded_unmodelled | ].
    destruct (entry (inst.__InstSet f cr ic) c) as [x |] eqn:E.
    + eapply bounded_bind; [ now apply (bounded_ret _ x (eq x)) | ].
      intros x' <-.
      destruct (instor.Get code); [ | apply bounded_unmodelled ].
      apply bounded_ret. simpl. now apply (bounded___InstSet c).
    + destruct (inst.assigned_elsewhere c).
      * intros s Hs. exact Logic.I.
      * eapply bounded_bind;
          [ now apply (bounded_ret _ _ (eq (inst.mk (fun _ _ _ => fail NilDeref) 0)))
          | ].
        intros x' <-.
        destruct (instor.Get code); [ | apply bounded_unmodelled ].
        apply bounded_ret. simpl. intros. apply bounded_fail.
  - intros [x ins] Hx. simpl in Hx.
    eapply bounded_bind; [ apply bounded_Arguments | intros vs _ ].
    apply Hx.
Qed.

End HandlersBounded.

Lemma bounded_putCall (ic : X (list value)) :
  bounded within_limits ic any -> bounded within_limits (inst.putCall ic) any.
Proof. intros H. unfold inst.putCall. bounded_auto. Qed.

(** [codeRun] and [instCall] keep the limits, at any fuel. *)
Lemma bounded_run (f : nat) :
  bounded within_limits (inst.codeRun f) any /\
  bounded within_limits (inst.instCall f) any.
Proof.
  induction f as [| f [Hcr Hic]].
  - split; apply bounded_out_of_fuel.
  - split; simpl.
    + pose proof (bounded_putCall _ Hic). bounded_auto.
    + now apply bounded_instCall_body.
Qed.

Lemma bounded_ScriptRun (f : nat) :
  bounded within_limits (inst.ScriptRun f) any.
Proof.
  destruct (bounded_run f) as [Hcr _].
  unfold inst.ScriptRun. bounded_auto.
Qed.

(** A fresh top-level executor is within the limits. *)
Lemma boot_within_limits (code : list Z) : within_limits (boot code).
Proof.
  unfold within_limits, boot, NewActuator, scope_ok, heap_ok. simpl.
  unfold zlen, ScopeMax, StackMax, GotoMax, JumpMax. simpl.
  repeat split; try lia; repeat constructor; simpl; lia.
Qed.

(** ** Argument acquisition *)

Lemma the_spaces_at (a : Actuator) (h : heap) (sp : spaces) :
  hspaces h !! spaces_ a = Some sp -> the_spaces (a, h) = Ok sp (a, h).
Proof.
  intros H. unfold the_spaces, actuator, deref, the_heap, bind, ret.
  cbn [fst snd]. now rewrite H.
Qed.

Lemma ArgsSize_at (a : Actuator) (h : heap) (sp : spaces) :
  hspaces h !! spaces_ a = Some sp ->
  ArgsSize (a, h) = Ok (zlen (args_ sp)) (a, h).
Proof.
  intros H. unfold ArgsSize, bind. now rewrite (the_spaces_at a h sp H).
Qed.

Lemma TakeArgs_at (a : Actuator) (h : heap) (sp : spaces) :
  hspaces h !! spaces_ a = Some sp ->
  TakeArgs (a, h) =
  Ok (args_ sp)
     (a, set_hspaces (fun l => <[spaces_ a := with_args [] sp]> l) h).
Proof.
  intros H. unfold TakeArgs, bind. now rewrite (the_spaces_at a h sp H).
Qed.

Lemma StackPops_at (a : Actuator) (h : heap) (sp : spaces) (n : Z) :
  hspaces h !! spaces_ a = Some sp ->
  StackPops n (a, h) =
  match pops (stack_ sp) n with
  | Done r =>
      Ok (fst r)
         (a, set_hspaces (fun l => <[spaces_ a := with_stack (snd r) sp]> l) h)
  | Raise f => Panic (Fault f) (a, h)
  end.
Proof.
  intros H. unfold StackPops, bind. rewrite (the_spaces_at a h sp H).
  now destruct (pops (stack_ sp) n).
Qed.

(** [pops] takes exactly the top [n] values, in stack order, when the
    stack holds that many, and faults otherwise. *)
Lemma pops_exact (s : stack) (n : Z) :
  0 <= n ->
  (n <= zlen s ->
     exists vs rest, s = rest ++ vs /\ zlen vs = n /\
                     pops s n = Done (vs, rest)) /\
  (zlen s < n -> pops s n = Raise (StackShort n)).
Proof.
  intros Hn. unfold pops. split; intros H.
  - destruct (zlen s - n <? 0) eqn:E1; [ apply Z.ltb_lt in E1; lia | ].
    destruct (n <? 0) eqn:E2; [ apply Z.ltb_lt in E2; lia | ].
    exists (drop (Z.to_nat (zlen s - n)) s), (take (Z.to_nat (zlen s - n)) s).
    repeat split.
    + now rewrite take_drop.
    + unfold zlen in *. rewrite length_drop. lia.
  - destruct (zlen s - n <? 0) eqn:E1; [ reflexivity | ].
    apply Z.ltb_ge in E1. lia.
Qed.

(** C1. [Arguments n], with [a] the size of the args region and [f] the
    from-stack flag: [n = 0] yields no arguments; [n < 0] takes and empties
    the args region; for [n > 0], if [f] is set or [a = 0] the arguments
    are popped from the data stack, exactly the top [n] values (a fault
    when the stack holds fewer); otherwise [a] must equal [n], the args
    region is taken and emptied, and any other [a] is the fatal
    argument-count mismatch. *)
Theorem Arguments_rule (n : Z) (a : Actuator) (h : heap) (sp : spaces) :
  hspaces h !! spaces_ a = Some sp ->
  let taken :=
    Ok (args_ sp)
       (a, set_hspaces (fun l => <[spaces_ a := with_args [] sp]> l) h) in
  let popped (vs rest : list value) :=
    Ok vs
       (a, set_hspaces (fun l => <[spaces_ a := with_stack rest sp]> l) h) in
  (n = 0 -> Arguments n (a, h) = Ok [] (a, h)) /\
  (n < 0 -> Arguments n (a, h) = taken) /\
  (0 < n -> FromStack (state_ a) = true \/ zlen (args_ sp) = 0 ->
     (n <= zlen (stack_ sp) ->
        exists vs rest, stack_ sp = rest ++ vs /\ zlen vs = n /\
                        Arguments n (a, h) = popped vs rest) /\
     (zlen (stack_ sp) < n ->
        Arguments n (a, h) = Panic (Fault (StackShort n)) (a, h))) /\
  (0 < n -> FromStack (state_ a) = false -> zlen (args_ sp) <> 0 ->
     (zlen (args_ sp) = n -> Arguments n (a, h) = taken) /\
     (zlen (args_ sp) <> n ->
        Arguments n (a, h) = Panic (Fault ArgsAmount) (a, h))).
Proof.
  intros Hsp taken popped. unfold Arguments.
  repeat split.
  - intros ->. reflexivity.
  - intros Hn.
    destruct (n =? 0) eqn:E0; [ apply Z.eqb_eq in E0; lia | ].
    destruct (n <? 0) eqn:E1; [ | apply Z.ltb_ge in E1; lia ].
    now apply TakeArgs_at.
  - intros Hle.
    destruct (n =? 0) eqn:E0; [ apply Z.eqb_eq in E0; lia | ].
    destruct (n <? 0) eqn:E1; [ apply Z.ltb_lt in E1; lia | ].
    destruct (proj1 (pops_exact (stack_ sp) n ltac:(lia)) Hle)
      as (vs & rest & Hs & Hlen & Hp).
    exists vs, rest. repeat split; auto.
    unfold bind at 1. unfold actuator. cbn [fst].
    unfold bind at 1. rewrite (ArgsSize_at a h sp Hsp).
    assert (Hc : FromStack (state_ a) || (zlen (args_ sp) =? 0) = true).
    { destruct H0 as [-> | ->]; [ reflexivity | apply orb_true_r ]. }
    rewrite Hc, (StackPops_at a h sp n Hsp), Hp. reflexivity.
  - intros Hlt.
    destruct (n =? 0) eqn:E0; [ apply Z.eqb_eq in E0; lia | ].
    destruct (n <? 0) eqn:E1; [ apply Z.ltb_lt in E1; lia | ].
    unfold bind at 1. unfold actuator. cbn [fst].
    unfold bind at 1. rewrite (ArgsSize_at a h sp Hsp).
    assert (Hc : FromStack (state_ a) || (zlen (args_ sp) =? 0) = true).
    { destruct H0 as [-> | ->]; [ reflexivity | apply orb_true_r ]. }
    rewrite Hc, (StackPops_at a h sp n Hsp).
    now rewrite (proj2 (pops_exact (stack_ sp) n ltac:(lia)) Hlt).
  - intros Heq.
    destruct (n =? 0) eqn:E0; [ apply Z.eqb_eq in E0; lia | ].
    destruct (n <? 0) eqn:E1; [ apply Z.ltb_lt in E1; lia | ].
    unfold bind at 1. unfold actuator. cbn [fst].
    unfold bind at 1. rewrite (ArgsSize_at a h sp Hsp).
    rewrite H0. apply Z.eqb_neq in H1. rewrite H1. cbn [orb].
    rewrite Heq, Z.eqb_refl. cbn [negb].
    now apply TakeArgs_at.
  - intros Hne.
    destruct (n =? 0) eqn:E0; [ apply Z.eqb_eq in E0; lia | ].
    destruct (n <? 0) eqn:E1; [ apply Z.ltb_lt in E1; lia | ].
    unfold bind at 1. unfold actuator. cbn [fst].
    unfold bind at 1. rewrite (ArgsSize_at a h sp Hsp).
    rewrite H0. apply Z.eqb_neq in H1. rewrite H1. cbn [orb].
    apply Z.eqb_neq in Hne. rewrite Hne. reflexivity.
Qed.

Lemma Arguments_rule_witness :
  hspaces (snd sample_args) !! spaces_ (fst sample_args)
  = Some {| stack_ := []; args_ := [VBool true]; bufin := []; bufout := [] |}
  /\ Arguments 1 sample_args
     = Ok [VBool true] (with_args_of [] (boot [icode.PASS])).
Proof.
  assert (H : hspaces (snd sample_args) !! spaces_ (fst sample_args)
              = Some {| stack_ := []; args_ := [VBool true];
                        bufin := []; bufout := [] |}) by reflexivity.
  split; [ exact H | ].
  destruct (Arguments_rule 1 _ _ _ H) as (_ & _ & _ & H4).
  apply H4; [ lia | reflexivity | vm_compute; discriminate | reflexivity ].
Defined.

(** ** Resource limits *)

Lemma IncrGoto_at (a : Actuator) (h : heap) (c : countx) (r : ref) (n : Z) :
  countx_ a = Some c -> gotos c = Some r -> hgotos h !! r = Some n ->
  IncrGoto (a, h) =
  if GotoMax <=? n then Panic (Fault GotosOver) (a, h)
  else Ok tt (a, set_hgotos (fun l => <[r := n + 1]> l) h).
Proof.
  intros Hc Hg Hn.
  unfold IncrGoto, the_gotos, actuator, deref, the_heap, bind, ret.
  cbn [fst snd]. rewrite Hc, Hg. cbn [fst snd]. rewrite Hn.
  now destruct (GotoMax <=? n).
Qed.

Lemma IncrJump_at (a : Actuator) (h : heap) (c : countx) (r : ref) (n : Z) :
  countx_ a = Some c -> jumps c = Some r -> hjumps h !! r = Some n ->
  IncrJump (a, h) =
  if JumpMax <=? n then Panic (Fault JumpsOver) (a, h)
  else Ok tt (a, set_hjumps (fun l => <[r := n + 1]> l) h).
Proof.
  intros Hc Hg Hn.
  unfold IncrJump, the_jumps, actuator, deref, the_heap, bind, ret.
  cbn [fst snd]. rewrite Hc, Hg. cbn [fst snd]. rewrite Hn.
  now destruct (JumpMax <=? n).
Qed.


(** ** Running on enough fuel *)

Lemma fuel_enough {S A} (m : nat -> M S A) :
  (forall f f', (f <= f')%nat -> approx (m f) (m f')) ->
  forall f s, m f s <> OutOfFuel ->
  forall f', (f <= f')%nat -> m f' s = m f s.
Proof.
  intros Hm f s N f' Hle.
  exact (approx_result _ _ s _ (Hm f f' Hle) eq_refl N).
Qed.

Lemma fuel_unique {S A} (m : nat -> M S A) :
  (forall f f', (f <= f')%nat -> approx (m f) (m f')) ->
  forall f s, m f s <> OutOfFuel ->
  forall f', m f' s = OutOfFuel \/ m f' s = m f s.
Proof.
  intros Hm f s N f'.
  destruct (Nat.le_gt_cases f f') as [Hle | Hgt].
  - right. now apply fuel_enough.
  - destruct (Hm f' f ltac:(lia) s) as [E | E]; auto.
Qed.

Lemma instCall_approx (f f' : nat) :
  (f <= f')%nat -> approx (inst.instCall f) (inst.instCall f').
Proof. intros H. now destruct (run_approx f f' H). Qed.

Lemma Calc_feed_approx (f f' : nat) :
  (f <= f')%nat -> approx (expr.Calc feed f) (expr.Calc feed f').
Proof. apply Calc_approx, approx_refl. Qed.

(** ** WITHIN on byte sequences *)

Lemma Compare_flip (a b : list Z) : inst.Compare a b = - inst.Compare b a.
Proof.
  revert b. induction a as [| x a IH]; intros [| y b]; simpl; try reflexivity.
  destruct (x <? y) eqn:E1, (y <? x) eqn:E2; try reflexivity.
  - apply Z.ltb_lt in E1, E2. lia.
  - apply IH.
Qed.

Lemma Revert_ok (s : machine) : exists s', Revert s = Ok tt s'.
Proof.
  unfold Revert, actuator, update_actuator, bind, ret.
  destruct (negb (changed (state_ (fst s)))); eauto.
Qed.

(** C10. WITHIN on three byte sequences answers false, whatever they are:
    the value is tested to be at least the lower bound and, at once, below
    that same lower bound; the upper bound is not looked at. *)
Theorem WITHIN_Bytes_false (x lo hi : list Z) (aux : list value)
  (data : value) (s : machine) :
  exists s', Revert s = Ok tt s' /\
    inst._WITHIN aux data [VBytes x; VBytes lo; VBytes hi] s
    = Ok [VBool false] s'.
Proof.
  destruct (Revert_ok s) as [s' E]. exists s'. split; [ exact E | ].
  unfold inst._WITHIN. unfold bind at 1. rewrite E.
  cbn -[inst.Compare Z.leb Z.ltb].
  destruct (inst.Compare lo x <=? 0) eqn:E1; [ | reflexivity ].
  cbn -[inst.Compare Z.leb Z.ltb].
  apply Z.leb_le in E1. rewrite Compare_flip in E1.
  destruct (inst.Compare x lo <? 0) eqn:E2; [ | reflexivity ].
  apply Z.ltb_lt in E2. lia.
Qed.

(** ** The script pool *)

(** C9 (what the code does). [Get] faults for every key and every pool:
    the key it builds is a byte slice, which [sync.Map] cannot hash; no
    cached code is returned, nothing is fetched and nothing is stored. *)
Theorem Get_faults (h n i : Z) (s : machine) :
  xpool.Get h n i s = Panic (Fault Unhashable) s.
Proof. reflexivity. Qed.

(** ** Global variables *)

Lemma GlobalSet_at (s : machine) (g : gmap Z value) (i : Z) (x : value) :
  hglobals (snd s) !! global (fst s) = Some g ->
  GlobalSet i x s
  = Ok tt (fst s, set_hglobals
                    (fun l => <[global (fst s) := <[i := x]> g]> l) (snd s)).
Proof.
  intros H. unfold GlobalSet, actuator, deref, the_heap, update_heap, bind, ret.
  cbn [fst snd]. now rewrite H.
Qed.

Lemma GlobalValue_at (s : machine) (g : gmap Z value) (i : Z) :
  hglobals (snd s) !! global (fst s) = Some g ->
  GlobalValue i s = Ok (default VNil (g !! i)) s.
Proof.
  intros H. unfold GlobalValue, actuator, deref, the_heap, bind, ret.
  cbn [fst snd]. now rewrite H.
Qed.

(** C7 (what the code does). SETVAR(n) stores nil, whatever its argument:
    the handler stores the instruction's associated data, which the
    decoder leaves nil, and does not look at the argument. VAR(n) after
    SETVAR(n) with argument [x] returns nil, in the same executor and in a
    child that shares the globals; so does the run of [SETVAR(3)] on
    [Int(42)]. *)
Theorem SETVAR_stores_nil :
  (forall (s : machine) (g : gmap Z value) (n : Z) (x : value),
     hglobals (snd s) !! global (fst s) = Some g ->
     exists s',
       (inst._SETVAR [VGoInt n] VNil [x] ;;; inst._VAR [VGoInt n] VNil []) s
       = Ok [VNil] s') /\
  (exists ins, instor.Get src_setvar = Some ins /\ Data ins = VNil) /\
  inst.instCall 2 before_setvar = Ok [] after_setvar /\
  stack_of after_setvar = [] /\
  (exists s', GlobalValue 3 after_setvar = Ok VNil s') /\
  (exists s', (a2 <- BlockNew [icode.VAR; 3] ;;
               as_actuator a2 (inst.instCall 2)) after_setvar
              = Ok [VNil] s').
Proof.
  split; [ | split; [ | split; [ | split; [ | split ] ] ] ].
  - intros s g n x Hg.
    destruct (Revert_ok s) as [s1 E1].
    assert (Hfst : forall t t', Revert t = Ok tt t' ->
                                global (fst t') = global (fst t) /\
                                snd t' = snd t).
    { intros t t'. unfold Revert, actuator, update_actuator, bind, ret.
      destruct (negb (changed (state_ (fst t)))); intros [= <-]; auto. }
    destruct (Hfst s s1 E1) as [Hg1 Hh1].
    assert (Hg' : hglobals (snd s1) !! global (fst s1) = Some g)
      by (now rewrite Hg1, Hh1).
    pose (s2 := (fst s1, set_hglobals
                   (fun l => <[global (fst s1) := <[n := VNil]> g]> l)
                   (snd s1))).
    destruct (Revert_ok s2) as [s3 E3].
    destruct (Hfst s2 s3 E3) as [Hg3 Hh3].
    assert (Hg3' : hglobals (snd s3) !! global (fst s3)
                   = Some (<[n := VNil]> g)).
    { rewrite Hg3, Hh3. unfold s2. cbn [fst snd set_hglobals hglobals].
      apply list_lookup_insert_eq. now apply lookup_lt_Some in Hg'. }
    exists s3.
    unfold inst._SETVAR, inst._VAR.
    unfold bind at 1. unfold bind at 1. rewrite E1.
    cbn -[GlobalSet GlobalValue Revert].
    unfold bind at 1. rewrite (GlobalSet_at s1 g n VNil Hg'). fold s2.
    cbn -[GlobalSet GlobalValue Revert s2].
    unfold bind at 1. rewrite E3.
    cbn -[GlobalSet GlobalValue Revert s2].
    unfold bind at 1.
    rewrite (GlobalValue_at s3 _ n Hg3'). now rewrite lookup_insert_eq.
  - eexists. split; reflexivity.
  - vm_compute. reflexivity.
  - vm_compute. reflexivity.
  - eexists. vm_compute. reflexivity.
  - eexists. vm_compute. reflexivity.
Qed.

(** ** Scripts run from their first instruction *)

(** Moves a run in the goal to the fuel [k], where it is evaluated. *)
Ltac at_fuel m Hm k :=
  match goal with
  | |- context [m ?fuel ?s] =>
      let N := fresh "N" in
      assert (N : m k s <> OutOfFuel) by (vm_compute; discriminate);
      rewrite (fuel_enough m Hm k s N fuel) by lia;
      clear N
  end;
  vm_compute.

(** No fuel takes a run that faulted at the fuel [k] to a normal end. *)
Lemma never_ok {S A} (m : nat -> M S A) (k : nat) (s : S) :
  (forall f f', (f <= f')%nat -> approx (m f) (m f')) ->
  result_of (m k s) = None -> m k s <> OutOfFuel ->
  forall fuel, result_of (m fuel s) = None.
Proof.
  intros Hm Hr N fuel.
  destruct (fuel_unique m Hm k s N fuel) as [E | E]; now rewrite E.
Qed.

(** C3 (what the code does). A CASE whose value differs from the target,
    with no fallthrough pending, raises Break without running its body,
    and the Break ends the switch. In a switch on [Int(2)] over the case
    values [Int(1)], [Int(2)] the first CASE raises Break, the SWITCH
    instruction returns with the data stack empty, and the body of the
    second CASE, which pushes [Int(9)], is not run. In the switch on
    [Int(1)] the body of the first CASE is run. *)
Theorem CASE_breaks_without_match :
  (forall fuel, (2 <= fuel)%nat ->
     panic_of (in_switch 2 (inst.instCall fuel) (boot []))
     = Some (Cease _BREAK_)) /\
  (forall fuel, (2 <= fuel)%nat ->
     stack_of <$> state_of (in_switch 2 (inst.instCall fuel) (boot []))
     = Some []) /\
  (forall fuel, (3 <= fuel)%nat ->
     result_of (inst.instCall fuel (switch_on 2)) = Some [] /\
     stack_of <$> state_of (inst.instCall fuel (switch_on 2)) = Some []) /\
  (forall fuel,
     stack_of <$> state_of (inst.instCall fuel (switch_on 2)) = Some [] \/
     inst.instCall fuel (switch_on 2) = OutOfFuel) /\
  (forall fuel, (300 <= fuel)%nat ->
     fault_of (inst.instCall fuel (switch_on 1)) = Some (StackOverflow 257) /\
     stack_of <$> state_of (inst.instCall fuel (switch_on 1))
     = Some (replicate 256 (VInt 7))).
Proof.
  assert (Hin : forall f f', (f <= f')%nat ->
            approx (in_switch 2 (inst.instCall f))
                   (in_switch 2 (inst.instCall f'))).
  { intros f f' Hle. unfold in_switch.
    pose proof (instCall_approx f f' Hle) as H. approx_auto. }
  split; [ | split; [ | split; [ | split ] ] ].
  - intros fuel Hle.
    rewrite (fuel_enough (fun f => in_switch 2 (inst.instCall f)) Hin 2%nat
               (boot []) ltac:(vm_compute; discriminate) fuel Hle).
    vm_compute. reflexivity.
  - intros fuel Hle.
    rewrite (fuel_enough (fun f => in_switch 2 (inst.instCall f)) Hin 2%nat
               (boot []) ltac:(vm_compute; discriminate) fuel Hle).
    vm_compute. reflexivity.
  - intros fuel Hle. split; at_fuel inst.instCall instCall_approx 3%nat;
      reflexivity.
  - intros fuel.
    destruct (fuel_unique inst.instCall instCall_approx 3%nat (switch_on 2)
                ltac:(vm_compute; discriminate) fuel) as [E | E].
    + now right.
    + left. rewrite E. vm_compute. reflexivity.
  - intros fuel Hle. split; at_fuel inst.instCall instCall_approx 300%nat;
      reflexivity.
Qed.

(** C4 (what the code does). The run of
    [TRUE IF{ Uint8(7) PUSH } ELSE{ Uint8(9) PUSH }] never ends normally:
    the executor's cursor does not move, TRUE is executed again and again,
    and the 257th push is the fatal stack overflow. IF itself, reached
    with [true] on the data stack of a fresh executor, faults: it writes
    through the [Ifs] pointer, which [NewActuator] leaves nil. *)
Theorem conditional_run_faults :
  (forall fuel, (258 <= fuel)%nat ->
     fault_of (inst.ScriptRun fuel (boot src_conditional))
     = Some (StackOverflow 257)) /\
  (forall fuel, result_of (inst.ScriptRun fuel (boot src_conditional)) = None) /\
  Ifs (fst (boot src_if_else)) = None /\
  (forall fuel, (1 <= fuel)%nat ->
     fault_of (inst.instCall fuel
                 (with_stack_of [VBool true] (boot src_if_else)))
     = Some NilDeref) /\
  (forall fuel,
     result_of (inst.ScriptRun fuel
                  (with_stack_of [VBool true] (boot src_if_else))) = None).
Proof.
  split; [ | split; [ | split; [ | split ] ] ].
  - intros fuel Hle. at_fuel inst.ScriptRun ScriptRun_approx 258%nat.
    reflexivity.
  - apply (never_ok inst.ScriptRun 258%nat); [ apply ScriptRun_approx | | ];
      vm_compute; [ reflexivity | discriminate ].
  - reflexivity.
  - intros fuel Hle. at_fuel inst.instCall instCall_approx 1%nat.
    reflexivity.
  - apply (never_ok inst.ScriptRun 2%nat); [ apply ScriptRun_approx | | ];
      vm_compute; [ reflexivity | discriminate ].
Qed.

(** ** EXIT and RETURN *)



(** ** Expressions *)

Lemma Calc_feed_fuel (f f' : nat) :
  (f <= f')%nat -> approx (Calc_feed f) (Calc_feed f').
Proof. apply Calc_feed_approx. Qed.


(** As [at_fuel], with the conversion of the operands to floats left
    folded: the operands are variables. *)
Ltac at_fuel_keeping m Hm k :=
  match goal with
  | |- context [m ?fuel ?s] =>
      let N := fresh "N" in
      assert (N : m k s <> OutOfFuel)
        by (lazy -[expr.float_of_Z]; discriminate);
      rewrite (fuel_enough m Hm k s N fuel) by lia;
      clear N
  end;
  lazy -[expr.float_of_Z].


(** ** The pattern-match driver *)

Section CheckDrive.

Variable modeler : Z -> model.Modeler.

(** What [Check_loop] returns is what the walk ends in. *)
Lemma Check_loop_drive (fuel : nat) :
  forall _s _m t d b t',
  model.Check_loop modeler fuel _s _m t = Ok (d, b) t' ->
  exists oks _s' _m',
    model.drive modeler _s _m t oks _s' _m' t' /\
    d = model.buffer t' /\
    b = forallb id oks && End _m' && End _s'.
Proof.
  induction fuel as [| fuel IH]; intros _s _m t d b t' H; [ discriminate | ].
  simpl in H. destruct (End _m) eqn:Em.
  - injection H as <- <- <-.
    exists [], _s, _m. split; [ now constructor | ].
    rewrite Em. now split.
  - unfold bind at 1 in H.
    destruct (Code _m) as [c |] eqn:Ec; [ | discriminate ].
    unfold bind at 1 in H.
    destruct (Bytes _s) as [s |] eqn:Es; [ | discriminate ].
    unfold bind at 1 in H.
    destruct (Bytes _m) as [m |] eqn:Eb; [ | discriminate ].
    unfold bind at 1 in H. cbn [index ret] in H.
    destruct (modeler c s m t) as [[[n1 n2] ok] t1 | | |] eqn:Ex;
      try discriminate.
    assert (Hstep : model.step modeler _s _m t n1 n2 ok s t1).
    { split; [ exact Em | ]. exists c, m. auto. }
    destruct (negb ok || End (Next _s n1)) eqn:Estop.
    + injection H as <- <- <-.
      exists [ok], (Next _s n1), (Next _m n2).
      split; [ | split; [ reflexivity | ] ].
      * eapply model.drive_stop; [ exact Hstep | ].
        destruct ok; [ right | left ]; auto.
      * destruct ok; simpl in *; [ rewrite Estop | ]; auto.
        now rewrite andb_true_r.
    + apply orb_false_iff in Estop as [Eok Eend].
      apply negb_false_iff in Eok. subst ok.
      unfold bind at 1, modify in H.
      apply IH in H as (oks & _s' & _m' & Hd & -> & ->).
      exists (true :: oks), _s', _m'.
      split; [ | split; reflexivity ].
      eapply model.drive_go; eauto.
Qed.

(** A walk of [k] steps is what [Check_loop] does on any fuel above
    [k]. *)
Lemma drive_Check_loop _s _m t oks _s' _m' t' :
  model.drive modeler _s _m t oks _s' _m' t' ->
  forall fuel, (length oks < fuel)%nat ->
  model.Check_loop modeler fuel _s _m t
  = Ok (model.buffer t', forallb id oks && End _m' && End _s') t'.
Proof.
  induction 1 as [_s _m t Em
                 | _s _m t n1 n2 ok s t' Hstep Hstop
                 | _s _m t n1 n2 s t' oks _s' _m' t'' Hstep Hend Hd IH];
    intros [| fuel] Hlt; simpl in Hlt; try lia.
  - simpl. rewrite Em. reflexivity.
  - destruct Hstep as (Em & c & m & Ec & Es & Eb & Ex).
    simpl. rewrite Em. unfold bind at 1. rewrite Ec.
    unfold bind at 1. rewrite Es. unfold bind at 1. rewrite Eb.
    unfold bind at 1. cbn [index ret]. rewrite Ex.
    destruct Hstop as [-> | Hend].
    + reflexivity.
    + rewrite Hend, orb_true_r.
      destruct ok; simpl; [ now rewrite andb_true_r | reflexivity ].
  - destruct Hstep as (Em & c & m & Ec & Es & Eb & Ex).
    simpl. rewrite Em. unfold bind at 1. rewrite Ec.
    unfold bind at 1. rewrite Es. unfold bind at 1. rewrite Eb.
    unfold bind at 1. cbn [index ret]. rewrite Ex.
    rewrite Hend. simpl. unfold bind at 1, modify.
    apply IH. lia.
Qed.

End CheckDrive.

(** C8. [Check] answers true exactly when the walk over the two streams
    ends with every processor having reported ok, the model consumed and
    the source at its end. Whatever [Check] returns is the conjunction of
    the three at the end of the walk, so a walk that ends with source
    left, or with model left, answers false; and every walk is what
    [Check] does on enough fuel. This holds for every table of
    processors. *)
Theorem Check_succeeds_iff (modeler : Z -> model.Modeler) (s m : list Z)
  (ver : Z) :
  ((exists fuel d t, model.Check modeler fuel s m ver = Ok (d, true) t) <->
   (exists oks _s' _m' t,
      model.drive modeler (NewScript s) (NewScript m) (model.State0 ver)
        oks _s' _m' t /\
      forallb id oks = true /\ End _m' = true /\ End _s' = true)) /\
  (forall fuel d b t,
     model.Check modeler fuel s m ver = Ok (d, b) t ->
     exists oks _s' _m',
       model.drive modeler (NewScript s) (NewScript m) (model.State0 ver)
         oks _s' _m' t /\
       d = model.buffer t /\
       b = forallb id oks && End _m' && End _s') /\
  (forall oks _s' _m' t,
     model.drive modeler (NewScript s) (NewScript m) (model.State0 ver)
       oks _s' _m' t ->
     forall fuel, (length oks < fuel)%nat ->
     model.Check modeler fuel s m ver
     = Ok (model.buffer t, forallb id oks && End _m' && End _s') t).
Proof.
  split; [ split | split ].
  - intros (fuel & d & t & H).
    apply Check_loop_drive in H as (oks & _s' & _m' & Hd & _ & Hb).
    exists oks, _s', _m', t. split; [ exact Hd | ].
    symmetry in Hb. apply andb_true_iff in Hb as [Hb ?].
    apply andb_true_iff in Hb as [? ?]. auto.
  - intros (oks & _s' & _m' & t & Hd & Hoks & Em & Es).
    exists (S (length oks)), (model.buffer t), t.
    unfold model.Check.
    rewrite (drive_Check_loop _ _ _ _ _ _ _ _ Hd) by lia.
    now rewrite Hoks, Em, Es.
  - intros fuel d b t H. now apply Check_loop_drive in H.
  - intros oks _s' _m' t Hd fuel Hlt. now apply drive_Check_loop.
Qed.

(** The model [_] against one source instruction matches; against two it
    fails, the model ending with source left; the model [_ _] against one
    source instruction fails, the source ending with model left. *)
Example Check_wildcard :
  result_of (model.Check wildcard_only 3 [icode.Uint8; 42]
               [icode.Wildcard] 0) = Some ([], true) /\
  result_of (model.Check wildcard_only 3
               [icode.Uint8; 42; icode.Uint8; 43]
               [icode.Wildcard] 0) = Some ([], false) /\
  result_of (model.Check wildcard_only 3 [icode.Uint8; 42]
               [icode.Wildcard; icode.Wildcard] 0) = Some ([], false) /\
  result_of (model.Check wildcard_only 3 [] [] 0) = Some ([], true).
Proof. repeat split. Qed.

(** * Further properties of the code *)

(** ** The data stack, the scope and the buffers *)

Lemma zlen_app {A} (l l' : list A) : zlen (l ++ l') = zlen l + zlen l'.
Proof. unfold zlen. rewrite length_app. lia. Qed.

Lemma zlen_nonneg {A} (l : list A) : 0 <= zlen l.
Proof. unfold zlen. lia. Qed.

Lemma zlookup_last {A} (l : list A) (x : A) :
  zlookup (l ++ [x]) (zlen l) = Some x.
Proof.
  unfold zlookup, zlen.
  destruct (Z.of_nat (length l) <? 0) eqn:E; [ apply Z.ltb_lt in E; lia | ].
  rewrite Nat2Z.id. apply list_lookup_middle. reflexivity.
Qed.

(** Within the limit [push] appends. *)
Lemma push_within (s : stack) (vs : list value) :
  zlen s + zlen vs <= StackMax -> push s vs = Done (s ++ vs).
Proof.
  intros H. unfold push.
  destruct (StackMax <? zlen s + zlen vs) eqn:E;
    [ apply Z.ltb_lt in E; lia | reflexivity ].
Qed.

(** [pops] and [tops] take what was appended last. *)
Lemma pops_app (rest vs : list value) :
  pops (rest ++ vs) (zlen vs) = Done (vs, rest).
Proof.
  pose proof (zlen_nonneg rest). pose proof (zlen_nonneg vs).
  unfold pops. rewrite zlen_app.
  replace (zlen rest + zlen vs - zlen vs) with (zlen rest) by lia.
  destruct (zlen rest <? 0) eqn:E1; [ apply Z.ltb_lt in E1; lia | ].
  destruct (zlen vs <? 0) eqn:E2; [ apply Z.ltb_lt in E2; lia | ].
  unfold zlen. rewrite Nat2Z.id.
  now rewrite drop_app_length, take_app_length.
Qed.

Lemma tops_app (rest vs : list value) :
  tops (rest ++ vs) (zlen vs) = Done vs.
Proof.
  pose proof (zlen_nonneg rest). pose proof (zlen_nonneg vs).
  unfold tops. rewrite zlen_app.
  destruct (zlen rest + zlen vs <? zlen vs) eqn:E1;
    [ apply Z.ltb_lt in E1; lia | ].
  destruct (zlen vs <? 0) eqn:E2; [ apply Z.ltb_lt in E2; lia | ].
  replace (zlen rest + zlen vs - zlen vs) with (zlen rest) by lia.
  unfold zlen. rewrite Nat2Z.id. now rewrite drop_app_length.
Qed.

(** X1. Within the limit, what [push] puts on the stack is what [pops]
    takes off it and what [tops] reads, in the same order, and the stack
    is back as it was. *)
Theorem push_then_pops (s : stack) (vs : list value) :
  zlen s + zlen vs <= StackMax ->
  push s vs = Done (s ++ vs) /\
  pops (s ++ vs) (zlen vs) = Done (vs, s) /\
  tops (s ++ vs) (zlen vs) = Done vs.
Proof.
  intros H. split; [ now apply push_within | ].
  split; [ apply pops_app | apply tops_app ].
Qed.

Lemma push_then_pops_witness :
  zlen [VInt 1] + zlen [VInt 2; VInt 3] <= StackMax /\
  pops ([VInt 1] ++ [VInt 2; VInt 3]) (zlen [VInt 2; VInt 3])
  = Done ([VInt 2; VInt 3], [VInt 1]).
Proof.
  split; [ vm_compute; discriminate | ].
  apply (push_then_pops [VInt 1] [VInt 2; VInt 3]).
  vm_compute; discriminate.
Defined.

(** X2. [pop] removes the value pushed last and [top] reads it without
    removing it; on the empty stack both fault. *)
Theorem pop_takes_the_last (s : stack) (x : value) :
  pop (s ++ [x]) = Done (x, s) /\
  top (s ++ [x]) = Done x /\
  (pop s = Raise StackEmpty <-> s = []) /\
  (top s = Raise StackEmpty <-> s = []).
Proof.
  pose proof (zlen_nonneg s) as Hs.
  assert (E : zlen (s ++ [x]) - 1 = zlen s)
    by (rewrite zlen_app; unfold zlen; simpl; lia).
  split; [ | split; [ | split ] ].
  - unfold pop. rewrite E.
    destruct (zlen s <? 0) eqn:E1; [ apply Z.ltb_lt in E1; lia | ].
    rewrite zlookup_last. unfold zlen. rewrite Nat2Z.id.
    now rewrite take_app_length.
  - unfold top. rewrite E.
    destruct (zlen s <? 0) eqn:E1; [ apply Z.ltb_lt in E1; lia | ].
    now rewrite zlookup_last.
  - split; [ | now intros -> ].
    destruct s as [| y s' ] using rev_ind; [ reflexivity | ].
    unfold pop. intros H. exfalso.
    replace (zlen (s' ++ [y]) - 1) with (zlen s') in H
      by (rewrite zlen_app; unfold zlen; simpl; lia).
    pose proof (zlen_nonneg s').
    destruct (zlen s' <? 0) eqn:E1; [ apply Z.ltb_lt in E1; lia | ].
    rewrite zlookup_last in H. discriminate.
  - split; [ | now intros -> ].
    destruct s as [| y s' ] using rev_ind; [ reflexivity | ].
    unfold top. intros H. exfalso.
    replace (zlen (s' ++ [y]) - 1) with (zlen s') in H
      by (rewrite zlen_app; unfold zlen; simpl; lia).
    pose proof (zlen_nonneg s').
    destruct (zlen s' <? 0) eqn:E1; [ apply Z.ltb_lt in E1; lia | ].
    rewrite zlookup_last in H. discriminate.
Qed.

(** X3. [pops n] and [tops n] fault alike, with the stack-height fault
    when the stack holds fewer than [n] values and with a run-time fault
    when [n] is negative; otherwise [pops] splits the stack into the
    rest and its top [n] values, which are what [tops] returns. *)
Theorem pops_splits_the_stack (s : stack) (n : Z) :
  (zlen s < n ->
     pops s n = Raise (StackShort n) /\ tops s n = Raise (StackShort n)) /\
  (n < 0 -> pops s n = Raise IndexRange /\ tops s n = Raise IndexRange) /\
  (0 <= n <= zlen s ->
     exists rest vs, s = rest ++ vs /\ zlen vs = n /\
                     pops s n = Done (vs, rest) /\ tops s n = Done vs).
Proof.
  pose proof (zlen_nonneg s) as Hs. unfold pops, tops.
  split; [ | split ].
  - intros H.
    destruct (zlen s - n <? 0) eqn:E1; [ | apply Z.ltb_ge in E1; lia ].
    destruct (zlen s <? n) eqn:E2; [ | apply Z.ltb_ge in E2; lia ].
    now split.
  - intros H.
    destruct (zlen s - n <? 0) eqn:E1; [ apply Z.ltb_lt in E1; lia | ].
    destruct (zlen s <? n) eqn:E2; [ apply Z.ltb_lt in E2; lia | ].
    destruct (n <? 0) eqn:E3; [ | apply Z.ltb_ge in E3; lia ].
    now split.
  - intros H.
    destruct (zlen s - n <? 0) eqn:E1; [ apply Z.ltb_lt in E1; lia | ].
    destruct (zlen s <? n) eqn:E2; [ apply Z.ltb_lt in E2; lia | ].
    destruct (n <? 0) eqn:E3; [ apply Z.ltb_lt in E3; lia | ].
    exists (take (Z.to_nat (zlen s - n)) s), (drop (Z.to_nat (zlen s - n)) s).
    repeat split.
    + now rewrite take_drop.
    + unfold zlen in *. rewrite length_drop. lia.
Qed.

(** X4. [ScopeItem] and [item] index from the front, and from the end
    when the index is negative: [-1] is the last entry, and the entry at
    [i] is also the entry at [i - len]. An index outside
    [[-len, len)] is a run-time fault. The entry that [add] appended
    last is the one at [-1]. *)
Theorem ScopeItem_indexes_both_ways (s : scope) (i : Z) :
  (0 <= i < zlen s ->
     exists v, s !! Z.to_nat i = Some v /\
               ScopeItem s i = Done v /\ ScopeItem s (i - zlen s) = Done v) /\
  (zlen s <= i \/ i < - zlen s -> ScopeItem s i = Raise IndexRange) /\
  item s i = ScopeItem s i /\
  (forall x s', scope_add s [x] = Done s' -> ScopeItem s' (-1) = Done x).
Proof.
  pose proof (zlen_nonneg s) as Hs. unfold item, ScopeItem.
  split; [ | split; [ | split ] ].
  - intros H.
    destruct (lookup_lt_is_Some_2 s (Z.to_nat i)) as [v Hv];
      [ unfold zlen in H; lia | ].
    exists v. split; [ exact Hv | ].
    destruct (i <? 0) eqn:E1; [ apply Z.ltb_lt in E1; lia | ].
    destruct (i - zlen s <? 0) eqn:E2; [ | apply Z.ltb_ge in E2; lia ].
    replace (i - zlen s + zlen s) with i by lia.
    unfold zlookup. rewrite E1, Hv. now split.
  - intros H. unfold zlookup.
    destruct (i <? 0) eqn:E1.
    + apply Z.ltb_lt in E1.
      destruct (i + zlen s <? 0) eqn:E2; [ reflexivity | ].
      apply Z.ltb_ge in E2. lia.
    + apply Z.ltb_ge in E1. rewrite (proj2 (Z.ltb_ge i 0) E1).
      rewrite lookup_ge_None_2; [ reflexivity | unfold zlen in H; lia ].
  - reflexivity.
  - intros x s'. unfold scope_add.
    destruct (ScopeMax <? zlen s + zlen [x]); [ discriminate | ].
    intros [= <-]. cbn [Z.ltb Z.compare].
    replace (-1 + zlen (s ++ [x])) with (zlen s)
      by (rewrite zlen_app; unfold zlen; simpl; lia).
    now rewrite zlookup_last.
Qed.

(** X5. A buffer is a queue: [pick n] takes the [n] oldest values and
    leaves the rest; [pick 0] takes everything, as [take] does; asking
    for more than the buffer holds is refused, and so is a negative
    count; what was pushed behind the values picked stays behind. *)
Theorem pick_is_first_in_first_out (b : buffer) (vs : list value) (n : Z) :
  pick b 0 = Picked b [] /\
  buffer_take b = (b, []) /\
  (0 < n <= zlen b ->
     exists v rest, b = v ++ rest /\ zlen v = n /\ pick b n = Picked v rest) /\
  (zlen b < n -> pick b n = BufferShort (zlen b) n) /\
  (n < 0 -> pick b n = PickFault IndexRange) /\
  (0 < zlen b -> pick (buffer_push b vs) (zlen b) = Picked b vs).
Proof.
  pose proof (zlen_nonneg b) as Hb.
  assert (Hpick : forall (l : buffer) k, 0 < k <= zlen l ->
            pick l k = Picked (take (Z.to_nat k) l) (drop (Z.to_nat k) l)).
  { intros l k Hk. unfold pick, slice_from, slice_.
    destruct (k =? 0) eqn:E0; [ apply Z.eqb_eq in E0; lia | ].
    destruct (zlen l <? k) eqn:E1; [ apply Z.ltb_lt in E1; lia | ].
    replace ((0 <=? 0) && (0 <=? k) && (k <=? zlen l)) with true
      by (symmetry; rewrite !andb_true_iff, !Z.leb_le; lia).
    replace ((0 <=? k) && (k <=? zlen l) && (zlen l <=? zlen l)) with true
      by (symmetry; rewrite !andb_true_iff, !Z.leb_le; lia).
    rewrite Z.sub_0_r. cbn [Z.to_nat drop].
    f_equal. apply take_ge. rewrite length_drop. unfold zlen in *. lia. }
  repeat match goal with |- _ /\ _ => split end; try reflexivity.
  - intros H. rewrite (Hpick b n H).
    exists (take (Z.to_nat n) b), (drop (Z.to_nat n) b).
    repeat split.
    + now rewrite take_drop.
    + unfold zlen in *. rewrite length_take. lia.
  - intros H. unfold pick.
    destruct (n =? 0) eqn:E0; [ apply Z.eqb_eq in E0; lia | ].
    destruct (zlen b <? n) eqn:E1; [ reflexivity | apply Z.ltb_ge in E1; lia ].
  - intros H. unfold pick, slice_.
    destruct (n =? 0) eqn:E0; [ apply Z.eqb_eq in E0; lia | ].
    destruct (zlen b <? n) eqn:E1; [ apply Z.ltb_lt in E1; lia | ].
    replace ((0 <=? 0) && (0 <=? n) && (n <=? zlen b)) with false;
      [ reflexivity | ].
    symmetry. apply andb_false_iff. left. apply andb_false_iff. right.
    apply Z.leb_gt. lia.
  - intros H. unfold buffer_push. rewrite Hpick.
    + unfold zlen. rewrite Nat2Z.id.
      now rewrite take_app_length, drop_app_length.
    + rewrite zlen_app. pose proof (zlen_nonneg vs). lia.
Qed.

(** ** The cursor of an executor *)

Section Cursor.

Variable sc : Script.

Lemma cursor_actuator : bounded (cursor_at sc) actuator any.
Proof. intros s Hs. unfold any. simpl. auto. Qed.

Lemma cursor_the_heap : bounded (cursor_at sc) the_heap any.
Proof. intros s Hs. unfold any. simpl. auto. Qed.

Lemma cursor_update_heap (f : heap -> heap) :
  bounded (cursor_at sc) (update_heap f) any.
Proof. intros s Hs. unfold any, cursor_at in *. simpl. auto. Qed.

Lemma cursor_update_actuator (f : Actuator -> Actuator) :
  (forall a, Script_ (f a) = Script_ a) ->
  bounded (cursor_at sc) (update_actuator f) any.
Proof.
  intros Hf s Hs. unfold any, cursor_at in *. simpl. rewrite Hf. auto.
Qed.

Lemma cursor_deref {A} (sel : heap -> list A) (r : ref) :
  bounded (cursor_at sc) (deref sel r) any.
Proof.
  unfold deref.
  eapply bounded_bind; [ apply cursor_the_heap | intros h _ ].
  destruct (sel h !! r); [ now apply bounded_ret | apply bounded_unmodelled ].
Qed.

Lemma cursor_deref_ptr {A} (sel : heap -> list A) (p : option ref) :
  bounded (cursor_at sc) (deref_ptr sel p) any.
Proof. destruct p; [ apply cursor_deref | apply bounded_fail ]. Qed.

(** Whatever runs as another executor leaves the caller's executor as it
    is. *)
Lemma cursor_as_actuator {A} (a2 : Actuator) (m : X A) :
  bounded (cursor_at sc) (as_actuator a2 m) any.
Proof.
  intros s Hs. unfold as_actuator.
  destruct (m (a2, snd s)); unfold any, cursor_at in *; simpl; auto.
Qed.

#[local] Hint Resolve cursor_actuator cursor_the_heap cursor_update_heap
  cursor_deref cursor_deref_ptr cursor_as_actuator : bounded.
#[local] Hint Extern 1 (bounded (cursor_at _) (update_actuator _) _) =>
  apply cursor_update_actuator; intros; reflexivity : bounded.

(** Unfolds the operations of the executor down to reads and writes of
    the machine. *)
Ltac unfold_ibase :=
  unfold StackPush, StackPop, StackPops, StackTop, StackTops, StackSize,
    PutArgs, TakeArgs, ArgsSize, scopeNew, new_expr, new_bool, new_global,
    Revert, Change, set_BackTo, set_FromStack, IncrGoto, IncrJump, Gotos,
    Jumps, SetJumps, newCountx, jumpNew, newSwitch, caseIn, CasePass,
    CaseThrough, Fallthrough, SwitchReset, GlobalSet, GlobalValue, InExpr,
    ExprIn, ExprOut, BlockNew, SwitchNew, CaseNew, ScopeNew, LoopNew,
    fromScript, ScriptNew, EmbedNew, EvalNew, ExprNew, Arguments,
    scope_put, ReturnPut, inst.Ifs_store, inst.Ifs_load, xpool.Get,
    xpool.Load, xpool.Store;
  unfold the_gotos, the_jumps, the_switch, the_spaces, set_spaces,
    StackPops, TakeArgs, ArgsSize, StackPush, PutArgs, new_bool, new_expr,
    new_global, scopeNew, scope_put, fromScript, jumpNew, caseIn, newSwitch;
  unfold the_spaces, set_spaces, new_bool.

Lemma cursor_Arguments (n : Z) : bounded (cursor_at sc) (Arguments n) any.
Proof. unfold_ibase. bounded_auto. Qed.

Lemma cursor_ReturnPut (to : Z) (vs : list value) :
  bounded (cursor_at sc) (ReturnPut to vs) any.
Proof. unfold_ibase. bounded_auto. Qed.

Variables (f : nat) (cr : X unit) (ic : X (list value)).

(** No handler of the table moves the cursor of the executor it runs
    on: the blocks it runs, it runs as other executors. *)
Lemma cursor___InstSet (c : Z) (x : inst.Instx) :
  entry (inst.__InstSet f cr ic) c = Some x ->
  forall aux data vs, bounded (cursor_at sc) (inst.Call x aux data vs) any.
Proof.
  unfold inst.__InstSet. cbn [entry].
  repeat match goal with
  | |- context [if ?k =? c then _ else _] =>
      destruct (k =? c);
      [ intros [= <-] aux data vs; cbn [inst.Call inst.mk] | ]
  end;
  try discriminate;
  unfold_handlers; unfold_ibase;
  bounded_auto;
  match goal with
  | |- bounded _ (lift _) ?Q =>
      settle Q; eapply bounded_any; apply bounded_lift
  end.
Qed.

Lemma cursor_instCall_body :
  bounded (cursor_at sc) (inst.instCall_body f cr ic) any.
Proof.
  unfold inst.instCall_body.
  eapply bounded_bind; [ apply cursor_actuator | intros a _ ].
  eapply bounded_bind; [ apply bounded_index | intros code _ ].
  eapply bounded_bind; [ apply bounded_index | intros c _ ].
  eapply (bounded_bind _ _ _
            (fun r => forall aux data vs,
                 bounded (cursor_at sc) (inst.Call (fst r) aux data vs) any)).
  - unfold inst.instGet.
    destruct (icode.FN_X <=? c); [ apply bounded_unmodelled | ].
    destruct (entry (inst.__InstSet f cr ic) c) as [x |] eqn:E.
    + eapply bounded_bind; [ now apply (bounded_ret _ x (eq x)) | ].
      intros x' <-.
      destruct (instor.Get code); [ | apply bounded_unmodelled ].
      apply bounded_ret. simpl. now apply (cursor___InstSet c).
    + destruct (inst.assigned_elsewhere c).
      * intros s Hs. exact Logic.I.
      * eapply bounded_bind;
          [ now apply (bounded_ret _ _ (eq (inst.mk (fun _ _ _ => fail NilDeref) 0)))
          | ].
        intros x' <-.
        destruct (instor.Get code); [ | apply bounded_unmodelled ].
        apply bounded_ret. simpl. intros. apply bounded_fail.
  - intros [x ins] Hx. simpl in Hx.
    eapply bounded_bind; [ apply cursor_Arguments | intros vs _ ].
    apply Hx.
Qed.

Lemma cursor_putCall :
  bounded (cursor_at sc) ic any -> bounded (cursor_at sc) (inst.putCall ic) any.
Proof.
  intros H. pose proof cursor_ReturnPut. unfold inst.putCall.
  eapply bounded_bind; [ apply cursor_actuator | intros a _ ].
  eapply bounded_bind; [ exact H | intros vs _ ].
  apply cursor_ReturnPut.
Qed.

End Cursor.

Lemma cursor_instCall (sc : Script) (fuel : nat) :
  bounded (cursor_at sc) (inst.instCall fuel) any.
Proof.
  destruct fuel; simpl;
    [ apply bounded_out_of_fuel | apply cursor_instCall_body ].
Qed.

Lemma cursor_codeRun (sc : Script) (fuel : nat) :
  bounded (cursor_at sc) (inst.codeRun fuel) any.
Proof.
  induction fuel as [| fuel IH]; simpl.
  - apply bounded_out_of_fuel.
  - eapply bounded_bind; [ apply cursor_actuator | intros a _ ].
    destruct (End (Script_ a)); [ now apply bounded_ret | ].
    eapply bounded_bind;
      [ apply cursor_putCall, cursor_instCall | intros _ _; exact IH ].
Qed.

Lemma cursor_ScriptRun (sc : Script) (fuel : nat) :
  bounded (cursor_at sc) (inst.ScriptRun fuel) any.
Proof.
  unfold inst.ScriptRun. apply bounded_recover.
  - eapply bounded_bind; [ apply cursor_codeRun | intros _ _ ].
    now apply bounded_ret.
  - intros [ f | c | [ | ] d ];
      try apply bounded_throw; try apply bounded_fail.
    now apply bounded_ret.
Qed.

Lemma bounded_state_of {S A} (I : S -> Prop) (m : M S A) (Q : A -> Prop)
  (s s' : S) :
  bounded I m Q -> I s -> state_of (m s) = Some s' -> I s'.
Proof.
  intros Hm Hs. specialize (Hm s Hs).
  destruct (m s) as [x t | p t | | c]; simpl; intros [= <-]; tauto.
Qed.





(** ** Child executors: what they have in common with their parent *)

Lemma StackPush_at (a : Actuator) (h : heap) (sp : spaces) (vs : list value) :
  hspaces h !! spaces_ a = Some sp ->
  StackPush vs (a, h) =
  match push (stack_ sp) vs with
  | Done s' =>
      Ok tt (a, set_hspaces (fun l => <[spaces_ a := with_stack s' sp]> l) h)
  | Raise f => Panic (Fault f) (a, h)
  end.
Proof.
  intros H. unfold StackPush, bind. rewrite (the_spaces_at a h sp H).
  now destruct (push (stack_ sp) vs).
Qed.

Lemma StackData_at (a : Actuator) (h : heap) (sp : spaces) :
  hspaces h !! spaces_ a = Some sp -> StackData (a, h) = Ok (stack_ sp) (a, h).
Proof.
  intros H. unfold StackData, bind. now rewrite (the_spaces_at a h sp H).
Qed.

(** Projections and updates of the machine, computed. *)
Ltac heap_simpl :=
  cbn [fst snd state_of result_of fault_of panic_of fmap option_fmap
       option_map hspaces hgotos hjumps hexpr hbools hglobals hpool
       set_hspaces set_hgotos set_hjumps set_hexpr set_hbools set_hglobals
       spaces_ countx_ switchX_ global inExpr Script_ child
       gotos jumps through stack_ args_ with_stack with_args compose].

(** Runs the constructor of a child on a state given as a pair. *)
Ltac run_new :=
  unfold in_child, BlockNew, SwitchNew, CaseNew, ScopeNew, LoopNew,
    ScriptNew, EmbedNew, EvalNew, ExprNew, newSwitch, caseIn, jumpNew,
    scopeNew, new_expr, new_bool, new_global, fromScript, the_spaces,
    deref, actuator, the_heap, update_heap, bind, ret, fail, throw, index,
    as_actuator;
  heap_simpl.

(** Splits a statement about each constructor of a list. *)
Ltac each_child :=
  repeat (apply List.Forall_cons; [ | ]); [ .. | apply List.Forall_nil ].

Section Children.

Variables (a : Actuator) (h : heap) (sp : spaces) (sw : switchX)
  (cx : countx) (past : list Z).
Hypothesis Hsp : hspaces h !! spaces_ a = Some sp.
Hypothesis Hsw : switchX_ a = Some sw.
Hypothesis Hcx : countx_ a = Some cx.
Hypothesis Hpast : Past (Script_ a) = Some past.

Variables (code : list Z) (tg : value) (cs : list value).

Ltac run_child :=
  run_new;
  repeat (first [ rewrite Hsp | rewrite Hsw | rewrite Hcx | rewrite Hpast ];
          unfold ret; heap_simpl).

Lemma shared_stack (vs : list value) :
  zlen (stack_ sp) + zlen vs <= StackMax ->
  Forall (fun new =>
            stack_of <$> state_of (in_child new (StackPush vs) (a, h))
            = Some (stack_ sp ++ vs))
         (on_parent_spaces code tg cs).
Proof.
  intros Hle. pose proof (lookup_lt_Some _ _ _ Hsp) as Hlt.
  pose proof (push_within _ _ Hle) as Hpush.
  unfold on_parent_spaces. each_child; run_child;
    (erewrite StackPush_at; [ | heap_simpl; exact Hsp ]);
    rewrite Hpush; unfold stack_of; heap_simpl;
    (rewrite list_lookup_insert_eq by exact Hlt); reflexivity.
Qed.

Lemma own_stack (vs : list value) :
  zlen vs <= StackMax ->
  Forall (fun new =>
            stack_of <$> state_of (in_child new (StackPush vs) (a, h))
            = Some (stack_ sp) /\
            result_of (in_child new (StackPush vs ;;; StackData) (a, h))
            = Some vs)
         (on_own_spaces code).
Proof.
  intros Hle. pose proof (lookup_lt_Some _ _ _ Hsp) as Hlt.
  assert (Hpush : push [] vs = Done ([] ++ vs))
    by (apply push_within; unfold zlen at 1; simpl; lia).
  unfold on_own_spaces. each_child; split; run_child;
    (erewrite StackPush_at;
       [ | heap_simpl; apply list_lookup_middle; reflexivity ]);
    heap_simpl; rewrite Hpush; heap_simpl;
    first [ unfold stack_of; heap_simpl;
            rewrite list_lookup_insert_ne by lia;
            rewrite lookup_app_l by lia;
            unfold ref in *; now rewrite Hsp
          | (erewrite StackData_at;
               [ | heap_simpl; rewrite list_lookup_insert_eq;
                   [ reflexivity | rewrite length_app; simpl; lia ] ]);
            reflexivity ].
Qed.

Variables (g : gmap Z value).
Hypothesis Hg : hglobals h !! global a = Some g.

Lemma shared_globals (i : Z) (x : value) :
  Forall (fun new =>
            result_of ((in_child new (GlobalSet i x) ;;; GlobalValue i) (a, h))
            = Some x)
         (on_parent_globals code tg cs).
Proof.
  pose proof (lookup_lt_Some _ _ _ Hg) as Hlt.
  unfold on_parent_globals. each_child; unfold bind at 1; run_child;
    (erewrite (GlobalSet_at (_, _)); [ | heap_simpl; exact Hg ]);
    heap_simpl;
    (erewrite (GlobalValue_at (_, _));
       [ | heap_simpl; rewrite list_lookup_insert_eq by exact Hlt;
           reflexivity ]);
    heap_simpl; now rewrite lookup_insert_eq.
Qed.

Lemma own_globals (i : Z) (x : value) :
  Forall (fun new =>
            result_of ((in_child new (GlobalSet i x) ;;; GlobalValue i) (a, h))
            = Some (default VNil (g !! i)) /\
            result_of (in_child new (GlobalValue i) (a, h)) = Some VNil)
         (on_own_globals code).
Proof.
  pose proof (lookup_lt_Some _ _ _ Hg) as Hlt.
  unfold on_own_globals. each_child; split; try unfold bind at 1; run_child.
  all: first
    [ (erewrite (GlobalSet_at (_, _));
         [ | heap_simpl; apply list_lookup_middle; reflexivity ]);
      heap_simpl;
      (erewrite (GlobalValue_at (_, _));
         [ reflexivity
         | heap_simpl; rewrite list_lookup_insert_ne by lia;
           rewrite lookup_app_l by lia; unfold ref in *; exact Hg ])
    | (erewrite (GlobalValue_at (_, _));
         [ | heap_simpl; apply list_lookup_middle; reflexivity ]);
      reflexivity ].
Qed.

Variables (rg rj : ref) (n k : Z).
Hypothesis Hrg : gotos cx = Some rg.
Hypothesis Hrj : jumps cx = Some rj.
Hypothesis Hn : hgotos h !! rg = Some n.
Hypothesis Hk : hjumps h !! rj = Some k.

Lemma shared_counters :
  Forall (fun new =>
            fault_of (in_child new IncrGoto (a, h)) = fault_of (IncrGoto (a, h))
            /\ (hgotos ∘ snd) <$> state_of (in_child new IncrGoto (a, h))
               = (hgotos ∘ snd) <$> state_of (IncrGoto (a, h))
            /\ fault_of (in_child new IncrJump (a, h))
               = fault_of (IncrJump (a, h))
            /\ (hjumps ∘ snd) <$> state_of (in_child new IncrJump (a, h))
               = (hjumps ∘ snd) <$> state_of (IncrJump (a, h)))
         (on_parent_counters code tg cs).
Proof.
  rewrite (IncrGoto_at a h cx rg n Hcx Hrg Hn).
  rewrite (IncrJump_at a h cx rj k Hcx Hrj Hk).
  unfold on_parent_counters. each_child;
    repeat match goal with |- _ /\ _ => split end; run_child;
    first [ erewrite (IncrGoto_at _ _ cx rg n);
            [ | heap_simpl; reflexivity | exact Hrg | heap_simpl; exact Hn ];
            now destruct (GotoMax <=? n)
          | erewrite (IncrJump_at _ _ cx rj k);
            [ | heap_simpl; reflexivity | exact Hrj | heap_simpl; exact Hk ];
            now destruct (JumpMax <=? k) ].
Qed.

Lemma loop_counters :
  fault_of (in_child (LoopNew code) IncrGoto (a, h)) = Some NilDeref /\
  fault_of (in_child (LoopNew code) IncrJump (a, h))
  = fault_of (IncrJump (a, h)) /\
  (hjumps ∘ snd) <$> state_of (in_child (LoopNew code) IncrJump (a, h))
  = (hjumps ∘ snd) <$> state_of (IncrJump (a, h)).
Proof.
  rewrite (IncrJump_at a h cx rj k Hcx Hrj Hk).
  repeat match goal with |- _ /\ _ => split end; run_child.
  - reflexivity.
  - erewrite (IncrJump_at _ _ _ rj k);
      [ | heap_simpl; reflexivity | exact Hrj | heap_simpl; exact Hk ].
    now destruct (JumpMax <=? k).
  - erewrite (IncrJump_at _ _ _ rj k);
      [ | heap_simpl; reflexivity | exact Hrj | heap_simpl; exact Hk ].
    now destruct (JumpMax <=? k).
Qed.

Lemma no_counters :
  Forall (fun new =>
            fault_of (in_child new IncrGoto (a, h)) = Some NilDeref /\
            fault_of (in_child new IncrJump (a, h)) = Some NilDeref)
         (without_counters code).
Proof.
  unfold without_counters. each_child; split; run_child; reflexivity.
Qed.

End Children.







(** ** The switch object *)

(** X11. The bookkeeping of a switch. [CasePass] removes the first
    remaining case value, also when comparing it with the target faults;
    with no case value left it is an index fault. The executor of a case
    body has no case values, so a CASE directly in a case body is that
    index fault; it shares the fallthrough flag with the switch, so what
    FALLTHROUGH sets in the body the switch reads. After [SwitchReset]
    reading the flag is a nil-pointer fault. *)
Theorem switch_bookkeeping (s : machine) (sw : switchX) (r : ref) (b : bool)
  (code : list Z) :
  switchX_ (fst s) = Some sw ->
  through sw = Some r ->
  hbools (snd s) !! r = Some b ->
  let without_first :=
    (set_switchX (Some {| target := target sw; cases := drop 1 (cases sw);
                          through := through sw |}) (fst s), snd s) in
  CasePass s =
    match cases sw with
    | [] => Panic (Fault IndexRange) s
    | v :: _ =>
        match any_eq v (target sw) with
        | Done t => Ok t without_first
        | Raise f => Panic (Fault f) without_first
        end
    end /\
  fault_of (in_child (CaseNew code) CasePass s) = Some IndexRange /\
  (forall t,
     result_of ((in_child (CaseNew code) (CaseThrough t) ;;; Fallthrough) s)
     = Some t) /\
  fault_of ((SwitchReset ;;; Fallthrough) s) = Some NilDeref.
Proof.
  intros Hsw Hr Hb without_first. subst without_first.
  destruct s as [a h]. cbn [fst snd] in *.
  pose proof (lookup_lt_Some _ _ _ Hb) as Hlt.
  repeat match goal with |- _ /\ _ => split end.
  - unfold CasePass, the_switch, actuator, update_actuator, bind, ret.
    cbn [fst snd]. rewrite Hsw.
    destruct (cases sw) as [| v rest]; [ reflexivity | ].
    cbn [lookup list_lookup index ret].
    cbn [fst snd drop].
    now destruct (any_eq v (target sw)).
  - run_new. rewrite Hsw. heap_simpl. reflexivity.
  - intros t. unfold bind at 1. run_new. rewrite Hsw. heap_simpl.
    unfold CaseThrough, Fallthrough, the_switch, deref_ptr, deref, actuator,
      the_heap, update_heap, bind, ret.
    heap_simpl. rewrite Hr. heap_simpl. unfold ref in *. rewrite Hb.
    heap_simpl. rewrite Hsw, Hr. heap_simpl.
    now rewrite list_lookup_insert_eq by exact Hlt.
  - unfold SwitchReset, Fallthrough, the_switch, actuator, update_actuator,
      bind, ret.
    cbn [fst snd]. rewrite Hsw. reflexivity.
Qed.

Lemma switch_bookkeeping_witness :
  switchX_ (fst (switch_state [])) = Some first_switch /\
  fault_of (in_child (CaseNew []) CasePass (switch_state []))
  = Some IndexRange.
Proof.
  split; [ reflexivity | ].
  apply (switch_bookkeeping (switch_state []) first_switch 0%nat false []);
    reflexivity.
Defined.

(** ** Script identifiers *)

Lemma be_bytes_length (w : nat) (x : Z) : length (cbase.be_bytes w x) = w.
Proof. induction w as [| w IH]; simpl; [ reflexivity | now rewrite IH ]. Qed.

Lemma be_bytes_range (w : nat) (x : Z) :
  Forall (fun b => 0 <= b < 256) (cbase.be_bytes w x).
Proof.
  induction w as [| w IH]; simpl; constructor; [ | exact IH ].
  apply Z.mod_pos_bound. lia.
Qed.

Lemma be_bytes_mod (w : nat) (x y : Z) :
  cbase.be_bytes w x = cbase.be_bytes w y <->
  x mod 2 ^ (8 * Z.of_nat w) = y mod 2 ^ (8 * Z.of_nat w).
Proof.
  induction w as [| w IH].
  - simpl. rewrite !Z.mod_1_r. tauto.
  - cbn [cbase.be_bytes].
    assert (E : forall z,
              z mod 2 ^ (8 * Z.of_nat (S w))
              = z mod 2 ^ (8 * Z.of_nat w)
                + 2 ^ (8 * Z.of_nat w)
                  * ((z / 2 ^ (8 * Z.of_nat w)) mod 256)).
    { intros z.
      replace (2 ^ (8 * Z.of_nat (S w))) with (2 ^ (8 * Z.of_nat w) * 256).
      - apply Z.rem_mul_r; lia.
      - replace (8 * Z.of_nat (S w)) with (8 * Z.of_nat w + 8) by lia.
        rewrite Z.pow_add_r by lia. reflexivity. }
    rewrite (E x), (E y).
    assert (Hp : 0 < 2 ^ (8 * Z.of_nat w)) by (apply Z.pow_pos_nonneg; lia).
    pose proof (Z.mod_pos_bound x _ Hp).
    pose proof (Z.mod_pos_bound y _ Hp).
    split.
    + intros [= E1 E2]. apply IH in E2. now rewrite E1, E2.
    + intros H1.
      assert (E1 : (x / 2 ^ (8 * Z.of_nat w)) mod 256
                   = (y / 2 ^ (8 * Z.of_nat w)) mod 256) by nia.
      f_equal; [ exact E1 | ]. apply IH. nia.
Qed.

(** X12. A script identifier is ten bytes, and it identifies the triple
    up to the widths it is written in: two triples have the same
    identifier exactly when their heights and transaction positions agree
    modulo 2^32 and their script positions modulo 2^16. Within those
    ranges distinct triples have distinct identifiers; a height beyond
    32 bits has the identifier of a smaller one. *)
Theorem KeyID_identifies (h n i h' n' i' : Z) :
  length (cbase.KeyID h n i) = 10%nat /\
  Forall (fun b => 0 <= b < 256) (cbase.KeyID h n i) /\
  (cbase.KeyID h n i = cbase.KeyID h' n' i' <->
   h mod 2 ^ 32 = h' mod 2 ^ 32 /\ n mod 2 ^ 32 = n' mod 2 ^ 32 /\
   i mod 2 ^ 16 = i' mod 2 ^ 16) /\
  cbase.KeyID (h + 2 ^ 32) n i = cbase.KeyID h n i.
Proof.
  assert (Hiff : forall a b c a' b' c',
            cbase.KeyID a b c = cbase.KeyID a' b' c' <->
            a mod 2 ^ 32 = a' mod 2 ^ 32 /\ b mod 2 ^ 32 = b' mod 2 ^ 32 /\
            c mod 2 ^ 16 = c' mod 2 ^ 16).
  { intros a b c a' b' c'. unfold cbase.KeyID.
    pose proof (be_bytes_mod 4 a a') as H4a.
    pose proof (be_bytes_mod 4 b b') as H4b.
    pose proof (be_bytes_mod 2 c c') as H2.
    change (8 * Z.of_nat 4) with 32 in *.
    change (8 * Z.of_nat 2) with 16 in *.
    rewrite <- H4a, <- H4b, <- H2. split.
    - intros H.
      apply app_inj_1 in H as [E1 H]; [ | now rewrite !be_bytes_length ].
      apply app_inj_1 in H as [E2 E3]; [ | now rewrite !be_bytes_length ].
      auto.
    - intros (-> & -> & ->). reflexivity. }
  repeat match goal with |- _ /\ _ => split end.
  - unfold cbase.KeyID. now rewrite !length_app, !be_bytes_length.
  - unfold cbase.KeyID. rewrite !Forall_app.
    repeat split; apply be_bytes_range.
  - apply Hiff.
  - apply Hiff. repeat split.
    rewrite <- Z.add_mod_idemp_r by lia. rewrite Z.mod_same by lia.
    now rewrite Z.add_0_r.
Qed.

(** ** Scripts and instruction decoding *)

Lemma slice_ok {A} (l : list A) (lo hi : Z) :
  0 <= lo <= hi -> hi <= zlen l ->
  slice_ l lo hi = Some (take (Z.to_nat (hi - lo)) (drop (Z.to_nat lo) l)).
Proof.
  intros H1 H2. unfold slice_.
  replace ((0 <=? lo) && (lo <=? hi) && (hi <=? zlen l)) with true;
    [ reflexivity | ].
  symmetry. rewrite !andb_true_iff, !Z.leb_le. lia.
Qed.

Lemma slice_from_ok {A} (l : list A) (lo : Z) :
  0 <= lo <= zlen l -> slice_from l lo = Some (drop (Z.to_nat lo) l).
Proof.
  intros H. unfold slice_from. rewrite slice_ok by lia.
  f_equal. apply take_ge. rewrite length_drop. unfold zlen in *. lia.
Qed.

Lemma take_add {A} (l : list A) (a b : nat) :
  take (a + b) l = take a l ++ take b (drop a l).
Proof.
  revert l. induction a as [| a IH]; intros [| x l]; simpl;
    try reflexivity.
  - now destruct b.
  - now rewrite IH.
Qed.

(** X13. With the cursor inside the source, [Past] and [Bytes] split the
    source at the cursor, and [PastNull] and [Bytes] split [SourceNull];
    [End] holds exactly when nothing is left, and [Code] is the first
    byte left. [Next n] moves [n] bytes from what is left to what is
    past. [New] keeps the offset and forgets the NULL position, so on the
    copy [PastNull] is all of [Past]; [Reset] goes back to the whole
    source. *)
Theorem Script_splits_at_the_cursor (s : Script) (n : Z) :
  0 <= nullpos s <= offset s -> offset s <= zlen (source s) ->
  exists past rest,
    Past s = Some past /\ Bytes s = Some rest /\
    past ++ rest = Source s /\ zlen past = offset s /\
    (End s = true <-> rest = []) /\
    Code s = head rest /\
    (exists pn sn, PastNull s = Some pn /\ SourceNull s = Some sn /\
                   pn ++ rest = sn) /\
    (0 <= n <= zlen rest ->
       Bytes (Next s n) = Some (drop (Z.to_nat n) rest) /\
       Past (Next s n) = Some (past ++ take (Z.to_nat n) rest)) /\
    Past (New s) = Some past /\ PastNull (New s) = Some past /\
    Bytes (Reset s) = Some (Source s) /\ Past (Reset s) = Some [].
Proof.
  destruct s as [src off np]. cbn [nullpos offset source]. intros H1 H2.
  exists (take (Z.to_nat off) src), (drop (Z.to_nat off) src).
  unfold Past, Bytes, PastNull, SourceNull, Source, End, Code, Next, New,
    Reset.
  cbn [nullpos offset source].
  assert (Hlen : zlen (drop (Z.to_nat off) src) = zlen src - off)
    by (unfold zlen in *; rewrite length_drop; lia).
  repeat match goal with |- _ /\ _ => split end.
  - rewrite slice_ok by lia. now rewrite Z.sub_0_r.
  - now rewrite slice_from_ok by lia.
  - apply take_drop.
  - unfold zlen in *. rewrite length_take. lia.
  - rewrite Z.leb_le. split; intros H.
    + apply nil_length_inv. unfold zlen in *. rewrite length_drop. lia.
    + rewrite H in Hlen. unfold zlen in *. simpl in Hlen. lia.
  - unfold zlookup.
    destruct (off <? 0) eqn:E; [ apply Z.ltb_lt in E; lia | ].
    rewrite <- (Nat.add_0_r (Z.to_nat off)) at 1.
    rewrite <- lookup_drop. now destruct (drop (Z.to_nat off) src).
  - exists (take (Z.to_nat (off - np)) (drop (Z.to_nat np) src)),
           (drop (Z.to_nat np) src).
    rewrite slice_ok by lia. rewrite slice_from_ok by lia.
    repeat split.
    replace (Z.to_nat off) with (Z.to_nat np + Z.to_nat (off - np))%nat
      by lia.
    rewrite <- drop_drop. apply take_drop.
  - intros Hn. rewrite Hlen in Hn. split.
    + rewrite slice_from_ok by lia.
      rewrite drop_drop. do 2 f_equal. lia.
    + rewrite slice_ok by lia. rewrite Z.sub_0_r. cbn [Z.to_nat drop].
      f_equal. rewrite Z2Nat.inj_add by lia.
      apply take_add.
  - rewrite slice_ok by lia. now rewrite Z.sub_0_r.
  - rewrite slice_ok by lia. now rewrite Z.sub_0_r.
  - rewrite slice_from_ok by (pose proof (zlen_nonneg src); lia).
    reflexivity.
  - rewrite slice_ok by (pose proof (zlen_nonneg src); lia). reflexivity.
Qed.

Lemma Script_splits_at_the_cursor_witness :
  0 <= nullpos sample_script <= offset sample_script /\
  exists past rest,
    Past sample_script = Some past /\ Bytes sample_script = Some rest /\
    past ++ rest = Source sample_script.
Proof.
  split; [ vm_compute; split; discriminate | ].
  destruct (Script_splits_at_the_cursor sample_script 1)
    as (past & rest & H1 & H2 & H3 & _);
    [ vm_compute; split; discriminate | vm_compute; discriminate | ].
  exists past, rest. auto.
Defined.

Lemma uvarint_truncated (cs : list Z) :
  Forall (fun b => 128 <= b) cs ->
  forall i x s, i + zlen cs <= 10 -> uvarint_from cs i x s = (0, 0).
Proof.
  induction 1 as [| b cs Hb Hcs IH]; intros i x s Hi; [ reflexivity | ].
  cbn [uvarint_from].
  assert (Hlen : zlen (b :: cs) = 1 + zlen cs) by (unfold zlen; simpl; lia).
  pose proof (zlen_nonneg cs).
  destruct (i =? 10) eqn:E1; [ apply Z.eqb_eq in E1; lia | ].
  destruct (b <? 128) eqn:E2; [ apply Z.ltb_lt in E2; lia | ].
  apply IH. lia.
Qed.

Lemma slice_second {A} (c b : A) (rest : list A) :
  slice_ (c :: b :: rest) 1 2 = Some [b].
Proof.
  rewrite slice_ok; [ reflexivity | lia | unfold zlen; simpl; lia ].
Qed.

Lemma slice_from_second {A} (c : A) (l : list A) :
  slice_from (c :: l) 1 = Some l.
Proof.
  rewrite slice_from_ok; [ reflexivity | unfold zlen; simpl; lia ].
Qed.

Lemma Raw_instData1 (c b : Z) (rest : list Z) :
  entry __Pickes c = Some instData1 ->
  Raw (c :: b :: rest) = Some (mkInstor c [] (Some [b]) 2).
Proof.
  intros Hc. unfold Raw. change (zlookup (c :: b :: rest) 0) with (Some c).
  cbn [mbind option_bind]. rewrite Hc. unfold instData1.
  change (zlookup (c :: b :: rest) 0) with (Some c).
  cbn [mbind option_bind]. rewrite slice_second. reflexivity.
Qed.

Lemma Uvarint_one_byte (b : Z) (l : list Z) :
  0 <= b < 128 -> Uvarint (b :: l) = (b, 1).
Proof.
  intros Hb. unfold Uvarint. cbn [uvarint_from].
  replace (0 =? 10) with false by reflexivity.
  replace (b <? 128) with true by (symmetry; apply Z.ltb_lt; lia).
  replace (0 =? 9) with false by reflexivity. cbn [andb].
  rewrite Z.shiftl_0_r, Z.lor_0_l. f_equal.
  apply Z.mod_small. lia.
Qed.

Lemma Raw_instDataX_one_byte (c b : Z) (rest : list Z) :
  entry __Pickes c = Some instDataX -> 0 <= b < 128 ->
  Raw (c :: b :: rest) = Some (mkInstor c [] (Some [b]) 2).
Proof.
  intros Hc Hb. unfold Raw. change (zlookup (c :: b :: rest) 0) with (Some c).
  cbn [mbind option_bind]. rewrite Hc. unfold instDataX.
  change (zlookup (c :: b :: rest) 0) with (Some c).
  cbn [mbind option_bind]. rewrite slice_from_second.
  cbn [mbind option_bind]. rewrite (Uvarint_one_byte b rest Hb).
  cbn [snd Z.add Pos.add]. rewrite slice_second. reflexivity.
Qed.

Lemma Raw_instDataX_truncated (c : Z) (cs : list Z) :
  entry __Pickes c = Some instDataX ->
  Forall (fun b => 128 <= b) cs -> zlen cs <= 10 ->
  Raw (c :: cs) = Some (mkInstor c [] (Some []) 1).
Proof.
  intros Hc Hcs Hlen.
  assert (Hu : Uvarint cs = (0, 0))
    by (apply uvarint_truncated; [ exact Hcs | lia ]).
  unfold Raw. change (zlookup (c :: cs) 0) with (Some c).
  cbn [mbind option_bind]. rewrite Hc. unfold instDataX.
  change (zlookup (c :: cs) 0) with (Some c).
  cbn [mbind option_bind]. rewrite slice_from_second.
  cbn [mbind option_bind]. rewrite Hu. cbn [snd Z.add].
  rewrite slice_ok;
    [ reflexivity | lia
    | pose proof (zlen_nonneg cs); unfold zlen in *; simpl; lia ].
Qed.

(** Decodes [c :: l] with the parser [p] of [c]. *)
Ltac get_with p :=
  unfold Get;
  match goal with
  | |- context [zlookup (?c :: ?l) 0] =>
      change (zlookup (c :: l) 0) with (Some c);
      cbn [mbind option_bind];
      replace (entry __Parses c) with (Some p) by reflexivity
  end;
  unfold p.

(** X14. How the integer instructions decode. One byte [b] after
    [Uint8] is [Int(b)], after [Uint8n] it is [Int(-b)], after [Byte] it
    is the byte; the instruction is two bytes long. A variable-length
    integer of one byte below 128 decodes the same way. A
    variable-length integer that the source ends in the middle of, all
    its bytes being continuation bytes, decodes as [Int(0)] in an
    instruction of length one: the bytes that were to be its value are
    left in the stream. *)
Theorem Get_reads_integers (b : Z) (rest cs : list Z) :
  (Get (icode.Uint8 :: b :: rest)
   = Some (mkInsted icode.Uint8 [] (VInt b) 2) /\
   Get (icode.Uint8n :: b :: rest)
   = Some (mkInsted icode.Uint8n [] (VInt (- b)) 2) /\
   Get (icode.Byte :: b :: rest)
   = Some (mkInsted icode.Byte [] (VByte b) 2)) /\
  (0 <= b < 128 ->
     Get (icode.Uint63 :: b :: rest)
     = Some (mkInsted icode.Uint63 [] (VInt b) 2) /\
     Get (icode.Uint63n :: b :: rest)
     = Some (mkInsted icode.Uint63n [] (VInt (- b)) 2)) /\
  (Forall (fun c => 128 <= c) cs -> zlen cs <= 10 ->
     Get (icode.Uint63 :: cs) = Some (mkInsted icode.Uint63 [] (VInt 0) 1) /\
     Get (icode.Uint63n :: cs)
     = Some (mkInsted icode.Uint63n [] (VInt 0) 1)).
Proof.
  split; [ | split ].
  - repeat split.
    + get_with _Uint8. now rewrite Raw_instData1 by reflexivity.
    + get_with _Uint8n. now rewrite Raw_instData1 by reflexivity.
    + get_with _Byte. now rewrite Raw_instData1 by reflexivity.
  - intros Hb.
    assert (Hint : int_of_uint64 b = b).
    { unfold int_of_uint64.
      destruct (b <? 2 ^ 63) eqn:E; [ reflexivity | apply Z.ltb_ge in E; lia ]. }
    assert (Hneg : neg64 b = - b).
    { unfold neg64.
      destruct (b =? - 2 ^ 63) eqn:E; [ apply Z.eqb_eq in E; lia | reflexivity ]. }
    split.
    + get_with _Uint63. rewrite Raw_instDataX_one_byte by (reflexivity || lia).
      cbn [mbind option_bind data_of rData mkInstor default from_option id
           rCode rSize].
      rewrite (Uvarint_one_byte b [] Hb). cbn [fst]. now rewrite Hint.
    + get_with _Uint63n. rewrite Raw_instDataX_one_byte by (reflexivity || lia).
      cbn [mbind option_bind data_of rData mkInstor default from_option id
           rCode rSize].
      rewrite (Uvarint_one_byte b [] Hb). cbn [fst]. now rewrite Hint, Hneg.
  - intros Hcs Hlen. split.
    + get_with _Uint63.
      now rewrite (Raw_instDataX_truncated icode.Uint63 cs eq_refl Hcs Hlen).
    + get_with _Uint63n.
      now rewrite (Raw_instDataX_truncated icode.Uint63n cs eq_refl Hcs Hlen).
Qed.

(** X15. The raw view and the parsed view of an instruction agree: where
    [Raw] and [Get] both decode the bytes, they report the same opcode
    and the same length, so a walk by the one and a walk by the other
    stay in step. *)
Theorem Raw_and_Get_agree (code : list Z) (r : Instor) (i : Insted) :
  Raw code = Some r -> Get code = Some i ->
  Code_ i = rCode r /\ Size i = rSize r.
Proof.
  intros HR HG. pose proof HR as HR0.
  unfold Get in HG. unfold Raw in HR.
  destruct (zlookup code 0) as [c |] eqn:Ec; [ | discriminate ].
  cbn [mbind option_bind] in HG, HR.
  unfold __Parses in HG. cbn [entry] in HG.
  repeat match type of HG with
  | context [if ?k =? c then _ else _] =>
      destruct (Z.eqb_spec k c) as [<- | ?]
  end.
  all: try discriminate HG.
  all: try (cbv [_Uint8n _Uint8 _Uint63n _Uint63 _Byte _DATA8 parseArg1
                 parseArg1x parseArg2 parseArg1Code parseArgXCode] in HG;
            rewrite HR0 in HG;
            repeat (cbn [mbind option_bind] in HG;
                    match type of HG with
                    | context [mbind _ ?x] => destruct x
                    | context [match ?x with _ => _ end] => destruct x
                    end);
            cbn [mbind option_bind] in HG;
            try discriminate HG; injection HG as <-; split; reflexivity).
  all: try (replace (entry __Pickes icode.GOTO) with (Some instArg4_4_2) in HR
              by reflexivity;
            cbv [_GOTO instArg4_4_2] in HG, HR; rewrite Ec in HG, HR;
            repeat (cbn [mbind option_bind] in HG, HR;
                    match type of HG with
                    | context [mbind _ ?x] => destruct x
                    end);
            cbn [mbind option_bind] in HG, HR;
            try discriminate HG; injection HG as <-; injection HR as <-;
            split; reflexivity).
  all: try (replace (entry __Pickes icode.JUMP) with (Some instArg4_4_2) in HR
              by reflexivity;
            cbv [_JUMP _GOTO instArg4_4_2] in HG, HR; rewrite Ec in HG, HR;
            repeat (cbn [mbind option_bind] in HG, HR;
                    match type of HG with
                    | context [mbind _ ?x] => destruct x
                    end);
            cbn [mbind option_bind] in HG, HR;
            try discriminate HG; injection HG as <-; injection HR as <-;
            split; reflexivity).
  all: unfold __Pickes in HR; cbn [entry] in HR;
    repeat match type of HR with
    | context [if ?k =? ?c' then _ else _] =>
        destruct (Z.eqb_spec k c'); [ try contradiction | ]
    end.
  all: injection HG as <-; injection HR as <-; split; reflexivity.
Qed.

Lemma Raw_and_Get_agree_witness :
  Raw [icode.BLOCK; 2; 0; 0]
  = Some (mkInstor icode.BLOCK [[2]] (Some [0; 0]) 4) /\
  Size (mkInsted icode.BLOCK [VGoInt 2] (VBytes [0; 0]) 4)
  = rSize (mkInstor icode.BLOCK [[2]] (Some [0; 0]) 4).
Proof.
  split; [ reflexivity | ].
  apply (Raw_and_Get_agree [icode.BLOCK; 2; 0; 0]); reflexivity.
Defined.

(** ** The expression evaluator on chains of operators *)

Lemma next_operand (c : expr.Calculor) (x : Z) (rest : list (Z * list value)) :
  expr.next feed (c, operand x :: rest)
  = Ok true (reg icode.Uint8 (expr.float_of_Z x), rest).
Proof. reflexivity. Qed.

Lemma next_operator (c : expr.Calculor) (op : Z) (rest : list (Z * list value)) :
  0 <= op ->
  expr.next feed (c, operator op :: rest) = Ok true (reg op 0%float, rest).
Proof.
  intros H. unfold expr.next, expr.do_call, feed, operator, bind.
  cbn [snd fst]. 
  destruct (op <? 0) eqn:E; [ apply Z.ltb_lt in E; lia | ]. reflexivity.
Qed.

Lemma next_end (c : expr.Calculor) :
  expr.next feed (c, []) = Ok false (reg expr.exprEnd (expr.v c), []).
Proof. reflexivity. Qed.

Lemma precedence_operator (op p : Z) :
  expr.precedence op = p -> 0 < p ->
  0 <= op /\ (op =? expr.exprEnd) = false /\
  (op =? icode.Mul) || (op =? icode.Div) || (op =? icode.Add)
  || (op =? icode.Sub) = true.
Proof.
  unfold expr.precedence, expr._Mul, expr._Div, expr._Add, expr._Sub.
  intros H Hp.
  destruct (Z.eqb_spec op icode.Mul) as [-> | ?]; [ now repeat split | ].
  destruct (Z.eqb_spec op icode.Div) as [-> | ?]; [ now repeat split | ].
  destruct (Z.eqb_spec op icode.Add) as [-> | ?]; [ now repeat split | ].
  destruct (Z.eqb_spec op icode.Sub) as [-> | ?]; [ now repeat split | ].
  simpl in H. lia.
Qed.

(** After an operand, the next step leaves the evaluator at the rest of
    the chain. *)
Lemma next_after_operand (c : expr.Calculor) (l : list (Z * Z)) (p : Z) :
  Forall (fun ox => expr.precedence (fst ox) = p) l -> 0 < p ->
  exists b, expr.next feed (c, chain l) = Ok b (at_chain l (expr.v c)).
Proof.
  intros Hl Hp. destruct l as [| [op x] l'].
  - exists false. apply next_end.
  - exists true. apply Forall_cons in Hl as [Hop _].
    destruct (precedence_operator op p Hop Hp) as (H0 & _).
    unfold chain. cbn [map concat app fst snd at_chain].
    now apply next_operator.
Qed.

Lemma code_at_chain (l : list (Z * Z)) (v0 : float) (p : Z) :
  Forall (fun ox => expr.precedence (fst ox) = p) l -> 0 < p ->
  expr.precedence (expr.n (fst (at_chain l v0)))
  = match l with [] => 0 | _ => p end.
Proof.
  intros Hl Hp. destruct l as [| [op x] l']; [ reflexivity | ].
  apply Forall_cons in Hl as [Hop _]. exact Hop.
Qed.

Lemma parsePrimary_operand (x : Z) (l : list (Z * Z)) (p : Z) :
  Forall (fun ox => expr.precedence (fst ox) = p) l -> 0 < p ->
  exists v1,
  expr.parsePrimary feed (reg icode.Uint8 (expr.float_of_Z x), chain l)
  = Ok (expr.value_ (expr.float_of_Z x)) (at_chain l v1).
Proof.
  intros Hl Hp.
  destruct (next_after_operand (reg icode.Uint8 (expr.float_of_Z x)) l p Hl Hp)
    as [b Hb].
  eexists. unfold expr.parsePrimary, expr.code, expr.value.
  unfold bind at 1. cbn [fst snd reg expr.n expr.v].
  change (negb (icode.Uint8 =? expr.exprEnd)) with true. cbn iota.
  unfold bind at 1. cbn [fst snd reg expr.n expr.v].
  unfold bind at 1. rewrite Hb. reflexivity.
Qed.

Lemma parseUnary_operand (g : nat) (x : Z) (l : list (Z * Z)) (p : Z) :
  Forall (fun ox => expr.precedence (fst ox) = p) l -> 0 < p ->
  (1 <= g)%nat ->
  exists v1,
  expr.parseUnary feed g (reg icode.Uint8 (expr.float_of_Z x), chain l)
  = Ok (expr.value_ (expr.float_of_Z x)) (at_chain l v1).
Proof.
  intros Hl Hp Hg. destruct g as [| g]; [ lia | ].
  destruct (parsePrimary_operand x l p Hl Hp) as [v1 H1]. exists v1.
  cbn [expr.parseUnary]. unfold bind at 1, expr.code.
  cbn [fst snd reg expr.n expr.v].
  change ((icode.Uint8 =? expr._Add) || (icode.Uint8 =? expr._Sub)) with false.
  cbn iota. exact H1.
Qed.

(** The operand after an operator of precedence [p], parsed at
    precedence [p + 1]: the operand alone. *)
Lemma parseBinary_operand (g : nat) (x : Z) (l : list (Z * Z)) (p : Z) :
  Forall (fun ox => expr.precedence (fst ox) = p) l -> 0 < p ->
  (2 <= g)%nat ->
  exists v1,
  expr.parseBinary feed g (p + 1)
    (reg icode.Uint8 (expr.float_of_Z x), chain l)
  = Ok (expr.value_ (expr.float_of_Z x)) (at_chain l v1).
Proof.
  intros Hl Hp Hg. destruct g as [| g]; [ lia | ].
  destruct (parseUnary_operand g x l p Hl Hp ltac:(lia)) as [v1 H1].
  exists v1. cbn [expr.parseBinary]. unfold bind at 1. rewrite H1.
  unfold bind at 1, expr.code. cbn [fst snd].
  rewrite (code_at_chain l v1 p Hl Hp).
  replace (Z.to_nat (match l with [] => 0 | _ => p end - (p + 1) + 1))
    with 0%nat by (destruct l; lia).
  reflexivity.
Qed.

Lemma sameLevel_chain (g : nat) (p : Z) :
  (2 <= g)%nat -> 0 < p ->
  forall (l : list (Z * Z)) (f : nat) (lhs : expr._Expr) (v0 : float),
  Forall (fun ox => expr.precedence (fst ox) = p) l ->
  (length l < f)%nat ->
  exists v1,
  expr.sameLevel feed (expr.parseBinary feed g) f p lhs (at_chain l v0)
  = Ok (tree l lhs) (at_chain [] v1).
Proof.
  intros Hg Hp l. induction l as [| [op x] l IH]; intros f lhs v0 Hl Hf.
  - destruct f as [| f]; [ simpl in Hf; lia | ].
    exists v0. cbn [expr.sameLevel at_chain]. unfold bind at 1, expr.code.
    cbn [fst snd reg expr.n].
    replace (expr.precedence expr.exprEnd =? p) with false
      by (symmetry; apply Z.eqb_neq; change (expr.precedence expr.exprEnd) with 0; lia).
    reflexivity.
  - destruct f as [| f]; [ simpl in Hf; lia | ].
    apply Forall_cons in Hl as [Hop Hl]. cbn [fst] in Hop.
    destruct (parseBinary_operand g x l p Hl Hp Hg) as [v1 H1].
    destruct (IH f (expr.binary op lhs (expr.value_ (expr.float_of_Z x))) v1
                Hl ltac:(simpl in Hf; lia)) as [v2 H2].
    exists v2. cbn [expr.sameLevel at_chain fst snd].
    unfold bind at 1, expr.code. cbn [fst snd reg expr.n].
    rewrite Hop, Z.eqb_refl. cbn iota.
    unfold bind at 1. rewrite next_operand. cbn [negb]. cbn iota.
    unfold bind at 1. rewrite H1. exact H2.
Qed.

Lemma Eval_tree (l : list (Z * Z)) (p : Z) :
  Forall (fun ox => expr.precedence (fst ox) = p) l -> 0 < p ->
  forall (lhs : expr._Expr) (a : float),
  expr.Eval lhs = Done a ->
  expr.Eval (tree l lhs)
  = Done (fold_left
            (fun acc ox => arith (fst ox) acc (expr.float_of_Z (snd ox)))
            l a).
Proof.
  intros Hl Hp. induction Hl as [| [op x] l Hop Hl IH]; intros lhs a Ha;
    [ exact Ha | ].
  cbn [tree fold_left fst snd]. apply IH. cbn [fst] in Hop.
  destruct (precedence_operator op p Hop Hp) as (_ & _ & Hops).
  cbn [expr.Eval]. rewrite Ha. unfold arith, expr._Mul, expr._Div,
    expr._Add, expr._Sub.
  destruct (op =? icode.Mul); [ reflexivity | ].
  destruct (op =? icode.Div); [ reflexivity | ].
  destruct (op =? icode.Add); [ reflexivity | ].
  destruct (op =? icode.Sub); [ reflexivity | discriminate Hops ].
Qed.






(** ** Where return values go *)

Lemma PutArgs_at (a : Actuator) (h : heap) (sp : spaces) (vs : list value) :
  hspaces h !! spaces_ a = Some sp ->
  PutArgs vs (a, h)
  = Ok tt (a, set_hspaces
                (fun l => <[spaces_ a := with_args (args_ sp ++ vs) sp]> l) h).
Proof.
  intros H. unfold PutArgs, bind. now rewrite (the_spaces_at a h sp H).
Qed.

Lemma putCall_at (ic : X (list value)) (s : machine) :
  inst.putCall ic s
  = match ic s with
    | Ok vs s' => ReturnPut (BackTo (state_ (fst s))) vs s'
    | Panic p s' => Panic p s'
    | OutOfFuel => OutOfFuel
    | Unmodelled c => Unmodelled c
    end.
Proof. reflexivity. Qed.

Lemma Revert_at (a : Actuator) (h : heap) :
  Revert (a, h) = Ok tt (reverted a, h).
Proof.
  unfold Revert, reverted, actuator, update_actuator, bind, ret. cbn [fst snd].
  now destruct (changed (state_ a)).
Qed.

Lemma step_TRUE_at (a : Actuator) (h : heap) :
  step_TRUE (a, h)
  = ReturnPut (BackTo (state_ a)) [VBool true] (reverted a, h).
Proof.
  unfold step_TRUE. rewrite putCall_at. unfold inst._TRUE.
  unfold bind at 1. now rewrite Revert_at.
Qed.

Section Capture.

Variables (a : Actuator) (h : heap) (sp : spaces).
Hypothesis Hsp : hspaces h !! spaces_ a = Some sp.
Hypothesis Hstack : zlen (stack_ sp) < StackMax.
Hypothesis Hscope : zlen (scope_ a) < ScopeMax.

Lemma TRUE_to_stack (a' : Actuator) (h' : heap) (sp' : spaces) :
  spaces_ a' = spaces_ a ->
  hspaces h' !! spaces_ a = Some sp' -> stack_ sp' = stack_ sp ->
  state_ a' = state0 ->
  step_TRUE (a', h')
  = Ok tt (a',
           set_hspaces
             (fun l => <[spaces_ a :=
                           with_stack (stack_ sp ++ [VBool true]) sp']> l) h').
Proof.
  intros Ha Hsp' Hst Hto. rewrite step_TRUE_at. unfold reverted.
  rewrite Hto. cbn [changed state0 BackTo ReturnPut].
  change (StackFlag =? StackFlag) with true. cbn iota.
  rewrite (StackPush_at a' h' sp') by (rewrite Ha; exact Hsp').
  rewrite Ha, Hst.
  rewrite push_within by (unfold zlen at 2; simpl; lia).
  reflexivity.
Qed.

Lemma TRUE_to_args :
  step_TRUE (flagged ArgsFlag a, h)
  = Ok tt (set_state state0 a,
           set_hspaces
             (fun l => <[spaces_ a :=
                           with_args (args_ sp ++ [VBool true]) sp]> l) h).
Proof.
  rewrite step_TRUE_at.
  change (BackTo (state_ (flagged ArgsFlag a))) with ArgsFlag.
  cbn [ReturnPut]. change (ArgsFlag =? StackFlag) with false.
  change (ArgsFlag =? ArgsFlag) with true. cbn iota.
  change (reverted (flagged ArgsFlag a)) with (set_state state0 a).
  now rewrite (PutArgs_at (set_state state0 a) h sp) by exact Hsp.
Qed.

Lemma TRUE_to_scope :
  step_TRUE (flagged ScopeFlag a, h)
  = Ok tt (set_scope (scope_ a ++ [VBool true]) (set_state state0 a), h).
Proof.
  rewrite step_TRUE_at.
  change (BackTo (state_ (flagged ScopeFlag a))) with ScopeFlag.
  cbn [ReturnPut]. change (ScopeFlag =? StackFlag) with false.
  change (ScopeFlag =? ArgsFlag) with false.
  change (ScopeFlag =? ScopeFlag) with true. cbn iota.
  change (reverted (flagged ScopeFlag a)) with (set_state state0 a).
  unfold scope_put, actuator, update_actuator, bind, ret, lift.
  cbn [fst snd]. change (scope_ (set_state state0 a)) with (scope_ a).
  unfold scope_add.
  destruct (ScopeMax <? zlen (scope_ a) + zlen [VBool true]) eqn:E;
    [ apply Z.ltb_lt in E; unfold zlen at 2 in E; simpl in E; lia | ].
  reflexivity.
Qed.

Lemma capture_twice :
  (step_Capture ;;; step_TRUE ;;; step_TRUE) (a, h)
  = Ok tt (set_state state0 a,
           set_hspaces
             (fun l => <[spaces_ a :=
                           with_stack (stack_ sp ++ [VBool true])
                             (with_args (args_ sp ++ [VBool true]) sp)]> l)
             (set_hspaces
                (fun l => <[spaces_ a :=
                              with_args (args_ sp ++ [VBool true]) sp]> l)
                h)).
Proof.
  pose proof (lookup_lt_Some _ _ _ Hsp) as Hlen.
  unfold bind at 1.
  change (step_Capture (a, h)) with (Ok tt (flagged ArgsFlag a, h)).
  unfold bind at 1. rewrite TRUE_to_args.
  apply TRUE_to_stack; try reflexivity.
  cbn [hspaces set_hspaces]. now apply list_lookup_insert_eq.
Qed.

Lemma scope_add_twice :
  (step_ScopeAdd ;;; step_TRUE ;;; step_TRUE) (a, h)
  = Ok tt (set_scope (scope_ a ++ [VBool true]) (set_state state0 a),
           set_hspaces
             (fun l => <[spaces_ a :=
                           with_stack (stack_ sp ++ [VBool true]) sp]> l) h).
Proof.
  unfold bind at 1.
  change (step_ScopeAdd (a, h)) with (Ok tt (flagged ScopeFlag a, h)).
  unfold bind at 1. rewrite TRUE_to_scope.
  now apply TRUE_to_stack.
Qed.

End Capture.



(** ** The stack instructions *)

Lemma StackTops_at (a : Actuator) (h : heap) (sp : spaces) (n : Z) :
  hspaces h !! spaces_ a = Some sp ->
  StackTops n (a, h) =
  match tops (stack_ sp) n with
  | Done vs => Ok vs (a, h)
  | Raise f => Panic (Fault f) (a, h)
  end.
Proof.
  intros H. unfold StackTops, bind. rewrite (the_spaces_at a h sp H).
  now destruct (tops (stack_ sp) n).
Qed.

Lemma StackSize_at (a : Actuator) (h : heap) (sp : spaces) :
  hspaces h !! spaces_ a = Some sp ->
  StackSize (a, h) = Ok (zlen (stack_ sp)) (a, h).
Proof.
  intros H. unfold StackSize, bind. now rewrite (the_spaces_at a h sp H).
Qed.

Lemma spaces_reverted (a : Actuator) : spaces_ (reverted a) = spaces_ a.
Proof. unfold reverted. now destruct (changed (state_ a)). Qed.

Section StackInstructions.

Variables (a : Actuator) (h : heap) (sp : spaces) (rest vs : list value).
Hypothesis Hsp : hspaces h !! spaces_ a = Some sp.
Hypothesis Hto : BackTo (state_ a) = StackFlag.
Hypothesis Hst : stack_ sp = rest ++ vs.
Hypothesis Hmax : zlen (rest ++ vs) <= StackMax.

Lemma reverted_spaces : hspaces h !! spaces_ (reverted a) = Some sp.
Proof. now rewrite spaces_reverted. Qed.

(** The stack after a handler has left [st] on it and its return
    values [out] have been pushed. *)
Lemma pushed_back (st out : list value) (h' : heap) :
  hspaces h' !! spaces_ a = Some (with_stack st sp) ->
  zlen st + zlen out <= StackMax ->
  match ReturnPut StackFlag out (reverted a, h') with
  | Ok _ s' => Some (stack_of s')
  | _ => None
  end = Some (st ++ out).
Proof.
  intros Hh Hle. pose proof (lookup_lt_Some _ _ _ Hh) as Hlt.
  destruct out as [| x out ].
  - cbn [ReturnPut ret]. unfold stack_of. cbn [fst snd].
    rewrite spaces_reverted, Hh. cbn [stack_ with_stack].
    now rewrite app_nil_r.
  - cbn [ReturnPut]. change (StackFlag =? StackFlag) with true. cbn iota.
    rewrite (StackPush_at (reverted a) h' (with_stack st sp))
      by (now rewrite spaces_reverted).
    cbn [stack_ with_stack]. rewrite push_within by exact Hle.
    unfold stack_of. cbn [fst snd set_hspaces hspaces].
    rewrite spaces_reverted.
    now rewrite list_lookup_insert_eq by exact Hlt.
Qed.

Lemma same_spaces : hspaces h !! spaces_ a = Some (with_stack (rest ++ vs) sp).
Proof. rewrite Hsp, <- Hst. now destruct sp. Qed.

Lemma SHIFT_puts_back :
  stack_after (run_with inst._SHIFT [VGoInt (zlen vs)]) (a, h)
  = Some (rest ++ vs).
Proof.
  pose proof (lookup_lt_Some _ _ _ Hsp) as Hlt.
  unfold stack_after, run_with. rewrite putCall_at. cbn [fst]. rewrite Hto.
  unfold inst._SHIFT. unfold bind at 1. rewrite Revert_at.
  unfold bind at 1. cbn [inst.at_ lookup list_lookup index ret].
  unfold bind at 1. cbn [inst.asGoInt ret].
  rewrite (StackPops_at _ _ sp _ reverted_spaces), Hst, pops_app. cbn [fst snd].
  rewrite spaces_reverted.
  apply pushed_back.
  - cbn [hspaces set_hspaces]. now rewrite list_lookup_insert_eq by exact Hlt.
  - now rewrite <- zlen_app.
Qed.


(** What is common to the handlers: the state is restored, the attached
    parameter is read as an [int]. *)
Ltac enter_handler w :=
  unfold stack_after, run_with; rewrite putCall_at; cbn [fst]; rewrite Hto;
  unfold w; unfold bind at 1; rewrite Revert_at;
  unfold bind at 1; cbn [inst.at_ lookup list_lookup index ret];
  unfold bind at 1; cbn [inst.asGoInt ret].

Lemma CLONE_doubles :
  zlen (rest ++ vs) + zlen vs <= StackMax ->
  stack_after (run_with inst._CLONE [VGoInt (zlen vs)]) (a, h)
  = Some ((rest ++ vs) ++ vs).
Proof.
  intros Hle. enter_handler inst._CLONE.
  rewrite (StackTops_at _ _ sp _ reverted_spaces), Hst, tops_app.
  apply pushed_back; [ exact same_spaces | exact Hle ].
Qed.

Lemma POPS_packs :
  vs <> [] ->
  stack_after (run_with inst._POPS [VGoInt (zlen vs)]) (a, h)
  = Some (rest ++ [VAnys vs]).
Proof.
  intros Hvs. pose proof (lookup_lt_Some _ _ _ Hsp) as Hlt.
  assert (Hn : (zlen vs =? 0) = false).
  { apply Z.eqb_neq. destruct vs; [ congruence | unfold zlen; simpl; lia ]. }
  assert (Hpos : 1 <= zlen vs) by (apply Z.eqb_neq in Hn; pose proof (zlen_nonneg vs); lia).
  enter_handler inst._POPS.
  unfold bind at 1. rewrite (StackSize_at _ _ sp reverted_spaces).
  rewrite Hn. unfold bind at 1.
  rewrite (StackPops_at _ _ sp _ reverted_spaces), Hst, pops_app.
  cbn [fst snd ret]. rewrite spaces_reverted.
  apply pushed_back.
  - cbn [hspaces set_hspaces]. now rewrite list_lookup_insert_eq by exact Hlt.
  - rewrite zlen_app in Hmax. unfold zlen at 2. simpl. lia.
Qed.

Lemma POPS_0_packs_all :
  stack_after (run_with inst._POPS [VGoInt 0]) (a, h)
  = Some [VAnys (rest ++ vs)].
Proof.
  pose proof (lookup_lt_Some _ _ _ Hsp) as Hlt.
  enter_handler inst._POPS.
  unfold bind at 1. rewrite (StackSize_at _ _ sp reverted_spaces).
  change (0 =? 0) with true. cbn iota. unfold bind at 1.
  pose proof (pops_app [] (rest ++ vs)) as Hp. cbn [app] in Hp.
  rewrite (StackPops_at _ _ sp _ reverted_spaces), Hst, Hp.
  cbn [fst snd ret]. rewrite spaces_reverted.
  apply (pushed_back [] [VAnys (rest ++ vs)]).
  - cbn [hspaces set_hspaces]. now rewrite list_lookup_insert_eq by exact Hlt.
  - vm_compute. discriminate.
Qed.

Lemma TOPS_adds_a_list :
  vs <> [] -> zlen (rest ++ vs) < StackMax ->
  stack_after (run_with inst._TOPS [VGoInt (zlen vs)]) (a, h)
  = Some ((rest ++ vs) ++ [VAnys vs]).
Proof.
  intros Hvs Hlt.
  assert (Hn : (zlen vs =? 0) = false).
  { apply Z.eqb_neq. destruct vs; [ congruence | unfold zlen; simpl; lia ]. }
  enter_handler inst._TOPS. rewrite Hn. unfold bind at 1.
  rewrite (StackTops_at _ _ sp _ reverted_spaces), Hst, tops_app.
  cbn [ret]. apply pushed_back; [ exact same_spaces | ].
  unfold zlen at 2. simpl. lia.
Qed.

Lemma TOPS_0_adds_nothing :
  stack_after (run_with inst._TOPS [VGoInt 0]) (a, h) = Some (rest ++ vs).
Proof.
  enter_handler inst._TOPS. change (0 =? 0) with true. cbn iota.
  rewrite <- (app_nil_r (rest ++ vs)).
  apply pushed_back; [ exact same_spaces | ].
  unfold zlen at 2. simpl. lia.
Qed.

Lemma SHIFT_too_many (k : Z) :
  zlen (rest ++ vs) < k ->
  fault_of (run_with inst._SHIFT [VGoInt k] (a, h)) = Some (StackShort k) /\
  fault_of (run_with inst._CLONE [VGoInt k] (a, h)) = Some (StackShort k).
Proof.
  intros Hk. split.
  - unfold run_with. rewrite putCall_at. unfold inst._SHIFT.
    unfold bind at 1. rewrite Revert_at.
    unfold bind at 1. cbn [inst.at_ lookup list_lookup index ret].
    unfold bind at 1. cbn [inst.asGoInt ret].
    rewrite (StackPops_at _ _ sp _ reverted_spaces), Hst.
    unfold pops. destruct (zlen (rest ++ vs) - k <? 0) eqn:E;
      [ reflexivity | apply Z.ltb_ge in E; lia ].
  - unfold run_with. rewrite putCall_at. unfold inst._CLONE.
    unfold bind at 1. rewrite Revert_at.
    unfold bind at 1. cbn [inst.at_ lookup list_lookup index ret].
    unfold bind at 1. cbn [inst.asGoInt ret].
    rewrite (StackTops_at _ _ sp _ reverted_spaces), Hst.
    unfold tops. destruct (zlen (rest ++ vs) <? k) eqn:E;
      [ reflexivity | apply Z.ltb_ge in E; lia ].
Qed.

End StackInstructions.

(** X19. With return values going to the data stack, which holds
    [rest ++ vs] within the limit: SHIFT of the size of [vs] pops [vs]
    and puts it back, so the stack is as before; CLONE appends a copy
    of [vs]; POPS replaces [vs] by one value, the list [vs], and with
    parameter 0 it replaces the whole stack by one list; TOPS appends
    the list [vs] and with parameter 0 appends nothing; SHIFT and CLONE
    of more values than the stack holds fault. *)
Theorem stack_instructions (s : machine) (sp : spaces)
    (rest vs : list value) :
  hspaces (snd s) !! spaces_ (fst s) = Some sp ->
  BackTo (state_ (fst s)) = StackFlag ->
  stack_ sp = rest ++ vs ->
  zlen (rest ++ vs) <= StackMax ->
  let n := VGoInt (zlen vs) in
  stack_after (run_with inst._SHIFT [n]) s = Some (rest ++ vs) /\
  (zlen (rest ++ vs) + zlen vs <= StackMax ->
     stack_after (run_with inst._CLONE [n]) s = Some ((rest ++ vs) ++ vs)) /\
  (vs <> [] ->
     stack_after (run_with inst._POPS [n]) s = Some (rest ++ [VAnys vs])) /\
  stack_after (run_with inst._POPS [VGoInt 0]) s
  = Some [VAnys (rest ++ vs)] /\
  (vs <> [] -> zlen (rest ++ vs) < StackMax ->
     stack_after (run_with inst._TOPS [n]) s
     = Some ((rest ++ vs) ++ [VAnys vs])) /\
  stack_after (run_with inst._TOPS [VGoInt 0]) s = Some (rest ++ vs) /\
  (forall k, zlen (rest ++ vs) < k ->
     fault_of (run_with inst._SHIFT [VGoInt k] s) = Some (StackShort k) /\
     fault_of (run_with inst._CLONE [VGoInt k] s) = Some (StackShort k)).
Proof.
  destruct s as [a h]. cbn [fst snd]. intros Hsp Hto Hst Hmax. cbv zeta.
  split; [ now apply (SHIFT_puts_back a h sp) | ].
  split; [ now apply (CLONE_doubles a h sp) | ].
  split; [ now apply (POPS_packs a h sp) | ].
  split; [ now apply (POPS_0_packs_all a h sp) | ].
  split; [ now apply (TOPS_adds_a_list a h sp) | ].
  split; [ now apply (TOPS_0_adds_nothing a h sp) | ].
  intros k. now apply (SHIFT_too_many a h sp).
Qed.

Lemma stack_instructions_witness :
  stack_after (run_with inst._SHIFT [VGoInt 2])
              (with_stack_of [VInt 1; VInt 2; VInt 3] (boot []))
  = Some [VInt 1; VInt 2; VInt 3] /\
  stack_after (run_with inst._POPS [VGoInt 2])
              (with_stack_of [VInt 1; VInt 2; VInt 3] (boot []))
  = Some [VInt 1; VAnys [VInt 2; VInt 3]].
Proof.
  destruct (stack_instructions
              (with_stack_of [VInt 1; VInt 2; VInt 3] (boot []))
              {| stack_ := [VInt 1; VInt 2; VInt 3]; args_ := [];
                 bufin := []; bufout := [] |}
              [VInt 1] [VInt 2; VInt 3])
    as (H1 & _ & H3 & _);
    [ reflexivity | reflexivity | reflexivity | vm_compute; discriminate | ].
  split; [ exact H1 | apply H3; discriminate ].
Defined.

(** ** The pattern instructions *)

Lemma land_pow2 (i n : Z) :
  0 <= n -> negb (Z.land i (2 ^ n) =? 0) = Z.testbit i n.
Proof.
  intros Hn. destruct (Z.testbit i n) eqn:E.
  - apply negb_true_iff, Z.eqb_neq. intros H.
    assert (H' : Z.testbit (Z.land i (2 ^ n)) n = true).
    { rewrite Z.land_spec, E, Z.pow2_bits_true by exact Hn. reflexivity. }
    rewrite H, Z.bits_0 in H'. discriminate.
  - apply negb_false_iff, Z.eqb_eq. apply Z.bits_inj'. intros m Hm.
    rewrite Z.land_spec, Z.bits_0, Z.pow2_bits_eqb by exact Hn.
    destruct (Z.eqb_spec n m) as [<- | _];
      [ now rewrite E | apply andb_false_r ].
Qed.

Lemma land_64_not_1 (i : Z) : negb (Z.land i 64 =? 1) = true.
Proof.
  apply negb_true_iff, Z.eqb_neq. intros H.
  assert (H' : Z.testbit (Z.land i 64) 0 = false).
  { rewrite Z.land_spec. apply andb_false_r. }
  rewrite H in H'. discriminate.
Qed.

Lemma shl1_small (n : Z) : 0 <= n < 63 -> model.shl1 n = Some (2 ^ n).
Proof.
  intros Hn. unfold model.shl1.
  destruct (n <? 0) eqn:E; [ apply Z.ltb_lt in E; lia | ].
  rewrite Z.shiftl_1_l.
  assert (0 < 2 ^ n) by (apply Z.pow_pos_nonneg; lia).
  assert (2 ^ n < 2 ^ 63) by (apply Z.pow_lt_mono_r; lia).
  rewrite Z.mod_small by lia. f_equal. lia.
Qed.

(** X20. The data flag of a pick word or of a partial wildcard is
    never tested: [forData] and [wildData] answer true for every word,
    also when bit 6 is clear, while the other tests read their bit. *)
Theorem data_flag_is_not_tested (i : Z) :
  model.forData i = true /\ model.wildData i = true /\
  model.forCode i = Z.testbit i 0 /\ model.isOption i = Z.testbit i 0 /\
  model.withAll i = Z.testbit i 7 /\ model.inHash i = Z.testbit i 7 /\
  (forall n, 0 <= n < 63 ->
     model.forArg i n = Some (Z.testbit i n) /\
     model.wildArg i n = Some (Z.testbit i n)).
Proof.
  repeat split.
  - apply land_64_not_1.
  - apply land_64_not_1.
  - apply (land_pow2 i 0). lia.
  - apply (land_pow2 i 0). lia.
  - apply (land_pow2 i 7). lia.
  - apply (land_pow2 i 7). lia.
  - unfold model.forArg. rewrite shl1_small by lia. cbn [mbind option_bind].
    f_equal. apply land_pow2. lia.
  - unfold model.wildArg. rewrite shl1_small by lia. cbn [mbind option_bind].
    f_equal. apply land_pow2. lia.
Qed.

(** *** Instruction sizes *)

Lemma slice_bounds {A} (l : list A) (lo hi : Z) (d : list A) :
  slice_ l lo hi = Some d -> 0 <= lo <= hi /\ hi <= zlen l.
Proof.
  unfold slice_.
  destruct ((0 <=? lo) && (lo <=? hi) && (hi <=? zlen l)) eqn:E;
    [ | discriminate ].
  rewrite !andb_true_iff, !Z.leb_le in E. lia.
Qed.

Ltac bind_inv H :=
  repeat match type of H with
         | mbind _ ?x = Some _ =>
             let E := fresh "E" in
             destruct x eqn:E; cbn [mbind option_bind] in H;
             [ | discriminate H ]
         end.

Ltac sized_fixed :=
  intros code ins H;
  match type of H with ?p _ = _ => unfold p in H end;
  bind_inv H; injection H as <-; cbn [rSize mkInstor];
  repeat match goal with
         | E : slice_ _ _ _ = Some _ |- _ => apply slice_bounds in E
         end; lia.

Lemma sized_instData1 : sized instData1.
Proof. sized_fixed. Qed.
Lemma sized_instData4 : sized instData4.
Proof. sized_fixed. Qed.
Lemma sized_instData8 : sized instData8.
Proof. sized_fixed. Qed.
Lemma sized_instArg1 : sized instArg1.
Proof. sized_fixed. Qed.
Lemma sized_instArg2 : sized instArg2.
Proof. sized_fixed. Qed.
Lemma sized_instArg4_4_2 : sized instArg4_4_2.
Proof. sized_fixed. Qed.
Lemma sized_instDataX : sized instDataX.
Proof. sized_fixed. Qed.
Lemma sized_instArg1Bytes : sized instArg1Bytes.
Proof. sized_fixed. Qed.
Lemma sized_instArg2Bytes : sized instArg2Bytes.
Proof. sized_fixed. Qed.
Lemma sized_instArgXBytes : sized instArgXBytes.
Proof.
  intros code ins H. unfold instArgXBytes in H.
  bind_inv H. destruct (Uvarint l) as [_n len0].
  bind_inv H. injection H as <-. cbn [rSize mkInstor].
  repeat match goal with
         | E : slice_ _ _ _ = Some _ |- _ => apply slice_bounds in E
         end; lia.
Qed.
Lemma sized_not_covered : sized picker_not_covered.
Proof. intros code ins H. discriminate H. Qed.

Create HintDb sized discriminated.

#[local] Hint Resolve sized_instData1 sized_instData4 sized_instData8
  sized_instArg1 sized_instArg2 sized_instArg4_4_2 sized_instDataX
  sized_instArg1Bytes sized_instArg2Bytes sized_instArgXBytes
  sized_not_covered : sized.

Lemma sized_Pickes : Forall (fun e => sized (snd e)) __Pickes.
Proof.
  unfold __Pickes.
  repeat (apply List.Forall_cons; [ cbn [snd]; auto with sized | ]).
  apply List.Forall_nil.
Qed.

Lemma entry_Forall {A} (P : A -> Prop) (t : list (Z * A)) (c : Z) (x : A) :
  Forall (fun e => P (snd e)) t -> entry t c = Some x -> P x.
Proof.
  induction 1 as [| [k y] t Hy Ht IH ]; cbn [entry]; [ discriminate | ].
  destruct (k =? c); [ now intros [= <-] | exact IH ].
Qed.

Lemma Raw_size (code : list Z) (ins : Instor) :
  Raw code = Some ins -> 1 <= rSize ins <= zlen code.
Proof.
  unfold Raw. intros H.
  destruct (zlookup code 0) as [c |] eqn:Ec; cbn [mbind option_bind] in H;
    [ | discriminate H ].
  destruct (entry __Pickes c) as [f |] eqn:Ef.
  - exact (entry_Forall sized _ _ _ sized_Pickes Ef code ins H).
  - injection H as <-. cbn [rSize mkInstor].
    destruct code; [ discriminate Ec | unfold zlen; simpl; lia ].
Qed.

(** *** The wildcards *)

Lemma Get_Wildnum (n : Z) (rest : list Z) :
  instor.Get (icode.Wildnum :: n :: rest)
  = Some (mkInsted icode.Wildnum [VGoInt n] VNil 2).
Proof.
  get_with parseArg1. unfold Raw.
  change (zlookup (icode.Wildnum :: n :: rest) 0) with (Some icode.Wildnum).
  cbn [mbind option_bind].
  replace (entry __Pickes icode.Wildnum) with (Some instArg1) by reflexivity.
  unfold instArg1.
  change (zlookup (icode.Wildnum :: n :: rest) 0) with (Some icode.Wildnum).
  cbn [mbind option_bind]. rewrite slice_second. reflexivity.
Qed.

Lemma Get_Wildlist (n : Z) (rest : list Z) :
  instor.Get (icode.Wildlist :: n :: rest)
  = Some (mkInsted icode.Wildlist [VGoInt n] (VBytes []) 2).
Proof.
  get_with parseArg1Code. unfold Raw.
  change (zlookup (icode.Wildlist :: n :: rest) 0) with (Some icode.Wildlist).
  cbn [mbind option_bind].
  replace (entry __Pickes icode.Wildlist) with (Some instArg1) by reflexivity.
  unfold instArg1.
  change (zlookup (icode.Wildlist :: n :: rest) 0) with (Some icode.Wildlist).
  cbn [mbind option_bind]. rewrite slice_second. reflexivity.
Qed.

Lemma Bytes_NewScript (s : list Z) : Bytes (NewScript s) = Some s.
Proof.
  unfold Bytes, NewScript. cbn [source offset].
  rewrite slice_from_ok by (pose proof (zlen_nonneg s); lia).
  reflexivity.
Qed.

Lemma Wildnum_loop_from (n : nat) :
  forall (s : list Z) (k np acc : Z), 0 <= k <= zlen s ->
  model.Wildnum_loop n {| source := s; offset := k; nullpos := np |} acc
  = r ← model.Wildnum_loop n (NewScript (drop (Z.to_nat k) s)) 0;
    Some (acc + r).
Proof.
  induction n as [| n IH ]; intros s k np acc Hk.
  - cbn [model.Wildnum_loop mbind option_bind]. now rewrite Z.add_0_r.
  - cbn [model.Wildnum_loop]. rewrite Bytes_NewScript.
    unfold Bytes at 1. cbn [source offset].
    rewrite (slice_from_ok s k) by exact Hk.
    cbn [mbind option_bind].
    destruct (Raw (drop (Z.to_nat k) s)) as [ins |] eqn:E;
      cbn [mbind option_bind]; [ | reflexivity ].
    apply Raw_size in E.
    assert (Hd : zlen (drop (Z.to_nat k) s) = zlen s - k)
      by (unfold zlen in *; rewrite length_drop; lia).
    change (Next (NewScript (drop (Z.to_nat k) s)) (rSize ins))
      with {| source := drop (Z.to_nat k) s; offset := 0 + rSize ins;
              nullpos := 0 |}.
    unfold Next. cbn [source offset nullpos].
    rewrite (IH s (k + rSize ins)) by lia.
    rewrite (IH (drop (Z.to_nat k) s) (0 + rSize ins)) by lia.
    rewrite drop_drop.
    replace (Z.to_nat (k + rSize ins))
      with (Z.to_nat k + Z.to_nat (0 + rSize ins))%nat by lia.
    destruct (model.Wildnum_loop n _ 0) as [r |];
      cbn [mbind option_bind]; [ f_equal; lia | reflexivity ].
Qed.

Lemma Wildnum_at (s rest_m : list Z) (n : Z) (t : model.State) :
  model._Wildnum s (icode.Wildnum :: n :: rest_m) t
  = match model.Wildnum_loop (Z.to_nat n) (NewScript s) 0 with
    | Some size => Ok (size, 2, true) t
    | None => Unmodelled icode.Wildnum
    end.
Proof.
  unfold model._Wildnum. rewrite Get_Wildnum.
  cbn [Args Size mkInsted lookup list_lookup].
  now destruct (model.Wildnum_loop (Z.to_nat n) (NewScript s) 0).
Qed.

(** X21. The segment wildcard never fails a match and its own length
    is two bytes. With the count 0 it skips nothing of the source, with
    the count 1 it skips the first instruction, and with the count
    [n + 1] it skips the first instruction and then what the count [n]
    skips of the rest. *)
Theorem Wildnum_skips (s rest_m : list Z) (t : model.State) :
  model._Wildnum s (icode.Wildnum :: 0 :: rest_m) t = Ok (0, 2, true) t /\
  (forall ins0, Raw s = Some ins0 ->
     model._Wildnum s (icode.Wildnum :: 1 :: rest_m) t
     = Ok (rSize ins0, 2, true) t) /\
  (forall ins0 rest n size,
     0 <= n -> Raw s = Some ins0 ->
     slice_from s (rSize ins0) = Some rest ->
     model._Wildnum rest (icode.Wildnum :: n :: rest_m) t
     = Ok (size, 2, true) t ->
     model._Wildnum s (icode.Wildnum :: n + 1 :: rest_m) t
     = Ok (rSize ins0 + size, 2, true) t) /\
  (forall n r t', model._Wildnum s (icode.Wildnum :: n :: rest_m) t = Ok r t' ->
     snd r = true /\ snd (fst r) = 2 /\ t' = t).
Proof.
  assert (Hstep : forall ins0 n, 0 <= n -> Raw s = Some ins0 ->
            model.Wildnum_loop (Z.to_nat (n + 1)) (NewScript s) 0
            = r ← model.Wildnum_loop (Z.to_nat n)
                    (NewScript (drop (Z.to_nat (rSize ins0)) s)) 0;
              Some (rSize ins0 + r)).
  { intros ins0 n Hn Hraw.
    replace (Z.to_nat (n + 1)) with (S (Z.to_nat n)) by lia.
    cbn [model.Wildnum_loop]. rewrite Bytes_NewScript.
    cbn [mbind option_bind]. rewrite Hraw. cbn [mbind option_bind].
    pose proof (Raw_size _ _ Hraw) as Hsz.
    change (Next (NewScript s) (rSize ins0))
      with {| source := s; offset := 0 + rSize ins0; nullpos := 0 |}.
    rewrite Wildnum_loop_from by lia.
    now replace (0 + rSize ins0) with (rSize ins0) by lia. }
  split; [ | split; [ | split ] ].
  - now rewrite Wildnum_at.
  - intros ins0 Hraw. rewrite Wildnum_at.
    pose proof (Hstep ins0 0 ltac:(lia) Hraw) as H1.
    change (0 + 1) with 1 in H1. rewrite H1.
    cbn [Z.to_nat model.Wildnum_loop mbind option_bind].
    repeat f_equal. lia.
  - intros ins0 rest n size Hn Hraw Hrest. rewrite !Wildnum_at.
    rewrite (Hstep ins0 n Hn Hraw).
    pose proof (Raw_size _ _ Hraw) as Hsz.
    rewrite slice_from_ok in Hrest by lia. injection Hrest as <-.
    destruct (model.Wildnum_loop (Z.to_nat n) _ 0) as [r |];
      cbn [mbind option_bind]; [ | discriminate ].
    now intros [= ->].
  - intros n r t'. rewrite Wildnum_at.
    destruct (model.Wildnum_loop (Z.to_nat n) (NewScript s) 0);
      [ | discriminate ].
    now intros [= <- <-].
Qed.

(** X22. The list wildcard reads one byte, [size], after its opcode and
    no list: its data is empty and its length two bytes. So the source
    is skipped only when exactly [size] bytes are left of it, a longer
    source is left where it is whatever it holds, the match never
    fails, and a shorter source is a fault. *)
Theorem Wildlist_compares_the_tail (s rest_m : list Z) (size : Z)
    (t : model.State) :
  (Data <$> instor.Get (icode.Wildlist :: size :: rest_m)
   = Some (VBytes [])) /\
  (size = zlen s ->
     model._Wildlist s (icode.Wildlist :: size :: rest_m) t
     = Ok (size, 2, true) t) /\
  (0 <= size < zlen s ->
     model._Wildlist s (icode.Wildlist :: size :: rest_m) t
     = Ok (0, 2, true) t) /\
  (zlen s < size ->
     model._Wildlist s (icode.Wildlist :: size :: rest_m) t
     = Panic (Fault IndexRange) t).
Proof.
  pose proof (zlen_nonneg s) as Hs.
  unfold model._Wildlist. rewrite Get_Wildlist.
  cbn [Args Size Data mkInsted lookup list_lookup fmap option_fmap option_map].
  split; [ reflexivity | ]. split; [ | split ].
  - intros ->. rewrite slice_from_ok by lia.
    unfold zlen. rewrite Nat2Z.id, drop_all. reflexivity.
  - intros H. rewrite slice_from_ok by lia.
    destruct (drop (Z.to_nat size) s) as [| x l ] eqn:E; [ | reflexivity ].
    exfalso. apply (f_equal length) in E. rewrite length_drop in E.
    unfold zlen in *. simpl in E. lia.
  - intros H. unfold slice_from, slice_.
    replace (size <=? zlen s) with false
      by (symmetry; apply Z.leb_gt; exact H).
    rewrite andb_false_r. reflexivity.
Qed.

(** ** The total award *)

Lemma int64_small (z : Z) : - 2 ^ 63 <= z < 2 ^ 63 -> cbase.int64 z = z.
Proof.
  intros H. unfold cbase.int64. rewrite Z.mod_small by lia. lia.
Qed.

(** One year of the loop, as long as nothing wraps: the base per block
    shrinks by the rate, and the total grows by the year's blocks. *)
Lemma AwardTotal_loop_total (rate K : Z) :
  0 <= rate < 1000 -> 0 <= K <= 10 ^ 11 ->
  forall (n : nat) (base sum y : Z) (out : list cbase.row),
    0 <= base -> 0 <= sum ->
    (Z.to_nat (base / 300000) <= n)%nat ->
    (1000 - rate) * sum + 87661000 * base <= 87661000 * K ->
    exists total rows,
      (forall fuel, (n < fuel)%nat ->
         cbase.AwardTotal_loop fuel base rate sum y out
         = Some (total, rows)) /\
      0 <= total /\ (1000 - rate) * total <= 87661000 * K /\
      (base < 300000000 -> total = sum /\ rows = out).
Proof.
  intros Hrate HK. induction n as [| n IH ]; intros base sum y out Hb Hs Hn Hinv.
  - exists sum, out. assert (Hlt : base < 300000) .
    { destruct (Z_lt_le_dec base 300000) as [H | H]; [ exact H | ].
      assert (1 <= base / 300000) by (apply Z.div_le_lower_bound; lia).
      lia. }
    repeat split; try lia.
    intros [| fuel ] Hf; [ lia | ]. cbn [cbase.AwardTotal_loop].
    unfold cbase.MINTENDLINE.
    destruct (base <? 300000000) eqn:E; [ reflexivity | ].
    apply Z.ltb_ge in E. lia.
  - destruct (Z_lt_le_dec base 300000000) as [Hlt | Hge].
    + exists sum, out. repeat split; try lia.
      intros [| fuel ] Hf; [ lia | ]. cbn [cbase.AwardTotal_loop].
      unfold cbase.MINTENDLINE.
      destruct (base <? 300000000) eqn:E; [ reflexivity | ].
      apply Z.ltb_ge in E. lia.
    + assert (HbK : base <= K) by nia.
      assert (Hq : Z.quot (base * rate) 1000 = base * rate / 1000)
        by (apply Z.quot_div_nonneg; nia).
      pose proof (Z.mul_div_le (base * rate) 1000 ltac:(lia)) as Hle.
      assert (Hq0 : 0 <= base * rate / 1000)
        by (apply Z.div_pos; nia).
      assert (Hsum : sum <= 87661000 * K) by nia.
      assert (E1 : cbase.int64 (base * cbase.SY6BLOCKS) = base * 87661)
        by (apply int64_small; unfold cbase.SY6BLOCKS; lia).
      assert (Hinv' : (1000 - rate) * (sum + base * 87661)
                      + 87661000 * (base * rate / 1000) <= 87661000 * K)
        by nia.
      assert (E2 : cbase.int64 (sum + base * 87661) = sum + base * 87661).
      { apply int64_small. assert (sum + base * 87661 <= 87661000 * K) by nia.
        lia. }
      assert (E3 : cbase.int64 (base * rate) = base * rate)
        by (apply int64_small; nia).
      assert (Hdec : base * rate / 1000 / 300000 + 1 <= base / 300000).
      { assert (H1 : base * rate / 1000 <= base - 300000).
        { apply Z.div_le_upper_bound; [ lia | ]. nia. }
        transitivity ((base - 300000) / 300000 + 1);
          [ apply Z.add_le_mono_r, Z.div_le_mono; lia | ].
        replace (base - 300000) with (base + (-1) * 300000) by lia.
        rewrite Z.div_add by lia. lia. }
      destruct (IH (base * rate / 1000) (sum + base * 87661)
                   (cbase.int64 (y + 1))
                   (out ++ [(cbase.int64 (y + 1), sum + base * 87661,
                             base * 87661, base)]))
        as (total & rows & Hrun & Ht0 & Ht & _); try lia.
      exists total, rows. repeat split; try lia.
      intros [| fuel ] Hf; [ lia | ]. cbn [cbase.AwardTotal_loop].
      unfold cbase.MINTENDLINE.
      destruct (base <? 300000000) eqn:E;
        [ apply Z.ltb_lt in E; lia | ].
      cbv zeta. rewrite E1, E2, E3, Hq. apply Hrun. lia.
Qed.

(** X23. For a start of at most 1000 coins per block and a rate below
    1000, [AwardTotal] returns: the loop ends, within 334 rounds per
    coin, and the total is not negative and at most the first year's
    award times [1000 / (1000 - rate)]. Below 3 coins per block the
    total is 0 and no row is printed. A rate of 1000 or more is the
    panic. *)
Theorem AwardTotal_converges (base rate : Z) :
  0 <= base <= 1000 -> 0 <= rate < 1000 ->
  (exists total rows,
     (forall fuel, (Z.to_nat (334 * base) < fuel)%nat ->
        cbase.AwardTotal fuel base rate = cbase.Total total rows) /\
     0 <= total /\
     (1000 - rate) * total
     <= 1000 * (cbase.SY6BLOCKS * (base * 100000000)) /\
     (base < 3 -> total = 0 /\ rows = [])) /\
  (forall fuel r, 1000 <= r -> cbase.AwardTotal fuel base r = cbase.BadRate).
Proof.
  intros Hbase Hrate. split.
  - assert (E : cbase.int64 (base * 100000000) = base * 100000000)
      by (apply int64_small; lia).
    destruct (AwardTotal_loop_total rate (base * 100000000) Hrate
                ltac:(lia) (Z.to_nat (334 * base)) (base * 100000000) 0 0 [])
      as (total & rows & Hrun & Ht0 & Ht & Hlow); try lia.
    { apply Z2Nat.inj_le; [ apply Z.div_pos; lia | lia | ].
      apply Z.div_le_upper_bound; lia. }
    exists total, rows. unfold cbase.SY6BLOCKS.
    split; [ | split; [ exact Ht0 | split; [ lia | ] ] ].
    + intros fuel Hf. unfold cbase.AwardTotal.
      destruct (1000 <=? rate) eqn:E0; [ apply Z.leb_le in E0; lia | ].
      rewrite E, (Hrun fuel Hf). reflexivity.
    + intros H3. apply Hlow. lia.
  - intros fuel r Hr. unfold cbase.AwardTotal.
    destruct (1000 <=? r) eqn:E0; [ reflexivity | apply Z.leb_gt in E0; lia ].
Qed.

Lemma AwardTotal_converges_witness :
  0 <= 50 <= 1000 /\
  exists total rows,
    cbase.AwardTotal (S (Z.to_nat (334 * 50))) 50 900
    = cbase.Total total rows /\
    (1000 - 900) * total <= 1000 * (cbase.SY6BLOCKS * (50 * 100000000)).
Proof.
  split; [ lia | ].
  destruct (AwardTotal_converges 50 900) as [(total & rows & H & _ & Hb & _) _];
    [ lia | lia | ].
  exists total, rows. split; [ apply H; apply Nat.lt_succ_diag_r | exact Hb ].
Defined.
